(** * The region RPC service of MAAS: connection registry and advertising

    A shallow embedding of [src/maasserver/rpc/regionservice.py]:

    - [Advertising]: the database side of [RegionAdvertising]
      ([promote], [getRegionProcess], [update], [demote]) over an explicit
      model of the tables it touches;
    - [Promotion]: the retry loop [RegionAdvertisingService._tryPromote]
      and the callback chain [startService] hangs on it;
    - [Registry]: [RegionService]'s [connections] and [waiters]
      dictionaries, the Twisted [Deferred]s kept in them, and
      [RegionServer._register].

    Time is counted in seconds.  Python objects compared by identity
    (connections, Deferreds) are natural numbers. *)

From Stdlib Require Import ZArith QArith.
From stdpp Require Import base gmap sets list strings pretty.
Close Scope Q_scope.

(** ** Exceptions *)

Inductive exn :=
| CancelledError                              (* twisted.internet.defer *)
| AlreadyCalledError                          (* twisted.internet.defer *)
| NoConnectionsAvailable (uuid : option string)
| CannotRegisterRackController
| AssertionError (msg : string)
| KeyError
| RegionController_DoesNotExist
| RegionControllerProcess_DoesNotExist
| MultipleObjectsReturned
| OtherError (what : string).

Global Instance exn_eq_dec : EqDecision exn.
Proof. solve_decision. Defined.

(** * Advertising: [RegionAdvertising] *)

Module Advertising.

(** Number of regiond processes that should be running for a regiond. *)
Definition NUMBER_OF_REGIOND_PROCESSES : nat := 4.

(** [RegionAdvertisingService.INTERVAL_NO_ENDPOINTS] and
    [INTERVAL_WITH_ENDPOINTS], in seconds. *)
Definition INTERVAL_NO_ENDPOINTS : nat := 2.
Definition INTERVAL_WITH_ENDPOINTS : nat := 60.

(** ** The tables *)

(** Rows of [RegionController], [RegionControllerProcess] and
    [RegionControllerProcessEndpoint].  A process refers to its region by
    the region's [system_id], an endpoint to its process by the process's
    primary key.  Timestamps are seconds on the database clock. *)
Record RegionController := {
  system_id : string;
  hostname : string;
  region_updated : Z }.

Record RegionControllerProcess := {
  proc_id : nat;
  proc_region : string;
  proc_pid : nat;
  proc_created : Z;
  proc_updated : Z }.

Record RegionControllerProcessEndpoint := {
  ep_id : nat;
  ep_process : nat;
  ep_address : string;
  ep_port : nat }.

(** Modelled from the spec: [maasserver.enum.SERVICE_STATUS] is not among
    the sources; the spec lists running, degraded and dead, and [UNKNOWN]
    stands for a record that has not been graded yet. *)
Inductive SERVICE_STATUS := UNKNOWN | RUNNING | DEGRADED | DEAD.

Global Instance SERVICE_STATUS_eq_dec : EqDecision SERVICE_STATUS.
Proof. solve_decision. Defined.

(** The [Service] table, keyed by (node system_id, service name), holds
    (status, status_info). *)
Record DB := {
  regions : list RegionController;
  processes : list RegionControllerProcess;
  endpoints : list RegionControllerProcessEndpoint;
  services : gmap (string * string) (SERVICE_STATUS * string);
  process_seq : nat;     (* next primary key of RegionControllerProcess *)
  endpoint_seq : nat }.  (* next primary key of the endpoint table *)

(** What the code reads from its host: [now()], [gethostname()],
    [os.getpid()], [is_pid_running] and the id of the region controller
    this host runs (the [maas_id] behind [get_running_controller]). *)
Record Host := {
  now : Z;
  gethostname : string;
  getpid : nat;
  is_pid_running : nat → bool;
  maas_id : string }.

(** ** Transactions

    Every method below is [@transactional]: it either returns a value and
    a new database, or raises and leaves the database as it was. *)
Definition tx (A : Type) : Type := DB → exn + (A * DB).

Definition tx_ret {A} (a : A) : tx A := λ db, inr (a, db).
Definition tx_raise {A} (e : exn) : tx A := λ _, inl e.
Definition tx_bind {A B} (m : tx A) (k : A → tx B) : tx B :=
  λ db, match m db with
        | inl e => inl e
        | inr (a, db') => k a db'
        end.
Definition tx_read {A} (f : DB → A) : tx A := λ db, inr (f db, db).
Definition tx_write (f : DB → DB) : tx unit := λ db, inr (tt, f db).
Definition tx_lift {A} (r : exn + A) : tx A :=
  λ db, match r with inl e => inl e | inr a => inr (a, db) end.

Notation "x <- m ;; k" := (tx_bind m (λ x, k))
  (at level 100, m at next level, right associativity).
Notation "m ;;; k" := (tx_bind m (λ _, k))
  (at level 100, right associativity).

Fixpoint tx_for {A} (l : list A) (body : A → tx unit) : tx unit :=
  match l with
  | [] => tx_ret tt
  | x :: l' => body x ;;; tx_for l' body
  end.

(** ** The ORM calls the code makes *)

(** [Model.objects.get(...)]: the single matching row, [DoesNotExist] when
    there is none, [MultipleObjectsReturned] when there are several. *)
Definition objects_get {A} (P : A → Prop) `{∀ x, Decision (P x)}
    (rows : list A) (dne : exn) : exn + A :=
  match filter P rows with
  | [] => inl dne
  | [x] => inr x
  | _ => inl MultipleObjectsReturned
  end.

Definition set_regions (f : list RegionController → list RegionController)
    (db : DB) : DB :=
  {| regions := f (regions db); processes := processes db;
     endpoints := endpoints db; services := services db;
     process_seq := process_seq db; endpoint_seq := endpoint_seq db |}.

Definition set_services
    (f : gmap (string * string) (SERVICE_STATUS * string) →
         gmap (string * string) (SERVICE_STATUS * string)) (db : DB) : DB :=
  {| regions := regions db; processes := processes db;
     endpoints := endpoints db; services := f (services db);
     process_seq := process_seq db; endpoint_seq := endpoint_seq db |}.

(** [queryset.delete()] on processes: the rows go, and so do the endpoints
    that point at them (the foreign key cascades). *)
Definition delete_processes (P : RegionControllerProcess → Prop)
    `{∀ x, Decision (P x)} (db : DB) : DB :=
  let gone := proc_id <$> filter P (processes db) in
  {| regions := regions db;
     processes := filter (λ p, ¬ P p) (processes db);
     endpoints := filter (λ e, ep_process e ∉ gone) (endpoints db);
     services := services db;
     process_seq := process_seq db; endpoint_seq := endpoint_seq db |}.

Definition delete_endpoints (P : RegionControllerProcessEndpoint → Prop)
    `{∀ x, Decision (P x)} (db : DB) : DB :=
  {| regions := regions db; processes := processes db;
     endpoints := filter (λ e, ¬ P e) (endpoints db);
     services := services db;
     process_seq := process_seq db; endpoint_seq := endpoint_seq db |}.

(** [process.save(update_fields=["updated"])]: the timestamped model
    stamps [updated] with [now()]. *)
Definition touch_process (h : Host) (pk : nat) (db : DB) : DB :=
  {| regions := regions db;
     processes :=
       (λ p, if decide (proc_id p = pk)
             then {| proc_id := proc_id p; proc_region := proc_region p;
                     proc_pid := proc_pid p; proc_created := proc_created p;
                     proc_updated := now h |}
             else p) <$> processes db;
     endpoints := endpoints db; services := services db;
     process_seq := process_seq db; endpoint_seq := endpoint_seq db |}.

(** The INSERT of a process row, with the primary key chosen by the
    caller, who answers for the keys: [promote] creates a row under the
    next key of the sequence, after it has found none for (region, pid);
    [getRegionProcess] goes through [force_insert]. *)
Definition insert_process (p : RegionControllerProcess) (db : DB) : DB :=
  {| regions := regions db; processes := processes db ++ [p];
     endpoints := endpoints db; services := services db;
     process_seq := Nat.max (process_seq db) (S (proc_id p));
     endpoint_seq := endpoint_seq db |}.

Definition IntegrityError : exn := OtherError "IntegrityError".

(** [process.save(force_insert=True)].  Modelled from the spec: the
    [RegionControllerProcess] model is not among the sources.  The spec
    has the identity of a region process be "the tuple (region-controller
    id, operating-system process id)", "never shared", its record created
    or got "by natural key": the table keeps (region, pid) unique, as it
    does the primary key, and an INSERT of a row whose primary key or
    whose (region, pid) is in use raises [IntegrityError]. *)
Definition force_insert (p : RegionControllerProcess) : tx unit :=
  ps <- tx_read processes ;;
  if decide (Exists (λ q, proc_id q = proc_id p
                          ∨ (proc_region q = proc_region p
                             ∧ proc_pid q = proc_pid p)) ps)
  then tx_raise IntegrityError
  else tx_write (insert_process p).

(** Modelled from the spec: [RegionController.objects.get_running_controller]
    is not among the sources; it is the find of "the hosting region
    controller", which fails while "the parent region-controller record does
    not exist yet". *)
Definition get_running_controller (h : Host) : tx RegionController :=
  rs <- tx_read regions ;;
  tx_lift (objects_get (λ r, system_id r = maas_id h) rs
             RegionController_DoesNotExist).

(** Modelled from the spec: [Service.objects] is not among the sources.
    The store keeps "a generic health-status record keyed by (owning entity,
    service name)" with a status and a free-text reason, offers
    create-or-get by natural key and update of fields; [mark_dead] marks
    the services of a region controller "fully down". *)
Definition create_services_for (node : string) : tx unit :=
  tx_write (set_services (λ m,
    match m !! (node, "regiond") with
    | Some _ => m
    | None => <[(node, "regiond") := (UNKNOWN, "")]> m
    end)).

Definition update_service_for (node name : string) (status : SERVICE_STATUS)
    (info : string) : tx unit :=
  tx_write (set_services (<[(node, name) := (status, info)]>)).

Definition mark_dead (node : string) : tx unit :=
  create_services_for node ;;;
  tx_write (set_services (λ m,
    map_imap (λ k v, if decide (k.1 = node) then Some (DEAD, "") else Some v)
             m)).

(** ** [RegionAdvertising] *)

(** An instance holds [region_id] and [process_id]. *)
Record RegionAdvertising := {
  region_id : string;
  process_id : nat }.

Definition new_process (h : Host) (pk : nat) (region : string)
    : RegionControllerProcess :=
  {| proc_id := pk; proc_region := region; proc_pid := getpid h;
     proc_created := now h; proc_updated := now h |}.

(** [promote]: find this host's region controller and get or create the
    process row for ([region], [os.getpid()]). *)
Definition promote (h : Host) : tx RegionAdvertising :=
  region_obj <- get_running_controller h ;;
  ps <- tx_read processes ;;
  match filter (λ p, proc_region p = system_id region_obj
                     ∧ proc_pid p = getpid h) ps with
  | [] =>
      pk <- tx_read process_seq ;;
      tx_write (insert_process (new_process h pk (system_id region_obj))) ;;;
      tx_ret {| region_id := system_id region_obj; process_id := pk |}
  | [process] =>
      tx_ret {| region_id := system_id region_obj;
                process_id := proc_id process |}
  | _ => tx_raise MultipleObjectsReturned
  end.

(** [getRegionProcess]: refresh the [updated] time of this process's row,
    or re-create the row under the same id when a peer has deleted it;
    the INSERT raises [IntegrityError] when another row holds this host's
    region and pid. *)
Definition getRegionProcess (self : RegionAdvertising) (h : Host)
    : tx RegionControllerProcess :=
  ps <- tx_read processes ;;
  match objects_get (λ p, proc_id p = process_id self) ps
          RegionControllerProcess_DoesNotExist with
  | inl RegionControllerProcess_DoesNotExist =>
      region_obj <- get_running_controller h ;;
      let process := new_process h (process_id self) (system_id region_obj) in
      force_insert process ;;;
      tx_ret process
  | inl e => tx_raise e
  | inr process =>
      tx_write (touch_process h (proc_id process)) ;;;
      tx_ret {| proc_id := proc_id process;
                proc_region := proc_region process;
                proc_pid := proc_pid process;
                proc_created := proc_created process;
                proc_updated := now h |}
  end.

(** [region_obj.save(update_fields=update_fields)] in [update]: [updated]
    is always written, [hostname] only when it changed. *)
Definition save_region (h : Host) (region_obj : RegionController)
    (with_hostname : bool) : DB → DB :=
  set_regions (fmap (λ r,
    if decide (system_id r = system_id region_obj)
    then {| system_id := system_id r;
            hostname := if with_hostname then gethostname h else hostname r;
            region_updated := now h |}
    else r)).

Definition insert_endpoint (e : RegionControllerProcessEndpoint) (db : DB)
    : DB :=
  {| regions := regions db; processes := processes db;
     endpoints := endpoints db ++ [e]; services := services db;
     process_seq := process_seq db;
     endpoint_seq := Nat.max (endpoint_seq db) (S (ep_id e)) |}.

(** The loop [for addr, port in addresses] of [update]: get or create the
    endpoint, and take a found one out of [previous_endpoint_ids]
    ([set.remove] raises [KeyError] on a missing element). *)
Fixpoint advertise_endpoints (process : nat) (addresses : list (string * nat))
    (previous_endpoint_ids : gset nat) : tx (gset nat) :=
  match addresses with
  | [] => tx_ret previous_endpoint_ids
  | (addr, port) :: rest =>
      es <- tx_read endpoints ;;
      match filter (λ e, ep_process e = process ∧ ep_address e = addr
                         ∧ ep_port e = port) es with
      | [] =>
          pk <- tx_read endpoint_seq ;;
          tx_write (insert_endpoint
            {| ep_id := pk; ep_process := process;
               ep_address := addr; ep_port := port |}) ;;;
          advertise_endpoints process rest previous_endpoint_ids
      | [endpoint] =>
          if decide (ep_id endpoint ∈ previous_endpoint_ids)
          then advertise_endpoints process rest
                 (previous_endpoint_ids ∖ {[ep_id endpoint]})
          else tx_raise KeyError
      | _ => tx_raise MultipleObjectsReturned
      end
  end.

(** The time-to-live of a process row, in seconds. *)
Definition TTL : Z := 90.

Definition degraded_message (number_of_processes : nat) : string :=
  let process_text :=
    if decide (number_of_processes = 1) then "process" else "processes" in
  pretty number_of_processes ++ " " ++ process_text ++ " running but "
    ++ pretty NUMBER_OF_REGIOND_PROCESSES ++ " were expected.".

(** [RegionControllerProcess.objects.filter(region=region_obj).count()]. *)
Definition count_processes (region : string) (db : DB) : nat :=
  length (filter (λ p, proc_region p = region) (processes db)).

(** [update]: one advertising tick.  Returns the next interval. *)
Definition update (self : RegionAdvertising) (h : Host)
    (addresses : gset (string * nat)) : tx nat :=
  rs <- tx_read regions ;;
  region_obj <- tx_lift (objects_get (λ r, system_id r = region_id self) rs
                           RegionController_DoesNotExist) ;;
  tx_write (save_region h region_obj
              (bool_decide (hostname region_obj ≠ gethostname h))) ;;;
  (* Get the updated region controller process. *)
  process <- getRegionProcess self h ;;
  (* Remove any old processes that are older than 90 seconds. *)
  let remove_before_time := (now h - TTL)%Z in
  tx_write (delete_processes
              (λ p, (proc_updated p ≤ remove_before_time)%Z)) ;;;
  (* Remove any processes that cannot be identified as still running. *)
  ps <- tx_read processes ;;
  let sibling_processes :=
    filter (λ p, proc_region p = system_id region_obj
                 ∧ proc_id p ≠ process_id self) ps in
  tx_for sibling_processes (λ sibling_process,
    if is_pid_running h (proc_pid sibling_process) then tx_ret tt
    else tx_write (delete_processes
                     (λ p, proc_id p = proc_id sibling_process))) ;;;
  (* Update all endpoints for this process. *)
  es <- tx_read endpoints ;;
  let previous_endpoint_ids : gset nat :=
    list_to_set
      (ep_id <$> filter (λ e, ep_process e = proc_id process) es) in
  r <- (if decide (size addresses = 0)
        then tx_ret (INTERVAL_NO_ENDPOINTS, previous_endpoint_ids)
        else
          ids <- advertise_endpoints (proc_id process) (elements addresses)
                   previous_endpoint_ids ;;
          tx_ret (INTERVAL_WITH_ENDPOINTS, ids)) ;;
  let interval := r.1 in
  (* Remove any previous endpoints. *)
  tx_write (delete_endpoints (λ e, ep_id e ∈ r.2)) ;;;
  (* Update the status of this regiond service for this region. *)
  create_services_for (system_id region_obj) ;;;
  number_of_processes <- tx_read (count_processes (system_id region_obj)) ;;
  let not_running_count :=
    (Z.of_nat NUMBER_OF_REGIOND_PROCESSES - Z.of_nat number_of_processes)%Z in
  (if decide (0 < not_running_count)%Z
   then update_service_for (system_id region_obj) "regiond" DEGRADED
          (degraded_message number_of_processes)
   else update_service_for (system_id region_obj) "regiond" RUNNING "") ;;;
  (* Update the status of all regions that have no processes running. *)
  rs <- tx_read regions ;;
  ps <- tx_read processes ;;
  tx_for (filter (λ r, system_id r ≠ region_id self) rs) (λ other_region,
    if decide (length (filter (λ p, proc_region p = system_id other_region)
                         ps) = 0)
    then mark_dead (system_id other_region)
    else tx_ret tt) ;;;
  (* The caller is responsible for setting the update interval. *)
  tx_ret interval.

(** [demote]: for every node with this region's id, get the row of
    ([region], [os.getpid()]) and delete it.  The node table is read
    through its region-controller rows. *)
Definition demote (self : RegionAdvertising) (h : Host) : tx unit :=
  rs <- tx_read regions ;;
  tx_for (filter (λ r, system_id r = region_id self) rs) (λ region_obj,
    ps <- tx_read processes ;;
    process <- tx_lift
      (objects_get (λ p, proc_region p = system_id region_obj
                         ∧ proc_pid p = getpid h) ps
         RegionControllerProcess_DoesNotExist) ;;
    tx_write (delete_processes (λ p, proc_id p = proc_id process))).

(** ** Vocabulary of the statements about [RegionAdvertising] *)

(** Which parts of the database a transaction leaves alone. *)
Definition keeps {A} (f : DB → A) {B} (m : tx B) : Prop :=
  ∀ db b db', m db = inr (b, db') → f db' = f db.

Definition reap (h : Host) (sibling_process : RegionControllerProcess)
    : tx unit :=
  if is_pid_running h (proc_pid sibling_process) then tx_ret tt
  else tx_write (delete_processes
                   (λ p, proc_id p = proc_id sibling_process)).


Definition endpoint_key (e : RegionControllerProcessEndpoint)
    : nat * string * nat :=
  (ep_process e, ep_address e, ep_port e).

(** The integrity the schema gives the endpoint table: primary keys are
    unique and below the sequence, and so is (process, address, port). *)
Record endpoints_ok (db : DB) : Prop := {
  ok_ids : NoDup (ep_id <$> endpoints db);
  ok_keys : NoDup (endpoint_key <$> endpoints db);
  ok_seq : ∀ e, e ∈ endpoints db → ep_id e < endpoint_seq db }.

(** A transaction that never raises. *)
Definition total {A} (m : tx A) : Prop :=
  ∀ db, ∃ a db', m db = inr (a, db').

Definition host0 : Host :=
  {| now := 1000; gethostname := "maas"; getpid := 42;
     is_pid_running := λ pid, bool_decide (pid = 42); maas_id := "r1" |}.

Definition self0 : RegionAdvertising :=
  {| region_id := "r1"; process_id := 3 |}.

Definition db0 : DB :=
  {| regions := [ {| system_id := "r1"; hostname := "old";
                     region_updated := 0 |};
                  {| system_id := "r2"; hostname := "other";
                     region_updated := 0 |} ];
     processes := [ new_process {| now := 900; gethostname := "other";
                                   getpid := 7; is_pid_running := λ _, true;
                                   maas_id := "r2" |} 1 "r2";
                    new_process {| now := 990; gethostname := "maas";
                                   getpid := 8; is_pid_running := λ _, true;
                                   maas_id := "r1" |} 2 "r1";
                    new_process {| now := 100; gethostname := "maas";
                                   getpid := 42; is_pid_running := λ _, true;
                                   maas_id := "r1" |} 3 "r1" ];
     endpoints := [ {| ep_id := 0; ep_process := 3; ep_address := "a";
                       ep_port := 80 |};
                    {| ep_id := 1; ep_process := 3; ep_address := "b";
                       ep_port := 80 |};
                    {| ep_id := 2; ep_process := 1; ep_address := "b";
                       ep_port := 80 |} ];
     services := ∅; process_seq := 4; endpoint_seq := 3 |}.

(** ** [dump], runs of ticks, and further vocabulary *)


(** A transaction step that writes the [Service] table only. *)
Definition services_only (db db' : DB) : Prop :=
  regions db' = regions db ∧ processes db' = processes db ∧
  endpoints db' = endpoints db ∧ process_seq db' = process_seq db ∧
  endpoint_seq db' = endpoint_seq db.

(** The ids of the endpoints that belong to [process]. *)
Definition endpoint_ids_of (process : nat) (db : DB) : gset nat :=
  list_to_set (ep_id <$> filter (λ e, ep_process e = process) (endpoints db)).

(** The rows [update] deletes for their age. *)
Definition stale (h : Host) (p : RegionControllerProcess) : Prop :=
  (proc_updated p ≤ now h - TTL)%Z.

Global Instance stale_dec h p : Decision (stale h p).
Proof. unfold stale. apply _. Defined.

(** The region row as [update] saves it. *)
Definition saved_region (self : RegionAdvertising) (h : Host)
    (r : RegionController) : RegionController :=
  if decide (system_id r = region_id self)
  then {| system_id := system_id r; hostname := gethostname h;
          region_updated := now h |}
  else r.

(** What the schema guarantees of the three tables: unique primary keys,
    below their sequences; a region controller for every process and a
    process for every endpoint. *)
Record tables_ok (db : DB) : Prop := {
  t_endpoints : endpoints_ok db;
  t_regions : NoDup (system_id <$> regions db);
  t_processes : NoDup (proc_id <$> processes db);
  t_process_seq : ∀ p, p ∈ processes db → proc_id p < process_seq db;
  t_process_region :
    ∀ p, p ∈ processes db → proc_region p ∈ system_id <$> regions db;
  t_endpoint_process :
    ∀ e, e ∈ endpoints db → ep_process e ∈ proc_id <$> processes db }.

(** A run of advertising ticks, each with the host as it is then and the
    addresses to advertise; the intervals [update] returned. *)
Fixpoint ticks (self : RegionAdvertising)
    (ts : list (Host * gset (string * nat))) : tx (list nat) :=
  match ts with
  | [] => tx_ret []
  | (h, addresses) :: rest =>
      interval <- update self h addresses ;;
      intervals <- ticks self rest ;;
      tx_ret (interval :: intervals)
  end.

(** The one row of this region and of the pid of [h] is the row of
    [self]. *)
Definition sole_row (self : RegionAdvertising) (h : Host) (db : DB) : Prop :=
  ∃ p, filter (λ p, proc_region p = region_id self ∧ proc_pid p = getpid h)
         (processes db) = [p] ∧
       proc_id p = process_id self.

(** [dump]: for every region controller, for every process of it, for
    every endpoint of the process, the triple of the event-loop name,
    the address and the port. *)
Definition dump (db : DB) : list (string * string * nat) :=
  regions db ≫= λ region_obj,
  filter (λ p, proc_region p = system_id region_obj) (processes db)
    ≫= λ process,
  (λ endpoint,
     ((hostname region_obj ++ ":pid=" ++ pretty (proc_pid process))%string,
      ep_address endpoint, ep_port endpoint))
    <$> filter (λ e, ep_process e = proc_id process) (endpoints db).

Definition db0_after : DB :=
  Eval vm_compute in
    match update self0 host0 {[ ("a", 80); ("c", 80) ]} db0 with
    | inr (_, db') => db'
    | inl _ => db0
    end.

Definition db0_demoted : DB :=
  Eval vm_compute in
    match demote self0 host0 db0 with
    | inr (_, db') => db'
    | inl _ => db0
    end.

End Advertising.


(** * Promotion: [RegionAdvertisingService._tryPromote] and [startService] *)

Module Promotion.
Import Advertising.

(** One turn of the [while self.running] loop: what [self.running] reads
    when the condition is evaluated, and what
    [deferToDatabase(RegionAdvertising.promote)] comes back with if the
    attempt is made.  The service may be stopped by the reactor at any
    [yield]; the loop sees it at its next condition. *)
Record turn := {
  running : bool;
  attempt : exn + RegionAdvertising }.

(** What the loop does besides calling [promote]. *)
Inductive effect :=
| pause (seconds : nat)
| log_err (msg : string).

(** How a run over the given turns stands at their end: returned, raised,
    or still in the loop, waiting for the next turn. *)
Inductive outcome :=
| Returned (advertising : RegionAdvertising)
| Raised (e : exn)
| Retrying.

Definition promotion_failed_message (loop_name : string) : string :=
  "Promotion of " ++ loop_name ++ " failed; will try again in 5 seconds.".

Fixpoint _tryPromote (loop_name : string) (turns : list turn)
    : list effect * outcome :=
  match turns with
  | [] => ([], Retrying)
  | t :: rest =>
      if running t then
        match attempt t with
        | inl RegionController_DoesNotExist =>
            (* Wait for the region controller object to be created. *)
            let '(effects, o) := _tryPromote loop_name rest in
            (pause 1 :: effects, o)
        | inl _ =>
            let '(effects, o) := _tryPromote loop_name rest in
            (log_err (promotion_failed_message loop_name)
               :: pause 5 :: effects, o)
        | inr advertising => ([], Returned advertising)
        end
      else
        (* Preparation did not complete before this service was shutdown,
           so raise CancelledError to prevent callbacks from being called. *)
        ([], Raised CancelledError)
  end.

(** The service object: the [advertising] DeferredValue (unset, set, or
    failed), whether the advertising LoopingCall runs, and what [log.err]
    has been given by [startService]'s last errback. *)
Record RegionAdvertisingService := {
  advertising : option (exn + RegionAdvertising);
  advertiser_running : option nat;      (* the LoopingCall's interval *)
  logged : list (exn * string) }.

Definition new_service : RegionAdvertisingService :=
  {| advertising := None; advertiser_running := None; logged := [] |}.

Definition _promotionOkay (adv : RegionAdvertising)
    (s : RegionAdvertisingService) : RegionAdvertisingService :=
  {| advertising := Some (inr adv);
     advertiser_running := advertiser_running s; logged := logged s |}.

Definition _promotionFailed (failure : exn) (s : RegionAdvertisingService)
    : RegionAdvertisingService :=
  {| advertising := Some (inl failure);
     advertiser_running := advertiser_running s; logged := logged s |}.

Definition _startAdvertising (s : RegionAdvertisingService)
    : RegionAdvertisingService :=
  {| advertising := advertising s;
     advertiser_running := Some INTERVAL_NO_ENDPOINTS; logged := logged s |}.

(** [ignoreCancellation]: [failure.trap(defer.CancelledError)] gives the
    failure back unless it is a [CancelledError]. *)
Definition ignoreCancellation (failure : exn) : option exn :=
  match failure with
  | CancelledError => None
  | e => Some e
  end.

(** [startService]: the chain
    [call _tryPromote], [_promotionOkay]/[_promotionFailed],
    [callOut _startAdvertising], [ignoreCancellation], [log.err].
    The result is what the [starting] Deferred has fired with: [None]
    while [_tryPromote] has not finished, [Some (inl e)] for a failure
    handed to the caller, [Some (inr tt)] otherwise. *)
Definition startService (loop_name : string) (turns : list turn)
    : option (exn + unit) * RegionAdvertisingService :=
  match (_tryPromote loop_name turns).2 with
  | Retrying => (None, new_service)
  | Returned adv =>
      (Some (inr tt), _startAdvertising (_promotionOkay adv new_service))
  | Raised failure =>
      let s := _promotionFailed failure new_service in
      match ignoreCancellation failure with
      | None => (Some (inr tt), s)
      | Some e =>
          (Some (inr tt),
           {| advertising := advertising s;
              advertiser_running := advertiser_running s;
              logged := logged s
                ++ [(e, "Failure starting advertising service.")] |})
      end
  end.

(** ** Vocabulary of the statements about [_tryPromote] *)

(** The turns of a running service whose attempts fail with [failures]. *)
Definition failing (failures : list exn) : list turn :=
  (λ e, {| running := true; attempt := inl e |}) <$> failures.

Definition pauses (effects : list effect) : list nat :=
  omap (λ e, match e with pause n => Some n | log_err _ => None end) effects.

Definition backoff (e : exn) : nat :=
  if decide (e = RegionController_DoesNotExist) then 1 else 5.

(** The claim as the specification words it: a service that is stopped
    before promotion has succeeded is cancelled, and counts as never
    started.  A stop comes at a [yield] of the loop and shows in the turn
    after it, which reads [running] as false. *)
Definition cancelled_once_stopped (loop_name : string) (turns : list turn)
    : Prop :=
  (∃ t, t ∈ turns ∧ running t = false) →
  (_tryPromote loop_name turns).2 = Raised CancelledError ∧
  advertiser_running (startService loop_name turns).2 = None.

End Promotion.

(** * Randomness: finite distributions

    [random.choice(seq)] draws an index of [seq] uniformly.  A distribution
    is the list of its outcomes with their weights. *)

Module Dist.

Definition dist (A : Type) : Type := list (Q * A).

Definition dret {A} (a : A) : dist A := [(1%Q, a)].

Definition dbind {A B} (d : dist A) (k : A → dist B) : dist B :=
  d ≫= λ pa, (λ qb, (Qmult pa.1 qb.1, qb.2)) <$> k pa.2.

(** [random.choice(seq)] for a non-empty [seq]; every call in the code is
    behind a [len(seq) > 0] test. *)
Definition random_choice {A} (seq : list A) : dist A :=
  (λ a, (Qmake 1 (Pos.of_nat (length seq)), a)) <$> seq.

Definition support {A} (d : dist A) : list A := snd <$> d.

(** The probability of the outcomes that satisfy [P]. *)
Definition Pr {A} (P : A → bool) (d : dist A) : Q :=
  foldr Qplus 0%Q (fst <$> filter (λ pa, P pa.2) d).

(** ** Sums of weights *)

Definition sumQ (l : list Q) : Q := foldr Qplus 0%Q l.

End Dist.

(** * Registry: [RegionService] and [RegionServer._register] *)

Module Registry.
Import Dist.

(** A rack controller's [system_id]; [None] is Python's [None], the value
    of [RegionServer.ident] before [initResponder] has run. *)
Definition identity : Type := option string.

(** [RegionServer] protocol instances and [Deferred]s, by object identity. *)
Definition conn : Type := nat.
Definition dref : Type := nat.

(** What a Deferred of this module fires with: a connection, a
    [common.Client] around something, or a list. *)
#[local] Set Warnings "-register-all".
Inductive value :=
| VConn (c : conn)
| VClient (v : value)
| VList (l : list value).

Inductive result :=
| Success (v : value)
| Failure (e : exn).

(** The callbacks the code hangs on its waiters.  Each constructor is one
    [addBoth]/[addCallback]/[addCallbacks] call of the source. *)
Inductive callback :=
| done (d : dref)
    (* deferWithTimeout: d.addBoth(done); cancels the timeout call *)
| callOut_discard (ident : identity) (d : dref)
    (* d.addBoth(callOut, waiters.discard, d), waiters = self.waiters[ident] *)
| callOut_discard_all (identifiers : list identity) (d : dref)
    (* d.addBoth(callOut, discard_all, self.waiters, identifiers, d) *)
| cb_conn_list
    (* d.addCallback(cb_conn_list) *)
| Client_or_cancelled (system_id : identity).
    (* d.addCallbacks(common.Client, cancelled) in getClientFor *)

(** A [twisted.internet.defer.Deferred]. *)
Record Deferred := {
  called : bool;
  current_result : option result;
  callbacks : list callback;
  _suppressAlreadyCalled : bool }.

(** [self.events = EventGroup("connected", "disconnected")]: what has been
    fired, oldest first. *)
Inductive event :=
| connected (ident : identity)
| disconnected (ident : identity).

Global Instance event_eq_dec : EqDecision event.
Proof. solve_decision. Defined.

(** The service ([connections], [waiters], [events]), the Deferreds that
    exist, and the reactor (its clock and its pending [callLater] calls,
    each a due time and the Deferred whose [cancel] it will call). *)
Record State := {
  connections : gmap identity (gset conn);
  waiters : gmap identity (gset dref);
  events : list event;
  deferreds : gmap dref Deferred;
  next_deferred : dref;
  clock : nat;
  delayed : list (nat * dref) }.

Definition init : State :=
  {| connections := ∅; waiters := ∅; events := []; deferreds := ∅;
     next_deferred := 0; clock := 0; delayed := [] |}.

Definition with_connections
    (f : gmap identity (gset conn) → gmap identity (gset conn))
    (s : State) : State :=
  {| connections := f (connections s); waiters := waiters s;
     events := events s; deferreds := deferreds s;
     next_deferred := next_deferred s; clock := clock s;
     delayed := delayed s |}.

Definition with_waiters
    (f : gmap identity (gset dref) → gmap identity (gset dref))
    (s : State) : State :=
  {| connections := connections s; waiters := f (waiters s);
     events := events s; deferreds := deferreds s;
     next_deferred := next_deferred s; clock := clock s;
     delayed := delayed s |}.

Definition fire (e : event) (s : State) : State :=
  {| connections := connections s; waiters := waiters s;
     events := events s ++ [e]; deferreds := deferreds s;
     next_deferred := next_deferred s; clock := clock s;
     delayed := delayed s |}.

Definition with_deferreds
    (f : gmap dref Deferred → gmap dref Deferred) (s : State) : State :=
  {| connections := connections s; waiters := waiters s;
     events := events s; deferreds := f (deferreds s);
     next_deferred := next_deferred s; clock := clock s;
     delayed := delayed s |}.

Definition with_delayed
    (f : list (nat * dref) → list (nat * dref)) (s : State) : State :=
  {| connections := connections s; waiters := waiters s;
     events := events s; deferreds := deferreds s;
     next_deferred := next_deferred s; clock := clock s;
     delayed := f (delayed s) |}.

(** ** [defaultdict(set)] *)

(** [d[k]] on a [defaultdict(set)] inserts an empty set under a missing
    key before it returns the set. *)
Definition touch {A} `{Countable A} (k : identity)
    (m : gmap identity (gset A)) : gmap identity (gset A) :=
  match m !! k with
  | Some _ => m
  | None => <[k := ∅]> m
  end.

Definition getitem {A} `{Countable A} (m : gmap identity (gset A))
    (k : identity) : gset A :=
  default ∅ (m !! k).

(** [d[k].add(x)] and [d[k].discard(x)]. *)
Definition add {A} `{Countable A} (k : identity) (x : A)
    (m : gmap identity (gset A)) : gmap identity (gset A) :=
  <[k := getitem m k ∪ {[x]}]> m.

Definition discard {A} `{Countable A} (k : identity) (x : A)
    (m : gmap identity (gset A)) : gmap identity (gset A) :=
  <[k := getitem m k ∖ {[x]}]> m.

(** ** Deferreds *)

(** One callback of a chain applied to the current result. *)
Definition run_callback (cb : callback) (r : result) (s : State)
    : result * State :=
  match cb with
  | done d =>
      (* if timeoutCall.active(): timeoutCall.cancel() *)
      (r, with_delayed (filter (λ call, call.2 ≠ d)) s)
  | callOut_discard ident d =>
      (* the set was taken from the dictionary when the waiter was made *)
      (r, with_waiters (alter (λ w, w ∖ {[d]}) ident) s)
  | callOut_discard_all identifiers d =>
      (r, foldl (λ s ident, with_waiters (discard ident d) s) s identifiers)
  | cb_conn_list =>
      (match r with
       | Success conn => Success (VList [conn])
       | Failure e => Failure e
       end, s)
  | Client_or_cancelled system_id =>
      (match r with
       | Success conn => Success (VClient conn)
       | Failure CancelledError =>
           Failure (NoConnectionsAvailable system_id)
       | Failure e => Failure e
       end, s)
  end.

(** [Deferred._runCallbacks]. *)
Fixpoint run_callbacks (cbs : list callback) (r : result) (s : State)
    : result * State :=
  match cbs with
  | [] => (r, s)
  | cb :: rest =>
      let '(r', s') := run_callback cb r s in
      run_callbacks rest r' s'
  end.

(** [Deferred._startRunCallbacks]: a second firing raises
    [AlreadyCalledError] unless a [cancel] has asked to swallow it once. *)
Definition _startRunCallbacks (d : dref) (r : result) (s : State)
    : option exn * State :=
  match deferreds s !! d with
  | None => (None, s)
  | Some D =>
      if called D then
        if _suppressAlreadyCalled D then
          (None, with_deferreds
                   (<[d := {| called := true;
                              current_result := current_result D;
                              callbacks := callbacks D;
                              _suppressAlreadyCalled := false |}]>) s)
        else (Some AlreadyCalledError, s)
      else
        let s1 := with_deferreds
                    (<[d := {| called := true; current_result := Some r;
                               callbacks := [];
                               _suppressAlreadyCalled :=
                                 _suppressAlreadyCalled D |}]>) s in
        let '(r', s2) := run_callbacks (callbacks D) r s1 in
        (None, with_deferreds
                 (<[d := {| called := true; current_result := Some r';
                            callbacks := [];
                            _suppressAlreadyCalled :=
                              _suppressAlreadyCalled D |}]>) s2)
  end.

Definition Deferred_callback (d : dref) (v : value) (s : State)
    : option exn * State :=
  _startRunCallbacks d (Success v) s.

(** [Deferred.cancel] without a canceller: errback [CancelledError] unless
    the Deferred has fired. *)
Definition Deferred_cancel (d : dref) (s : State) : State :=
  match deferreds s !! d with
  | None => s
  | Some D =>
      if called D then s
      else
        (_startRunCallbacks d (Failure CancelledError)
           (with_deferreds
              (<[d := {| called := called D;
                         current_result := current_result D;
                         callbacks := callbacks D;
                         _suppressAlreadyCalled := true |}]>) s)).2
  end.

(** [Deferred.addCallbacks]/[addBoth]: the callback joins the chain, and
    runs at once on a Deferred that has fired. *)
Definition Deferred_addCallbacks (d : dref) (cb : callback) (s : State)
    : State :=
  match deferreds s !! d with
  | None => s
  | Some D =>
      if called D then
        match current_result D with
        | Some r =>
            let '(r', s') := run_callback cb r s in
            with_deferreds
              (<[d := {| called := true; current_result := Some r';
                         callbacks := callbacks D;
                         _suppressAlreadyCalled :=
                           _suppressAlreadyCalled D |}]>) s'
        | None => s
        end
      else
        with_deferreds
          (<[d := {| called := called D; current_result := current_result D;
                     callbacks := callbacks D ++ [cb];
                     _suppressAlreadyCalled := _suppressAlreadyCalled D |}]>)
          s
  end.

(** [reactor.callLater]: the pending calls are kept in the order in which
    they fall due. *)
Fixpoint callLater (call : nat * dref) (calls : list (nat * dref))
    : list (nat * dref) :=
  match calls with
  | [] => [call]
  | c :: rest =>
      if decide (call.1 < c.1) then call :: calls
      else c :: callLater call rest
  end.

(** Modelled from the spec: [deferWithTimeout] is not among the sources.
    It makes the waiter "a timed, cancellable future": a new Deferred that
    the reactor cancels once [timeout] has elapsed, unless it has fired
    before. *)
Definition deferWithTimeout (timeout : nat) (s : State) : dref * State :=
  let d := next_deferred s in
  (d, {| connections := connections s; waiters := waiters s;
         events := events s;
         deferreds := <[d := {| called := false; current_result := None;
                                callbacks := [done d];
                                _suppressAlreadyCalled := false |}]>
                        (deferreds s);
         next_deferred := S d; clock := clock s;
         delayed := callLater (clock s + timeout, d) (delayed s) |}).

(** The reactor runs the calls that are due, earliest first.  [fuel]
    bounds the number of calls run; the number of pending calls is
    enough, as no callback of this module schedules a call. *)
Fixpoint runUntilCurrent (fuel : nat) (s : State) : State :=
  match fuel with
  | 0 => s
  | S fuel' =>
      match list_find (λ call, call.1 ≤ clock s) (delayed s) with
      | Some (i, (_, d)) =>
          runUntilCurrent fuel'
            (Deferred_cancel d (with_delayed (delete i) s))
      | None => s
      end
  end.

(** [seconds] pass on the reactor's clock. *)
Definition advance (seconds : nat) (s : State) : State :=
  let s' := {| connections := connections s; waiters := waiters s;
               events := events s; deferreds := deferreds s;
               next_deferred := next_deferred s;
               clock := clock s + seconds; delayed := delayed s |} in
  runUntilCurrent (length (delayed s')) s'.

(** ** [RegionService] *)

(** What a method hands back: a Deferred that has fired already
    ([defer.succeed]), or a waiter. *)
Inductive handed :=
| Fired (r : result)
| Pending (d : dref).

Definition _getConnectionFor (ident : identity) (timeout : nat) (s : State)
    : dist (handed * State) :=
  let s := with_connections (touch ident) s in
  let conns := elements (getitem (connections s) ident) in
  if decide (length conns = 0) then
    let s := with_waiters (touch ident) s in
    let '(d, s) := deferWithTimeout timeout s in
    let s := Deferred_addCallbacks d (callOut_discard ident d) s in
    let s := with_waiters (add ident d) s in
    dret (Pending d, s)
  else
    dbind (random_choice conns) (λ connection,
    dret (Fired (Success (VConn connection)), s)).

(** The first loop of [_getConnectionFromIdentifiers]. *)
Fixpoint matched_connections (identifiers : list identity) (s : State)
    : dist (list conn * State) :=
  match identifiers with
  | [] => dret ([], s)
  | ident :: rest =>
      let s := with_connections (touch ident) s in
      let conns := elements (getitem (connections s) ident) in
      if decide (0 < length conns) then
        dbind (random_choice conns) (λ c,
        dbind (matched_connections rest s) (λ ms,
        dret (c :: ms.1, ms.2)))
      else matched_connections rest s
  end.

Definition _getConnectionFromIdentifiers (identifiers : list identity)
    (timeout : nat) (s : State) : dist (handed * State) :=
  dbind (matched_connections identifiers s) (λ ms,
  let '(matched, s) := ms in
  if decide (0 < length matched) then
    dret (Fired (Success (VList (VConn <$> matched))), s)
  else
    let '(d, s) := deferWithTimeout timeout s in
    let s := Deferred_addCallbacks d (callOut_discard_all identifiers d) s in
    let s := Deferred_addCallbacks d cb_conn_list s in
    let s := foldl (λ s ident,
               with_waiters (add ident d) (with_waiters (touch ident) s))
               s identifiers in
    dret (Pending d, s)).

(** The loop [for waiter in self.waiters[ident].copy()] of
    [_addConnectionFor]; an exception leaves the loop. *)
Fixpoint callback_waiters (ws : list dref) (connection : conn) (s : State)
    : option exn * State :=
  match ws with
  | [] => (None, s)
  | waiter :: rest =>
      match Deferred_callback waiter (VConn connection) s with
      | (None, s') => callback_waiters rest connection s'
      | (Some e, s') => (Some e, s')
      end
  end.

Definition _addConnectionFor (ident : identity) (connection : conn)
    (s : State) : option exn * State :=
  let s := with_connections (add ident connection) s in
  let s := with_waiters (touch ident) s in
  match callback_waiters (elements (getitem (waiters s) ident))
          connection s with
  | (None, s) => (None, fire (connected ident) s)
  | (Some e, s) => (Some e, s)
  end.

Definition _removeConnectionFor (ident : identity) (connection : conn)
    (s : State) : State :=
  fire (disconnected ident) (with_connections (discard ident connection) s).

(** The loop of [stopService] that cancels every waiter. *)
Definition cancel_waiters (s : State) : State :=
  foldl (λ s ident,
           foldl (λ s waiter, Deferred_cancel waiter s) s
             (elements (getitem (waiters s) ident)))
        s (map_to_list (waiters s)).*1.

Definition getClientFor (system_id : identity) (timeout : nat) (s : State)
    : dist (handed * State) :=
  dbind (_getConnectionFor system_id timeout s) (λ ds,
  match ds.1 with
  | Pending d =>
      dret (Pending d,
            Deferred_addCallbacks d (Client_or_cancelled system_id) ds.2)
  | Fired r =>
      let '(r', s') := run_callback (Client_or_cancelled system_id) r ds.2 in
      dret (Fired r', s')
  end).

Definition getRandomClient (s : State) : dist (exn + value) :=
  let connections := (map_to_list (connections s)).*2 in
  if decide (length connections = 0) then
    dret (inl (NoConnectionsAvailable None))
  else
    dbind (random_choice connections) (λ connection,
    (* Make sure a sane set was returned. *)
    if decide (0 < size connection) then
      dbind (random_choice (elements connection)) (λ c,
      dret (inr (VClient (VConn c))))
    else dret (inl (AssertionError "Connection set empty."))).

(** ** [RegionServer] *)

Record RegionServer := {
  self : conn;
  ident : identity;
  hostIsRemote : bool }.

(** What the calls that [_register] and [initResponder] make to the
    database and the resolver come back with: [None] for a normal return,
    [Some e] for a raise. *)
Record calls := {
  isLoopbackURL : option exn;
  rackcontrollers_register : exn + string;   (* the rack's system_id *)
  handle_upgrade : option exn;
  host_is_address : bool;                    (* isinstance(self.host, ...) *)
  advertising_get : option exn;
  getRegionProcess : option exn;
  registerConnection : option exn }.

(** [initResponder]. *)
Definition initResponder (this : RegionServer) (rack_controller : string)
    (c : calls) (s : State) : option exn * RegionServer * State :=
  let this := {| self := self this; ident := Some rack_controller;
                 hostIsRemote := hostIsRemote this |} in
  match _addConnectionFor (ident this) (self this) s with
  | (Some e, s) => (Some e, this, s)
  | (None, s) =>
      let this := {| self := self this; ident := ident this;
                     hostIsRemote := host_is_address c |} in
      if hostIsRemote this then
        match advertising_get c with
        | Some e => (Some e, this, s)
        | None =>
            match getRegionProcess c with
            | Some e => (Some e, this, s)
            | None => (registerConnection c, this, s)
            end
        end
      else (None, this, s)
  end.

(** The [try] block of [_register]. *)
Definition register_body (this : RegionServer)
    (nodegroup_uuid : option string) (c : calls) (s : State)
    : option exn * RegionServer * State :=
  match isLoopbackURL c with
  | Some e => (Some e, this, s)
  | None =>
      match rackcontrollers_register c with
      | inl e => (Some e, this, s)
      | inr rack_controller =>
          match (match nodegroup_uuid with
                 | Some _ => handle_upgrade c
                 | None => None
                 end) with
          | Some e => (Some e, this, s)
          | None => initResponder this rack_controller c s
          end
      end
  end.

(** [_register]: on any exception drop the connection under [self.ident]
    and raise [CannotRegisterRackController]. *)
Definition _register (this : RegionServer) (nodegroup_uuid : option string)
    (c : calls) (s : State) : (exn + identity) * RegionServer * State :=
  match register_body this nodegroup_uuid c s with
  | (Some _, this, s) =>
      (inl CannotRegisterRackController, this,
       _removeConnectionFor (ident this) (self this) s)
  | (None, this, s) => (inr (ident this), this, s)
  end.

End Registry.

(** * Runs of the registry

    What can happen to a [RegionService] between two moments: callers ask
    for clients, connections register and unregister, time passes, a
    caller cancels the waiter it was handed, the service stops. *)

Module Runs.
Import Dist Registry.

Inductive op :=
| Get (system_id : identity) (timeout : nat)       (* getClientFor *)
| GetAny (identifiers : list identity) (timeout : nat)
                                        (* _getConnectionFromIdentifiers *)
| Register (ident : identity) (connection : conn)  (* _addConnectionFor *)
| Unregister (ident : identity) (connection : conn)
                                                  (* _removeConnectionFor *)
| Advance (seconds : nat)                          (* the reactor's clock *)
| Cancel (d : dref)                                (* d.cancel() *)
| Stop.                                  (* stopService's waiter loop *)

(** The states an operation may leave; more than one only where the
    operation draws at random. *)
Definition outcomes (o : op) (s : State) : list State :=
  match o with
  | Get system_id timeout => (support (getClientFor system_id timeout s)).*2
  | GetAny identifiers timeout =>
      (support (_getConnectionFromIdentifiers identifiers timeout s)).*2
  | Register ident connection => [(_addConnectionFor ident connection s).2]
  | Unregister ident connection => [_removeConnectionFor ident connection s]
  | Advance seconds => [advance seconds s]
  | Cancel d => [Deferred_cancel d s]
  | Stop => [cancel_waiters s]
  end.

(** A run from [s]: each operation with the state it left. *)
Fixpoint execution (s : State) (run : list (op * State)) : Prop :=
  match run with
  | [] => True
  | (o, s') :: rest => s' ∈ outcomes o s ∧ execution s' rest
  end.

Definition final (s : State) (run : list (op * State)) : State :=
  default s (last run.*2).

(** ** Vocabulary of the statements about the registry *)

(** The waiters of an identity, and its connections. *)
Definition W (s : State) (j : identity) : gset dref := getitem (waiters s) j.
Definition C (s : State) (j : identity) : gset conn :=
  getitem (connections s) j.

(** A callback in the chain of [d] refers to [d] only. *)
Definition owned (d : dref) (cb : callback) : Prop :=
  match cb with
  | done d' | callOut_discard _ d' | callOut_discard_all _ d' => d' = d
  | _ => True
  end.

(** The chain discards [d] from the waiters of [j]. *)
Definition covers (j : identity) (d : dref) (cbs : list callback) : Prop :=
  callOut_discard j d ∈ cbs
  ∨ ∃ ids, callOut_discard_all ids d ∈ cbs ∧ j ∈ ids.

Global Instance callback_eq_dec : EqDecision callback.
Proof. solve_decision. Defined.

(** The result a chain turns [r] into; it does not depend on the state. *)
Definition chain_result (cbs : list callback) (r : result) : result :=
  foldl (λ r cb, (run_callback cb r init).1) r cbs.

(** Every member of a waiter set is a Deferred that has not fired and whose
    chain will discard it from that set; chains refer to their own Deferred
    only; Deferreds are numbered below [next_deferred]. *)
Record wf (s : State) : Prop := {
  wf_members : ∀ j d, d ∈ W s j →
    ∃ D, deferreds s !! d = Some D ∧ called D = false
         ∧ covers j d (callbacks D);
  wf_heap : ∀ d D, deferreds s !! d = Some D →
    d < next_deferred s ∧ Forall (owned d) (callbacks D) }.

(** [x], pending in [s], is as it was. *)
Definition untouched (x : dref) (s s' : State) : Prop :=
  deferreds s' !! x = deferreds s !! x ∧
  (∀ j, x ∈ W s' j ↔ x ∈ W s j) ∧
  (∀ t, (t, x) ∈ delayed s → (t, x) ∈ delayed s').

(** [x], pending in [s] with chain [cbs], has fired with [r] and is in no
    waiter set. *)
Definition resolved (x : dref) (cbs : list callback) (r : result)
    (s' : State) : Prop :=
  (∃ D', deferreds s' !! x = Some D' ∧ called D' = true ∧
         current_result D' = Some (chain_result cbs r)) ∧
  ∀ j, x ∉ W s' j.

(** A transition in which waiters are fired only by a cancellation or by
    the registration of a connection [c] under an identity [j] with
    [L j c]. *)
Record trans (L : identity → conn → Prop) (s s' : State) : Prop := {
  t_wf : wf s';
  t_next : next_deferred s ≤ next_deferred s';
  t_clock : clock s ≤ clock s';
  t_readd : ∀ j x, x < next_deferred s → x ∈ W s' j → x ∈ W s j;
  t_called : ∀ x D, deferreds s !! x = Some D → called D = true →
    ∃ D', deferreds s' !! x = Some D' ∧ called D' = true ∧
          current_result D' = current_result D;
  t_pending : ∀ x D, deferreds s !! x = Some D → called D = false →
    untouched x s s' ∨
    ∃ r, resolved x (callbacks D) r s' ∧
         (r = Failure CancelledError
          ∨ ∃ j c, r = Success (VConn c) ∧ x ∈ W s j ∧ L j c);
  t_new : ∀ j x, next_deferred s ≤ x → x ∈ W s' j →
    ∃ t, (t, x) ∈ delayed s' }.

Definition fired_deferred (cbs : list callback) (r : result) (b : bool)
    : Deferred :=
  {| called := true; current_result := Some (chain_result cbs r);
     callbacks := []; _suppressAlreadyCalled := b |}.

Definition get_waiter (i : identity) (d : dref) : Deferred :=
  {| called := false; current_result := None;
     callbacks := [done d; callOut_discard i d; Client_or_cancelled i];
     _suppressAlreadyCalled := false |}.

Definition getany_waiter (ids : list identity) (d : dref) : Deferred :=
  {| called := false; current_result := None;
     callbacks := [done d; callOut_discard_all ids d; cb_conn_list];
     _suppressAlreadyCalled := false |}.

(** The registrations an operation makes. *)
Definition label (o : op) : identity → conn → Prop :=
  match o with
  | Register i c => λ j c', j = i ∧ c' = c
  | _ => λ _ _, False
  end.

(** The number of steps of a run at which [d] leaves the waiters of [j]. *)
Fixpoint removals (d : dref) (j : identity) (s : State)
    (run : list (op * State)) : nat :=
  match run with
  | [] => 0
  | (_, s') :: rest =>
      (if decide (d ∈ W s j ∧ d ∉ W s' j) then 1 else 0)
      + removals d j s' rest
  end.

Definition is_pending (d : dref) (s : State) : Prop :=
  ∃ D, deferreds s !! d = Some D ∧ called D = false.

Definition has_fired (d : dref) (s : State) : Prop :=
  ∃ D, deferreds s !! d = Some D ∧ called D = true.

(** Every member of a waiter set has a pending timeout call. *)
Definition timed (s : State) : Prop :=
  ∀ j d, d ∈ W s j → ∃ t, (t, d) ∈ delayed s.

(** The waiter [d] has failed with "no connections available" for [i] and
    sits in no waiter set. *)
Definition timed_out (i : identity) (d : dref) (s : State) : Prop :=
  (∃ D, deferreds s !! d = Some D ∧ called D = true ∧
        current_result D = Some (Failure (NoConnectionsAvailable i))) ∧
  ∀ j, d ∉ W s j.

Definition waiting (i : identity) (d : dref) (t : nat) (s : State) : Prop :=
  deferreds s !! d = Some (get_waiter i d) ∧ (t, d) ∈ delayed s.

(** The call hands back, at once, a client for the connection [c]. *)
Definition hands_client (c : conn) (hs : handed * State) : bool :=
  match hs.1 with
  | Fired (Success (VClient (VConn c'))) => bool_decide (c' = c)
  | _ => false
  end.

(** The value is the connection [c], possibly wrapped by the callbacks. *)
Inductive carries (c : conn) : value → Prop :=
| carries_conn : carries c (VConn c)
| carries_client v : carries c v → carries c (VClient v)
| carries_list v : carries c v → carries c (VList [v]).

(** The claim as the specification words it: one register satisfies a
    single waiter. *)
Definition resolves_single_waiter (i : identity) (c : conn) (s : State)
    : Prop :=
  let s' := (_addConnectionFor i c s).2 in
  ∀ w1 w2, w1 ∈ W s i → w2 ∈ W s i →
           has_fired w1 s' → has_fired w2 s' → w1 = w2.

Definition after_get (i : identity) (timeout : nat) (s : State) : State :=
  match getClientFor i timeout s with
  | (_, (_, s')) :: _ => s'
  | [] => s
  end.

(** Two callers wait for the rack "rack". *)
Definition two_waiters : State :=
  after_get (Some "rack") 30 (after_get (Some "rack") 30 init).

(** The claim as the specification words it: a second call changes
    neither the connection sets nor the notifications fired. *)
Definition same_observable (s s' : State) : Prop :=
  connections s = connections s' ∧ events s = events s'.

(** The call returns a client for the connection [c]. *)
Definition is_client (c : conn) (r : exn + value) : bool :=
  match r with
  | inr (VClient (VConn c')) => bool_decide (c' = c)
  | _ => false
  end.

(** The union of all registered identities' sessions. *)
Definition sessions (s : State) : gset conn :=
  ⋃ (map_to_list (connections s)).*2.

(** The claim as the specification words it: every session of the union
    is as likely as any other. *)
Definition uniform_over_sessions (s : State) : Prop :=
  ∀ c, c ∈ sessions s →
       (Pr (is_client c) (getRandomClient s)
        == 1 # Pos.of_nat (size (sessions s)))%Q.

(** Rack "a" has one connection and rack "b" has two. *)
Definition one_and_two : State :=
  (_addConnectionFor (Some "b") 3
     (_addConnectionFor (Some "b") 2
        (_addConnectionFor (Some "a") 1 init).2).2).2.

Definition rack : identity := Some "rack".

(** The rack has registered one connection. *)
Definition registered : State := (_addConnectionFor rack 7 init).2.

Definition failing_calls : calls :=
  {| isLoopbackURL := None; rackcontrollers_register := inr "rack";
     handle_upgrade := None; host_is_address := true;
     advertising_get := None; getRegionProcess := None;
     registerConnection := Some (OtherError "no such endpoint") |}.

Definition fresh_server : RegionServer :=
  {| self := 7; ident := None; hostIsRemote := false |}.

(** ** Further methods of [RegionService] and [RegionServer] *)

(** What the registrations and unregistrations of a run make of the
    connection sets [X]; the other operations are passed over. *)
Fixpoint registered_after (run : list (op * State))
    (X : identity → gset conn) : identity → gset conn :=
  match run with
  | [] => X
  | (Register i c, _) :: rest =>
      registered_after rest (λ j, if decide (i = j) then X j ∪ {[c]} else X j)
  | (Unregister i c, _) :: rest =>
      registered_after rest (λ j, if decide (i = j) then X j ∖ {[c]} else X j)
  | _ :: rest => registered_after rest X
  end.

(** The call fails the assertion on the drawn set. *)
Definition is_assertion (r : exn + value) : bool :=
  match r with
  | inl (AssertionError _) => true
  | _ => false
  end.

(** The identities of the dictionary that have no connection. *)
Definition idle (s : State) : list (identity * gset conn) :=
  filter (λ iX, iX.2 = ∅) (map_to_list (connections s)).

(** The list comprehension of [getAllClients]: one draw for every set of
    the dictionary that has a connection, in the order of the
    dictionary. *)
Fixpoint all_clients (sets : list (gset conn)) : dist (list value) :=
  match sets with
  | [] => dret []
  | connections :: rest =>
      if decide (0 < size connections) then
        dbind (random_choice (elements connections)) (λ c,
        dbind (all_clients rest) (λ clients,
        dret (VClient (VConn c) :: clients)))
      else all_clients rest
  end.

Definition getAllClients (s : State) : dist (list value) :=
  all_clients (map_to_list (connections s)).*2.

(** [RegionServer.connectionLost]: for a remote host the connection record
    is unregistered from the database, and a failure on the way is logged;
    in every case the connection leaves the set of its identity.  The
    outcomes of the calls to the advertising service and the database are
    given as in [calls]; the result holds what [log.err] was given. *)
Definition connectionLost (this : RegionServer) (c : calls)
    (unregisterConnection : option exn) (s : State)
    : list (exn * string) * State :=
  let failed :=
    if hostIsRemote this then
      match advertising_get c with
      | Some e => Some e
      | None =>
          match getRegionProcess c with
          | Some e => Some e
          | None => unregisterConnection
          end
      end
    else None in
  (match failed with
   | Some e => [(e, "Failed to unregister the rack controller connection.")]
   | None => []
   end,
   _removeConnectionFor (ident this) (self this) s).

(** The calls [_register] makes all return. *)
Definition calls_return (nodegroup_uuid : option string) (c : calls)
    (rack_controller : string) : Prop :=
  isLoopbackURL c = None ∧
  rackcontrollers_register c = inr rack_controller ∧
  (nodegroup_uuid = None ∨ handle_upgrade c = None) ∧
  (host_is_address c = true →
   advertising_get c = None ∧ getRegionProcess c = None
   ∧ registerConnection c = None).

(** The rack registers a connection and loses it again. *)
Definition come_and_go : list (op * State) :=
  [(Register rack 7, registered);
   (Unregister rack 7, _removeConnectionFor rack 7 registered)].

(** Calls that all return, for a host that is not a network address. *)
Definition returning_calls : calls :=
  {| isLoopbackURL := None; rackcontrollers_register := inr "rack";
     handle_upgrade := None; host_is_address := false;
     advertising_get := None; getRegionProcess := None;
     registerConnection := None |}.

End Runs.

(** * Listening: [RegionService._bindFirst], [_savePorts], [startService]
    and [getPort] *)

Module Listening.
#[local] Set Warnings "-abstract-large-number".

(** [port.addressFamily]; [AF_UNIX] stands for every family other than
    the two that [getPort] looks for. *)
Inductive address_family := AF_INET | AF_INET6 | AF_UNIX.

Global Instance address_family_eq_dec : EqDecision address_family.
Proof. solve_decision. Defined.

(** An [IListeningPort]: its address family and, when the attribute is
    there, [port.socket.getsockname()[:2]]. *)
Record Port := {
  addressFamily : address_family;
  socket : option (string * nat) }.

(** An endpoint, as what [endpoint.listen(factory)] comes back with. *)
Definition endpoint : Type := exn + Port.

(** The loop of [_bindFirst]: the result ([None] is Python's [None], the
    value of a generator that runs off its end) and the number of
    endpoints it has called [listen] on. *)
Fixpoint _bindFirst_loop (index last : nat) (endpoints : list endpoint)
    : (exn + option Port) * nat :=
  match endpoints with
  | [] => (inr None, 0)
  | inr port :: _ => (inr (Some port), 1)
  | inl e :: rest =>
      if decide (index = last) then (inl e, 1)
      else
        let '(result, listens) := _bindFirst_loop (S index) last rest in
        (result, S listens)
  end.

Definition _bindFirst (endpoints : list endpoint)
    : (exn + option Port) * nat :=
  if decide (0 < length endpoints)
  then _bindFirst_loop 0 (length endpoints - 1) endpoints
  else (inl (AssertionError "No endpoint options specified."), 0).

(** The service as far as listening goes: [self.ports] and what
    [log.err] has been given. *)
Record Listener := {
  ports : list (option Port);
  errors : list (exn * string) }.

(** [_savePorts]: [results] are the [(success, result)] pairs of a
    [DeferredList], [inr] for a success. *)
Fixpoint _savePorts (results : list (exn + option Port)) (this : Listener)
    : Listener :=
  match results with
  | [] => this
  | inr result :: rest =>
      _savePorts rest {| ports := ports this ++ [result];
                         errors := errors this |}
  | inl CancelledError :: rest => _savePorts rest this
  | inl e :: rest =>
      _savePorts rest
        {| ports := ports this;
           errors := errors this
             ++ [(e, "RegionServer endpoint failed to listen.")] |}
  end.

(** [startService]: one [_bindFirst] for every list of endpoint options,
    gathered by a [DeferredList] with [consumeErrors], then
    [_savePorts]. *)
Definition startService (endpoints : list (list endpoint))
    (this : Listener) : Listener :=
  _savePorts ((λ endpoint_options, (_bindFirst endpoint_options).1)
                <$> endpoints) this.

(** [self.endpoints] as [__init__] sets it: one list of options, the
    ports 5250 to 5259; [listen] gives what binding a port number comes
    back with. *)
Definition default_endpoints (listen : nat → endpoint)
    : list (list endpoint) :=
  [listen <$> seq 5250 10].

(** [getPort]: the first port of an internet family; [None] without one,
    or when that port has no socket.  Reading [addressFamily] off a [None]
    in [self.ports] raises [AttributeError]. *)
Fixpoint first_inet_port (ports : list (option Port))
    : exn + option Port :=
  match ports with
  | [] => inr None
  | None :: _ => inl (OtherError "AttributeError")
  | Some port :: rest =>
      if decide (addressFamily port ∈ [AF_INET; AF_INET6])
      then inr (Some port)
      else first_inet_port rest
  end.

Definition getPort (this : Listener) : exn + option nat :=
  match first_inet_port (ports this) with
  | inl e => inl e
  | inr None => inr None
  | inr (Some port) =>
      match socket port with
      | None => inr None
      | Some (host, port) => inr (Some port)
      end
  end.

End Listening.

(** * The advertising service at work: [_getAddresses], [_tryUpdate] and
    [_tryDemote] *)

Module Service.
Import Advertising Promotion Listening.

(** What the code asks of the network of this host:
    [get_all_interface_source_addresses()],
    [get_all_interface_addresses()], and [IPAddress(addr).is_link_local()]
    and [.is_loopback()]. *)
Record Network := {
  get_all_interface_source_addresses : gset string;
  get_all_interface_addresses : list string;
  is_link_local : string → bool;
  is_loopback : string → bool }.

(** [_getAddresses]; [rpc] is the service named "rpc", [None] when
    [getServiceNamed] raises [KeyError]. *)
Definition _getAddresses (rpc : option Listener) (net : Network)
    : exn + gset (string * nat) :=
  match rpc with
  | None => inr ∅                        (* No RPC service yet. *)
  | Some service =>
      match getPort service with
      | inl e => inl e
      | inr None => inr ∅                (* Not serving yet. *)
      | inr (Some port) =>
          let addresses := get_all_interface_source_addresses net in
          if decide (0 < size addresses) then
            inr (set_map (λ addr, (addr, port)) addresses)
          else
            (* There are no non-loopback addresses, so return loopback
               address as a fallback. *)
            inr (foldl (λ loopback_addresses addr,
                          if is_link_local net addr then loopback_addresses
                          else if is_loopback net addr
                          then loopback_addresses ∪ {[(addr, port)]}
                          else loopback_addresses)
                       ∅ (get_all_interface_addresses net))
      end
  end.

(** The two errbacks that end the chains of [_tryUpdate] and
    [_tryDemote]: [ignoreCancellation], then [log.err] with a message. *)
Definition log_unless_cancelled (failure : exn) (msg : string)
    : list (exn * string) :=
  match ignoreCancellation failure with
  | None => []
  | Some e => [(e, msg)]
  end.

Definition update_failed_message (loop_name : string) : string :=
  "Failed to update regiond's process and endpoints; " ++ loop_name
    ++ " record's may be out of date".

Definition demote_failed_message (loop_name : string) : string :=
  "Failed to demote regiond's process and endpoints; " ++ loop_name
    ++ " record's may be out of date".

(** [_tryUpdate], from the moment [self.advertising.get()] has fired with
    [advertising]: the interval given to the looping call, if any, what
    has been logged, and the database, which a failed [update] leaves as
    it was. *)
Definition _tryUpdate (loop_name : string)
    (advertising : exn + RegionAdvertising) (h : Host)
    (rpc : option Listener) (net : Network) (db : DB)
    : option nat * list (exn * string) * DB :=
  match advertising with
  | inl failure =>
      (None, log_unless_cancelled failure (update_failed_message loop_name),
       db)
  | inr advertising =>
      match _getAddresses rpc net with
      | inl failure =>
          (None,
           log_unless_cancelled failure (update_failed_message loop_name),
           db)
      | inr addresses =>
          match update advertising h addresses db with
          | inl failure =>
              (None,
               log_unless_cancelled failure
                 (update_failed_message loop_name), db)
          | inr (interval, db') => (Some interval, [], db')
          end
      end
  end.

(** Modelled from the spec: [DeferredValue] is not among the sources.
    [self.advertising.get(0.0)] does not wait ("never blocking
    indefinitely"): an unset value, [None] here, comes back as a
    [CancelledError]. *)
Definition _tryDemote (loop_name : string)
    (advertising : option (exn + RegionAdvertising)) (h : Host) (db : DB)
    : list (exn * string) * DB :=
  match advertising with
  | None =>
      (log_unless_cancelled CancelledError (demote_failed_message loop_name),
       db)
  | Some (inl failure) =>
      (log_unless_cancelled failure (demote_failed_message loop_name), db)
  | Some (inr advertising) =>
      match demote advertising h db with
      | inl failure =>
          (log_unless_cancelled failure (demote_failed_message loop_name),
           db)
      | inr (_, db') => ([], db')
      end
  end.

(** ** Vocabulary of the statements about the advertising service *)

(** The addresses on which a serving region can be reached: the source
    addresses of its interfaces or, without any, the loopback addresses
    that are not link-local. *)
Definition reachable (net : Network) (addr : string) : Prop :=
  if decide (get_all_interface_source_addresses net = ∅)
  then addr ∈ get_all_interface_addresses net
       ∧ is_link_local net addr = false ∧ is_loopback net addr = true
  else addr ∈ get_all_interface_source_addresses net.

Definition port0 : Port :=
  {| addressFamily := AF_INET6; socket := Some ("::", 5250) |}.

Definition rpc0 : Listener := {| ports := [Some port0]; errors := [] |}.

Definition net0 : Network :=
  {| get_all_interface_source_addresses := {[ "10.0.0.1" ]};
     get_all_interface_addresses := ["127.0.0.1"; "10.0.0.1"];
     is_link_local := λ _, false;
     is_loopback := λ addr, bool_decide (addr = "127.0.0.1") |}.

End Service.

(** * Connection records: [RegionAdvertising.registerConnection] and
    [unregisterConnection] *)

Module Connections.
Import Advertising.

(** A row of [RegionRackRPCConnection]: the endpoint it came in on, by
    primary key, and the rack controller, by [system_id]. *)
Record RegionRackRPCConnection := {
  conn_id : nat;
  conn_endpoint : nat;
  conn_rack_controller : string }.

(** The tables of [Advertising] with those of the rack controllers
    ([system_id]s) and of the connections; [saved] lists the rows that
    [connection.save()] has been called on, for the signals it sends. *)
Record ConnDB := {
  tables : DB;
  rack_controllers : list string;
  rpc_connections : list RegionRackRPCConnection;
  connection_seq : nat;
  saved : list nat }.

(** [self.host]: a Twisted address. *)
Record Address := {
  host : string;
  port : nat }.

Definition RegionControllerProcessEndpoint_DoesNotExist : exn :=
  OtherError "RegionControllerProcessEndpoint.DoesNotExist".

Definition RackController_DoesNotExist : exn :=
  OtherError "RackController.DoesNotExist".

(** [RegionControllerProcessEndpoint.objects.get(process=process,
    address=host.host, port=host.port)]. *)
Definition get_endpoint (process : RegionControllerProcess) (a : Address)
    (d : ConnDB) : exn + RegionControllerProcessEndpoint :=
  objects_get (λ e, ep_process e = proc_id process ∧ ep_address e = host a
                    ∧ ep_port e = port a)
    (endpoints (tables d)) RegionControllerProcessEndpoint_DoesNotExist.

(** [registerConnection].  [host] is the address of a TCP peer, an IP
    address in text; [ipv4 s] is [str(IPAddress(s).ipv4())] on such an
    address, [None] when it raises [AddrConversionError].  The address
    object is changed in place before anything can fail, so it is handed
    back beside the outcome of the transaction. *)
Definition registerConnection (ipv4 : string → option string)
    (process : RegionControllerProcess) (rack_controller : string)
    (a : Address) (d : ConnDB) : Address * (exn + ConnDB) :=
  let a := match ipv4 (host a) with
           | Some dotted_quad => {| host := dotted_quad; port := port a |}
           | None => a
           end in
  (a,
   match get_endpoint process a d with
   | inl e => inl e
   | inr endpoint =>
       match filter (λ c, conn_endpoint c = ep_id endpoint
                          ∧ conn_rack_controller c = rack_controller)
               (rpc_connections d) with
       | [] =>
           inr {| tables := tables d;
                  rack_controllers := rack_controllers d;
                  rpc_connections := rpc_connections d
                    ++ [{| conn_id := connection_seq d;
                           conn_endpoint := ep_id endpoint;
                           conn_rack_controller := rack_controller |}];
                  connection_seq := S (connection_seq d);
                  saved := saved d |}
       | [connection] =>
           (* Force the save so that signals connected to the
              RegionRackRPCConnection are performed. *)
           inr {| tables := tables d;
                  rack_controllers := rack_controllers d;
                  rpc_connections := rpc_connections d;
                  connection_seq := connection_seq d;
                  saved := saved d ++ [conn_id connection] |}
       | _ => inl MultipleObjectsReturned
       end
   end).

(** [unregisterConnection]. *)
Definition unregisterConnection (process : RegionControllerProcess)
    (ident : option string) (a : Address) (d : ConnDB) : exn + ConnDB :=
  match get_endpoint process a d with
  | inl e =>
      if decide (e = RegionControllerProcessEndpoint_DoesNotExist)
      then inr d             (* Endpoint no longer exists, nothing to do. *)
      else inl e
  | inr endpoint =>
      match objects_get (λ r, Some r = ident) (rack_controllers d)
              RackController_DoesNotExist with
      | inl e =>
          if decide (e = RackController_DoesNotExist)
          then inr d                  (* No rack controller, nothing to do. *)
          else inl e
      | inr rack_controller =>
          inr {| tables := tables d;
                 rack_controllers := rack_controllers d;
                 rpc_connections :=
                   filter (λ c, ¬ (conn_endpoint c = ep_id endpoint
                                   ∧ conn_rack_controller c
                                     = rack_controller))
                     (rpc_connections d);
                 connection_seq := connection_seq d;
                 saved := saved d |}
      end
  end.

(** ** Vocabulary of the statements about connection records *)


(** The connection rows of a rack controller on an endpoint. *)
Definition connections_of (endpoint : RegionControllerProcessEndpoint)
    (rack_controller : string) (d : ConnDB) : list RegionRackRPCConnection :=
  filter (λ c, conn_endpoint c = ep_id endpoint
               ∧ conn_rack_controller c = rack_controller)
    (rpc_connections d).

(** [connection.save()] on the row with primary key [pk]. *)
Definition save_connection (pk : nat) (d : ConnDB) : ConnDB :=
  {| tables := tables d; rack_controllers := rack_controllers d;
     rpc_connections := rpc_connections d;
     connection_seq := connection_seq d; saved := saved d ++ [pk] |}.

Definition process0 : RegionControllerProcess :=
  {| proc_id := 3; proc_region := "r1"; proc_pid := 42;
     proc_created := 100; proc_updated := 1000 |}.

(** [str(IPAddress(s).ipv4())] on the addresses of the witnesses: the
    IPv4-mapped IPv6 address ::ffff:10.0.0.1 and the dotted quad 10.0.0.1
    both give 10.0.0.1.  Any other string stands here for an IPv6 address
    without an IPv4 form, such as 2001:db8::1, on which the conversion
    raises [AddrConversionError]. *)
Definition ipv4_0 (s : string) : option string :=
  if decide (s = "::ffff:10.0.0.1") then Some "10.0.0.1"
  else if decide (s = "10.0.0.1") then Some "10.0.0.1"
  else None.

(** The tables of [db0] after a tick that has advertised 10.0.0.1:5250:
    the one endpoint of process 3 has primary key 3. *)
Definition db0_advertised : DB :=
  Eval vm_compute in
    match update self0 host0 {[ ("10.0.0.1", 5250) ]} db0 with
    | inr (_, db') => db'
    | inl _ => db0
    end.

Definition d0 : ConnDB :=
  {| tables := db0_advertised; rack_controllers := ["rack1"; "rack2"];
     rpc_connections := [ {| conn_id := 0; conn_endpoint := 3;
                             conn_rack_controller := "rack2" |} ];
     connection_seq := 1; saved := [] |}.

Definition a0 : Address := {| host := "::ffff:10.0.0.1"; port := 5250 |}.

(** What [registerConnection] leaves in [host] when given [a0]. *)
Definition a0_ipv4 : Address := {| host := "10.0.0.1"; port := 5250 |}.

Definition d0_registered : ConnDB :=
  Eval vm_compute in
    match (registerConnection ipv4_0 process0 "rack1" a0 d0).2 with
    | inr d1 => d1
    | inl _ => d0
    end.

End Connections.

(** * Theorems: advertising *)

Module AdvertisingFacts.
Import Advertising.

Lemma tx_bind_inr {A B} (m : tx A) (k : A → tx B) db b db' :
  tx_bind m k db = inr (b, db') →
  ∃ a db1, m db = inr (a, db1) ∧ k a db1 = inr (b, db').
Proof.
  unfold tx_bind. destruct (m db) as [e|[a db1]]; [done|]. eauto.
Qed.

Lemma tx_read_inr {A} (f : DB → A) db a db' :
  tx_read f db = inr (a, db') → a = f db ∧ db' = db.
Proof. unfold tx_read. by intros [= <- <-]. Qed.

Lemma tx_write_inr (f : DB → DB) db u db' :
  tx_write f db = inr (u, db') → db' = f db.
Proof. unfold tx_write. by intros [= <-]. Qed.

Lemma tx_lift_inr {A} (r : exn + A) db a db' :
  tx_lift r db = inr (a, db') → r = inr a ∧ db' = db.
Proof. unfold tx_lift. destruct r; [done|]. by intros [= <- <-]. Qed.

Lemma tx_ret_inr {A} (x : A) db a db' :
  tx_ret x db = inr (a, db') → a = x ∧ db' = db.
Proof. unfold tx_ret. by intros [= <- <-]. Qed.

Lemma force_insert_inr p db u db' :
  force_insert p db = inr (u, db') →
  (∀ q, q ∈ processes db →
        proc_id q ≠ proc_id p
        ∧ ¬ (proc_region q = proc_region p ∧ proc_pid q = proc_pid p)) ∧
  db' = insert_process p db.
Proof.
  unfold force_insert, tx_bind, tx_read, tx_raise, tx_write.
  destruct (decide (Exists _ (processes db))) as [|Hno]; [done|].
  intros [= <-]. split; [|done].
  intros q Hq. rewrite Exists_exists in Hno.
  split; [intros Hid|intros Hkey]; apply Hno; exists q; tauto.
Qed.

Lemma force_insert_ok p db :
  (∀ q, q ∈ processes db →
        proc_id q ≠ proc_id p
        ∧ ¬ (proc_region q = proc_region p ∧ proc_pid q = proc_pid p)) →
  force_insert p db = inr (tt, insert_process p db).
Proof.
  intros Hfree. unfold force_insert, tx_bind, tx_read, tx_raise, tx_write.
  rewrite decide_False; [done|].
  rewrite Exists_exists. intros (q & Hq & Hclash).
  destruct (Hfree q Hq) as [Hid Hkey]. tauto.
Qed.

Ltac tx_inv :=
  repeat match goal with
  | H : force_insert _ _ = inr _ |- _ =>
      apply force_insert_inr in H as [? ->]
  | H : tx_bind _ _ _ = inr _ |- _ =>
      apply tx_bind_inr in H as (? & ? & ? & ?)
  | H : tx_read _ _ = inr _ |- _ => apply tx_read_inr in H as [-> ->]
  | H : tx_write _ _ = inr _ |- _ => apply tx_write_inr in H as ->
  | H : tx_lift _ _ = inr _ |- _ => apply tx_lift_inr in H as [? ->]
  | H : tx_ret _ _ = inr _ |- _ => apply tx_ret_inr in H as [-> ->]
  | H : tx_raise _ _ = inr _ |- _ => discriminate H
  end.

Lemma objects_get_inr {A} (P : A → Prop) `{∀ x, Decision (P x)} rows dne x :
  objects_get P rows dne = inr x → P x ∧ x ∈ rows.
Proof.
  unfold objects_get. destruct (filter P rows) as [|y [|z l]] eqn:E; try done.
  intros [= <-]. apply (list_elem_of_filter P). rewrite E. by left.
Qed.

Lemma keeps_for {A B} (f : DB → A) (l : list B) body :
  (∀ x, x ∈ l → keeps f (body x)) → keeps f (tx_for l body).
Proof.
  induction l as [|x l IH]; intros Hb db b db' H; simpl in H.
  - by tx_inv.
  - tx_inv. etrans; [eapply IH; [|done]|eapply Hb; [|done]].
    + intros y Hy. apply Hb. by right.
    + by left.
Qed.





Lemma advertise_endpoints_keeps {A} (f : DB → A) :
  (∀ e db, f (insert_endpoint e db) = f db) →
  ∀ process addresses prev,
    keeps f (advertise_endpoints process addresses prev).
Proof.
  intros Hf process addresses.
  induction addresses as [|[addr port] rest IH]; intros prev db b db' H;
    simpl in H.
  - by tx_inv.
  - tx_inv.
    destruct (filter _ (endpoints db)) as [|e [|e' l]]; tx_inv.
    + etrans; [by eapply IH|]. apply Hf.
    + case_decide; tx_inv. by eapply IH.
Qed.

Lemma objects_get_dne {A} (P : A → Prop) `{∀ x, Decision (P x)} rows dne :
  dne ≠ MultipleObjectsReturned →
  objects_get P rows dne = inl dne → ∀ x, x ∈ rows → ¬ P x.
Proof.
  unfold objects_get. intros Hne.
  destruct (filter P rows) as [|y [|z l]] eqn:E; try done.
  - intros _ x Hx HP. by eapply (filter_nil_not_elem_of P).
  - intros [= <-]. done.
Qed.







Lemma save_region_processes h r b db :
  processes (save_region h r b db) = processes db.
Proof. done. Qed.





(** ** When [update] succeeds *)

Lemma total_ret {A} (a : A) : total (tx_ret a).
Proof. intros db. by eexists _, _. Qed.

Lemma total_read {A} (f : DB → A) : total (tx_read f).
Proof. intros db. by eexists _, _. Qed.

Lemma total_write f : total (tx_write f).
Proof. intros db. by eexists _, _. Qed.

Lemma total_bind {A B} (m : tx A) (k : A → tx B) :
  total m → (∀ a, total (k a)) → total (tx_bind m k).
Proof.
  intros Hm Hk db. destruct (Hm db) as (a & db1 & E).
  destruct (Hk a db1) as (b & db2 & E2).
  exists b, db2. unfold tx_bind. by rewrite E.
Qed.

Lemma total_for {A} (l : list A) body :
  (∀ x, total (body x)) → total (tx_for l body).
Proof.
  intros Hb. induction l as [|x l IH]; simpl.
  - apply total_ret.
  - apply total_bind; [apply Hb|]. intros _. apply IH.
Qed.

Lemma total_mark_dead node : total (mark_dead node).
Proof.
  unfold mark_dead, create_services_for.
  apply total_bind; [apply total_write|]. intros _. apply total_write.
Qed.

Lemma tx_bind_ok {A B} (m : tx A) (k : A → tx B) db a db1 :
  m db = inr (a, db1) → tx_bind m k db = k a db1.
Proof. intros E. unfold tx_bind. by rewrite E. Qed.

Lemma filter_by_key {A K} `{EqDecision K} (f : A → K) (l : list A) k :
  NoDup (f <$> l) →
  filter (λ y, f y = k) l = []
  ∨ ∃ x, x ∈ l ∧ f x = k ∧ filter (λ y, f y = k) l = [x].
Proof.
  induction l as [|a l IH]; intros Hnd; [by left|].
  rewrite fmap_cons in Hnd. apply NoDup_cons in Hnd as [Hna Hnd].
  rewrite filter_cons. destruct (decide (f a = k)) as [Hk|Hk].
  - right. exists a. split; [by left|]. split; [done|]. f_equal.
    destruct (IH Hnd) as [->|(x & Hx & Hfx & _)]; [done|].
    exfalso. apply Hna. rewrite Hk, <- Hfx. by apply list_elem_of_fmap_2.
  - destruct (IH Hnd) as [->|(x & Hx & Hfx & ->)]; [by left|].
    right. exists x. split; [by right|done].
Qed.

Lemma objects_get_unique {A K} `{EqDecision K} (f : A → K) (l : list A)
    k dne x :
  NoDup (f <$> l) → x ∈ l → f x = k →
  ∃ y, objects_get (λ y, f y = k) l dne = inr y.
Proof.
  intros Hnd Hx Hk. unfold objects_get.
  destruct (filter_by_key f l k Hnd) as [E|(y & _ & _ & ->)].
  - exfalso. by eapply (filter_nil_not_elem_of (λ y, f y = k)).
  - by exists y.
Qed.

Lemma endpoints_ok_sublist db db' :
  endpoints_ok db → endpoints db' `sublist_of` endpoints db →
  endpoint_seq db' = endpoint_seq db → endpoints_ok db'.
Proof.
  intros [Hi Hk Hs] Hsub Hseq. split.
  - eapply sublist_NoDup; [exact Hi|]. by apply fmap_sublist.
  - eapply sublist_NoDup; [exact Hk|]. by apply fmap_sublist.
  - intros e He. rewrite Hseq. apply Hs. by eapply elem_of_sublist.
Qed.

Lemma reap_siblings_total h sibs db :
  ∃ db', tx_for sibs (reap h) db = inr (tt, db') ∧
         endpoints db' `sublist_of` endpoints db ∧
         endpoint_seq db' = endpoint_seq db.
Proof.
  revert db. induction sibs as [|s sibs IH]; intros db; simpl.
  - by exists db.
  - unfold reap at 1. destruct (is_pid_running h (proc_pid s)).
    + destruct (IH db) as (db' & E & ? & ?). exists db'.
      by rewrite (tx_bind_ok _ _ db tt db).
    + destruct (IH (delete_processes (λ p, proc_id p = proc_id s) db))
        as (db' & E & Hsub & Hseq).
      exists db'. rewrite (tx_bind_ok _ _ db tt _ eq_refl).
      split_and!; try done.
      etrans; [exact Hsub|]. simpl. apply sublist_filter.
Qed.

Lemma getRegionProcess_succeeds self h db :
  NoDup (proc_id <$> processes db) →
  NoDup (system_id <$> regions db) →
  ((∃ p, p ∈ processes db ∧ proc_id p = process_id self)
   ∨ ((∃ r, r ∈ regions db ∧ system_id r = maas_id h) ∧
      ∀ p, p ∈ processes db →
           ¬ (proc_region p = maas_id h ∧ proc_pid p = getpid h))) →
  ∃ process db1, getRegionProcess self h db = inr (process, db1) ∧
    proc_id process = process_id self ∧
    endpoints db1 = endpoints db ∧ endpoint_seq db1 = endpoint_seq db.
Proof.
  intros Hp Hr Hex. unfold getRegionProcess.
  rewrite (tx_bind_ok _ _ db (processes db) db eq_refl).
  unfold objects_get.
  destruct (filter_by_key proc_id (processes db) (process_id self) Hp)
    as [E|(p & Hin & Hid & E)]; rewrite E.
  - destruct Hex as [(p & Hin & Hid)|[(r & Hin & Hid) Hfree]].
    { exfalso.
      by eapply (filter_nil_not_elem_of (λ y, proc_id y = process_id self)). }
    destruct (objects_get_unique system_id (regions db) (maas_id h)
                RegionController_DoesNotExist r Hr Hin Hid) as (r' & Er).
    pose proof (objects_get_inr _ _ _ _ Er) as [Hsys _].
    unfold get_running_controller.
    rewrite (tx_bind_ok _ _ db r' db).
    2:{ rewrite (tx_bind_ok _ _ db (regions db) db eq_refl).
        unfold tx_lift. by rewrite Er. }
    rewrite (tx_bind_ok _ _ db tt
               (insert_process
                  (new_process h (process_id self) (system_id r')) db)).
    2:{ apply force_insert_ok. intros q Hq. simpl. split.
        - intros Hqid.
          by eapply (filter_nil_not_elem_of
                       (λ y, proc_id y = process_id self)).
        - rewrite Hsys. by apply Hfree. }
    by eexists _, _.
  - rewrite (tx_bind_ok _ _ db tt _ eq_refl). by eexists _, _.
Qed.

Lemma advertise_endpoints_succeeds process addresses prev db :
  NoDup addresses → endpoints_ok db →
  (∀ e, e ∈ endpoints db → ep_process e = process →
        (ep_address e, ep_port e) ∈ addresses → ep_id e ∈ prev) →
  ∃ ids db', advertise_endpoints process addresses prev db = inr (ids, db').
Proof.
  revert prev db.
  induction addresses as [|[addr port] rest IH]; intros prev db Hnd Hok Hprev.
  - by eexists _, _.
  - apply NoDup_cons in Hnd as [Hnew Hnd]. simpl.
    rewrite (tx_bind_ok _ _ db (endpoints db) db eq_refl).
    rewrite (list_filter_iff _
               (λ e, endpoint_key e = (process, addr, port))).
    2:{ intros e. unfold endpoint_key. split; [by intros (-> & -> & ->)|].
        by intros [= -> -> ->]. }
    destruct (filter_by_key endpoint_key (endpoints db) (process, addr, port)
                (ok_keys _ Hok)) as [E|(e & Hin & Hkey & E)]; rewrite E.
    + rewrite (tx_bind_ok _ _ db (endpoint_seq db) db eq_refl).
      rewrite (tx_bind_ok _ _ db tt _ eq_refl).
      apply IH; [done| |].
      * destruct Hok as [Hi Hk Hs]. split; simpl.
        -- rewrite fmap_app. apply NoDup_app. split_and!; [done| |].
           ++ intros i (e & -> & He)%list_elem_of_fmap Hi'.
              apply list_elem_of_singleton in Hi'. simpl in Hi'.
              apply Hs in He. lia.
           ++ apply NoDup_singleton.
        -- rewrite fmap_app. apply NoDup_app. split_and!; [done| |].
           ++ intros k (e & -> & He)%list_elem_of_fmap Hk'.
              apply list_elem_of_singleton in Hk'. simpl in Hk'.
              eapply (filter_nil_not_elem_of
                        (λ y, endpoint_key y = (process, addr, port)));
                done.
           ++ apply NoDup_singleton.
        -- intros e [He|He]%elem_of_app.
           ++ apply Hs in He. lia.
           ++ apply list_elem_of_singleton in He as ->. simpl. lia.
      * simpl. intros e [He|He]%elem_of_app Hp Ha.
        -- apply Hprev; [done|done|by right].
        -- apply list_elem_of_singleton in He as ->. simpl in Ha. done.
    + injection Hkey as Hp Ha Hpt.
      assert (ep_id e ∈ prev) as Hid.
      { apply Hprev; [done|done|]. rewrite Ha, Hpt. by left. }
      rewrite decide_True by done.
      apply IH; [done|done|].
      intros e' He' Hp' Ha'.
      apply elem_of_difference. split; [apply Hprev; [done|done|by right]|].
      intros Heq%elem_of_singleton.
      assert (e' = e) as ->.
      { destruct (list_elem_of_lookup_1 _ _ He') as (i & Hi).
        destruct (list_elem_of_lookup_1 _ _ Hin) as (j & Hj).
        assert (i = j) as ->; [|congruence].
        eapply (NoDup_lookup _ _ _ _ (ok_ids _ Hok)).
        - rewrite list_lookup_fmap, Hi. reflexivity.
        - rewrite list_lookup_fmap, Hj. simpl. by rewrite Heq. }
      apply Hnew. by rewrite <- Ha, <- Hpt.
Qed.

(** On a database that respects the keys of its tables and holds this
    process's region controller, and either the row of this process or,
    for it to be put back, the region controller of this host and no
    other row with this host's region and pid, [update] returns. *)
Lemma update_succeeds self h addresses db :
  endpoints_ok db →
  NoDup (system_id <$> regions db) →
  NoDup (proc_id <$> processes db) →
  (∃ r, r ∈ regions db ∧ system_id r = region_id self) →
  ((∃ p, p ∈ processes db ∧ proc_id p = process_id self)
   ∨ ((∃ r, r ∈ regions db ∧ system_id r = maas_id h) ∧
      ∀ p, p ∈ processes db →
           ¬ (proc_region p = maas_id h ∧ proc_pid p = getpid h))) →
  ∃ interval db', update self h addresses db = inr (interval, db').
Proof.
  intros Hok Hr Hp (r & Hin & Hid) Hown. unfold update.
  rewrite (tx_bind_ok _ _ db (regions db) db eq_refl).
  destruct (objects_get_unique system_id (regions db) (region_id self)
              RegionController_DoesNotExist r Hr Hin Hid) as (region_obj & Er).
  rewrite (tx_bind_ok _ _ db region_obj db) by (unfold tx_lift; by rewrite Er).
  rewrite (tx_bind_ok _ _ db tt _ eq_refl).
  set (dbA := save_region h region_obj _ db).
  assert (system_id <$> regions dbA = system_id <$> regions db) as Hsys.
  { unfold dbA. simpl. rewrite <- list_fmap_compose.
    apply list_fmap_ext. intros i x _. simpl. by case_decide. }
  destruct (getRegionProcess_succeeds self h dbA)
    as (process & db1 & E1 & Hpid & He1 & Hs1); [done|by rewrite Hsys|..].
  { destruct Hown as [?|[(r' & Hin' & Hid') Hfree]]; [by left|right].
    split; [|exact Hfree].
    assert (maas_id h ∈ system_id <$> regions dbA) as Hm.
    { rewrite Hsys, <- Hid'. by apply list_elem_of_fmap_2. }
    apply list_elem_of_fmap in Hm as (r2 & ? & ?). by exists r2. }
  rewrite (tx_bind_ok _ _ dbA process db1 E1).
  rewrite (tx_bind_ok _ _ db1 tt _ eq_refl).
  set (db2 := delete_processes _ db1).
  rewrite (tx_bind_ok _ _ db2 (processes db2) db2 eq_refl).
  match goal with |- context [tx_for ?sibs _] =>
    destruct (reap_siblings_total h sibs db2) as (db3 & E3 & Hsub3 & Hseq3)
  end.
  rewrite (tx_bind_ok _ _ db2 tt db3 E3).
  rewrite (tx_bind_ok _ _ db3 (endpoints db3) db3 eq_refl).
  assert (endpoints_ok db3) as Hok3.
  { apply (endpoints_ok_sublist db); [done| |].
    - etrans; [exact Hsub3|]. unfold db2. simpl. rewrite He1.
      apply sublist_filter.
    - rewrite Hseq3. unfold db2. simpl. by rewrite Hs1. }
  assert (∃ r4 db4,
    (if decide (size addresses = 0)
     then tx_ret (INTERVAL_NO_ENDPOINTS,
                  list_to_set (ep_id <$> filter
                    (λ e, ep_process e = proc_id process) (endpoints db3)))
     else
       ids <- advertise_endpoints (proc_id process) (elements addresses)
                (list_to_set (ep_id <$> filter
                   (λ e, ep_process e = proc_id process) (endpoints db3))) ;;
       tx_ret (INTERVAL_WITH_ENDPOINTS, ids)) db3 = inr (r4, db4))
    as (r4 & db4 & E4).
  { case_decide; [by eexists _, _|].
    destruct (advertise_endpoints_succeeds (proc_id process)
                (elements addresses)
                (list_to_set (ep_id <$> filter
                   (λ e, ep_process e = proc_id process) (endpoints db3)))
                db3) as (ids & db4 & E4); [apply NoDup_elements|done| |].
    - intros e He Hpe _. apply elem_of_list_to_set.
      apply list_elem_of_fmap_2. by apply list_elem_of_filter.
    - eexists _, _. by rewrite (tx_bind_ok _ _ db3 ids db4 E4). }
  rewrite (tx_bind_ok _ _ db3 r4 db4 E4).
  match goal with |- ∃ a b, ?m db4 = inr (a, b) =>
    assert (total m) as Ht; [|apply Ht] end.
  apply total_bind; [apply total_write|]. intros _.
  apply total_bind; [apply total_write|]. intros _.
  apply total_bind; [apply total_read|]. intros n.
  apply total_bind.
  { destruct (decide (0 < _)%Z); apply total_write. }
  intros _.
  apply total_bind; [apply total_read|]. intros rs.
  apply total_bind; [apply total_read|]. intros ps.
  apply total_bind; [|intros _; apply total_ret].
  apply total_for. intros o.
  destruct (decide (length _ = 0)); [apply total_mark_dead|apply total_ret].
Qed.



(** ** Witness data: two regions, one stale foreign row, one dead sibling *)

Lemma db0_endpoints_ok : endpoints_ok db0.
Proof.
  split.
  - compute_done.
  - compute_done.
  - intros e He.
    repeat (apply elem_of_cons in He as [->|He]; [simpl; lia|]).
    by apply elem_of_nil in He.
Defined.



(** The region exists and the row of (region, pid) does not: [demote]
    raises. *)
Lemma demote_absent_raises self h db region_obj rest :
  filter (λ r, system_id r = region_id self) (regions db)
    = region_obj :: rest →
  (∀ p, p ∈ processes db →
        ¬ (proc_region p = system_id region_obj ∧ proc_pid p = getpid h)) →
  demote self h db = inl RegionControllerProcess_DoesNotExist.
Proof.
  intros Hr Hp. unfold demote, tx_bind at 1, tx_read. rewrite Hr. simpl.
  unfold tx_bind at 1. unfold tx_bind at 1. unfold tx_read.
  unfold tx_bind, tx_lift, objects_get.
  replace (filter _ (processes db)) with (@nil RegionControllerProcess);
    [done|].
  symmetry. apply elem_of_nil_inv. intros p [? ?]%list_elem_of_filter.
  by eapply Hp.
Qed.

(** C9. The first [demote] of a promoted process deletes its row; a second
    [demote], with the region controller still there and no row left,
    raises [RegionControllerProcess.DoesNotExist]. *)
Theorem demote_twice_raises :
  ∃ db1, demote self0 host0 db0 = inr (tt, db1) ∧
         (∀ p, p ∈ processes db1 → proc_pid p ≠ getpid host0) ∧
         demote self0 host0 db1 = inl RegionControllerProcess_DoesNotExist.
Proof.
  eexists. split; [vm_compute; reflexivity|]. split.
  - intros p Hp.
    repeat (apply elem_of_cons in Hp as [->|Hp]; [by vm_compute|]).
    by apply elem_of_nil in Hp.
  - vm_compute. reflexivity.
Qed.

End AdvertisingFacts.

(** * Theorems: promotion *)

Module PromotionFacts.
Import Advertising Promotion.

Lemma tryPromote_failing loop_name failures rest :
  pauses (_tryPromote loop_name (failing failures ++ rest)).1
    = (backoff <$> failures) ++ pauses (_tryPromote loop_name rest).1 ∧
  (_tryPromote loop_name (failing failures ++ rest)).2
    = (_tryPromote loop_name rest).2.
Proof.
  induction failures as [|e failures [IH1 IH2]]; [done|].
  simpl. destruct (_tryPromote loop_name (failing failures ++ rest))
    as [effects o] eqn:E. simpl in IH1, IH2.
  destruct e; simpl; rewrite IH1, IH2; done.
Qed.

(** The service is stopped while its first attempt is in flight, and the
    attempt succeeds: nothing is cancelled, [_tryPromote] returns the
    advertising object and the advertising loop is started. *)
Lemma tryPromote_stop_in_flight_not_cancelled :
  ¬ cancelled_once_stopped "loop"
      [ {| running := true;
           attempt := inr {| region_id := "r1"; process_id := 3 |} |};
        {| running := false; attempt := inl CancelledError |} ].
Proof.
  intros H. destruct H as [H _].
  - eexists. split; [by right; left|reflexivity].
  - vm_compute in H. discriminate H.
Qed.

(** C8, amended. While the service runs and the attempts fail,
    [_tryPromote] stays in its loop whatever the number of failures,
    pausing 1 second after a [RegionController.DoesNotExist] and 5 seconds
    after any other error.  The loop looks for a stop only before an
    attempt: an attempt that succeeds ends it with the advertising object
    and [startService] starts the advertising loop, whatever happens to
    the service meanwhile or afterwards; and when the loop finds the
    service stopped before an attempt has succeeded it raises
    [CancelledError], upon which [startService] starts no advertising
    loop, logs nothing and fires without a failure. *)
Theorem tryPromote_retries_until_stopped loop_name failures :
  (let r := _tryPromote loop_name (failing failures) in
   r.2 = Retrying ∧ pauses r.1 = backoff <$> failures) ∧
  (∀ adv rest,
     let turns := failing failures
                    ++ {| running := true; attempt := inr adv |} :: rest in
     let r := _tryPromote loop_name turns in
     r.2 = Returned adv ∧ pauses r.1 = backoff <$> failures ∧
     startService loop_name turns
       = (Some (inr tt),
          {| advertising := Some (inr adv);
             advertiser_running := Some INTERVAL_NO_ENDPOINTS;
             logged := [] |})) ∧
  (∀ a rest,
     let turns := failing failures
                    ++ {| running := false; attempt := a |} :: rest in
     let r := _tryPromote loop_name turns in
     r.2 = Raised CancelledError ∧ pauses r.1 = backoff <$> failures ∧
     startService loop_name turns
       = (Some (inr tt),
          {| advertising := Some (inl CancelledError);
             advertiser_running := None; logged := [] |})).
Proof.
  split; [|split].
  - pose proof (tryPromote_failing loop_name failures []) as [H1 H2].
    rewrite app_nil_r in H1, H2. simpl in *.
    rewrite app_nil_r in H1. done.
  - intros adv rest.
    pose proof (tryPromote_failing loop_name failures
                  ({| running := true; attempt := inr adv |} :: rest))
      as [H1 H2].
    simpl in *. rewrite app_nil_r in H1. repeat split; try done.
    unfold startService. by rewrite H2.
  - intros a rest.
    pose proof (tryPromote_failing loop_name failures
                  ({| running := false; attempt := a |} :: rest))
      as [H1 H2].
    simpl in *. rewrite app_nil_r in H1. repeat split; try done.
    unfold startService. by rewrite H2.
Qed.


End PromotionFacts.

(** * Theorems: distributions *)

Module DistFacts.
Import Dist.

Lemma Pr_cons {A} (P : A → bool) p a (d : dist A) :
  Pr P ((p, a) :: d) = if P a then Qplus p (Pr P d) else Pr P d.
Proof.
  unfold Pr. cbn. by destruct (P a).
Qed.

Lemma Pr_app {A} (P : A → bool) (d1 d2 : dist A) :
  (Pr P (d1 ++ d2) == Pr P d1 + Pr P d2)%Q.
Proof.
  induction d1 as [|[p a] d1 IH]; simpl.
  - unfold Pr at 2. simpl. ring.
  - rewrite !Pr_cons. destruct (P a); [|done]. rewrite IH. ring.
Qed.

Lemma Pr_scale {A} (P : A → bool) p (d : dist A) :
  (Pr P ((λ qb, (Qmult p qb.1, qb.2)) <$> d) == p * Pr P d)%Q.
Proof.
  induction d as [|[q a] d IH]; simpl.
  - unfold Pr. simpl. ring.
  - rewrite !Pr_cons. simpl. destruct (P a); [|done].
    rewrite IH. ring.
Qed.

Lemma dbind_cons {A B} pa (d : dist A) (k : A → dist B) :
  dbind (pa :: d) k
    = ((λ qb, (Qmult pa.1 qb.1, qb.2)) <$> k pa.2) ++ dbind d k.
Proof. done. Qed.

Lemma Pr_dbind {A B} (P : B → bool) (d : dist A) (k : A → dist B) :
  (Pr P (dbind d k) == sumQ ((λ pa, pa.1 * Pr P (k pa.2)) <$> d))%Q.
Proof.
  induction d as [|pa d IH].
  - done.
  - rewrite dbind_cons, Pr_app, Pr_scale, IH. done.
Qed.

Lemma Pr_dret {A} (P : A → bool) a :
  (Pr P (dret a) == if P a then 1 else 0)%Q.
Proof. unfold dret. rewrite Pr_cons. destruct (P a); [|done]. unfold Pr. simpl. ring. Qed.

(** A continuation that does not draw. *)
Lemma Pr_dbind_det {A B} (P : B → bool) (d : dist A) (k : A → dist B)
    (f : A → B) :
  (∀ a, a ∈ support d → k a = dret (f a)) →
  (Pr P (dbind d k) == Pr (λ a, P (f a)) d)%Q.
Proof.
  induction d as [|[p a] d IH]; intros Hk.
  - done.
  - rewrite dbind_cons, Pr_app, Pr_scale, Pr_cons. simpl.
    rewrite IH.
    2:{ intros a' Ha'. apply Hk. unfold support. rewrite fmap_cons.
        by right. }
    rewrite Hk by (unfold support; rewrite fmap_cons; by left).
    rewrite Pr_dret. destruct (P (f a)); ring.
Qed.

Lemma Pr_ext {A} (P P' : A → bool) (d : dist A) :
  (∀ a, a ∈ support d → P a = P' a) → Pr P d = Pr P' d.
Proof.
  induction d as [|[p a] d IH]; intros HP; [done|].
  rewrite !Pr_cons. rewrite IH.
  2:{ intros a' Ha'. apply HP. unfold support. rewrite fmap_cons.
      by right. }
  rewrite HP; [done|]. unfold support. rewrite fmap_cons. by left.
Qed.

(** A uniform draw from a list without duplicates gives each element
    with probability one over the length. *)
Lemma Pr_constant_weight `{EqDecision A} (w : Q) (c : A) (l : list A) :
  NoDup l →
  (Pr (λ c', bool_decide (c' = c)) ((λ a, (w, a)) <$> l)
   == if decide (c ∈ l) then w else 0)%Q.
Proof.
  induction l as [|a l IH]; intros Hnd.
  - done.
  - apply NoDup_cons in Hnd as [Hna Hnd]. rewrite fmap_cons, Pr_cons.
    specialize (IH Hnd). destruct (decide (a = c)) as [->|Hne].
    + rewrite bool_decide_eq_true_2 by done. rewrite IH.
      rewrite (decide_False (P := c ∈ l)) by done.
      rewrite (decide_True (P := c ∈ c :: l)) by (by left). ring.
    + rewrite bool_decide_eq_false_2 by done. rewrite IH.
      destruct (decide (c ∈ l)).
      * by rewrite (decide_True (P := c ∈ a :: l)) by (by right).
      * rewrite (decide_False (P := c ∈ a :: l)); [done|].
        intros [->|?]%elem_of_cons; done.
Qed.

Lemma Pr_random_choice `{EqDecision A} (c : A) (l : list A) :
  NoDup l →
  (Pr (λ c', bool_decide (c' = c)) (random_choice l)
   == if decide (c ∈ l) then 1 # Pos.of_nat (length l) else 0)%Q.
Proof. apply Pr_constant_weight. Qed.

Lemma Pr_dbind_random_choice {A B} (P : B → bool) (l : list A)
    (k : A → dist B) :
  (Pr P (dbind (random_choice l) k)
   == (1 # Pos.of_nat (length l)) * sumQ ((λ a, Pr P (k a)) <$> l))%Q.
Proof.
  rewrite Pr_dbind. unfold random_choice.
  generalize (1 # Pos.of_nat (length l))%Q. intros w.
  induction l as [|a l IH].
  - unfold sumQ. simpl. ring.
  - rewrite !fmap_cons. unfold sumQ in *. rewrite !foldr_cons.
    rewrite IH. simpl. ring.
Qed.

End DistFacts.

(** * Theorems: the registry *)

Module RegistryFacts.
Import Dist Registry Runs DistFacts.
#[local] Set Warnings "-clear-no-such-hyp".

(** ** The dictionaries *)

Section defaultdict.
Context {A : Type} `{Countable A}.
Implicit Types (m : gmap identity (gset A)) (k j : identity) (x y : A).

Lemma getitem_touch m k j : getitem (touch k m) j = getitem m j.
Proof.
  unfold getitem, touch. destruct (m !! k) eqn:E; [done|].
  destruct (decide (k = j)) as [->|Hne].
  - by rewrite lookup_insert_eq, E.
  - by rewrite lookup_insert_ne.
Qed.

Lemma getitem_add m k x j :
  getitem (add k x m) j
    = if decide (k = j) then getitem m j ∪ {[x]} else getitem m j.
Proof.
  unfold add. case_decide as Hk; [subst|].
  - unfold getitem at 1. by rewrite lookup_insert_eq.
  - unfold getitem at 1 3. by rewrite lookup_insert_ne.
Qed.

Lemma getitem_discard m k x j :
  getitem (discard k x m) j
    = if decide (k = j) then getitem m j ∖ {[x]} else getitem m j.
Proof.
  unfold discard. case_decide as Hk; [subst|].
  - unfold getitem at 1. by rewrite lookup_insert_eq.
  - unfold getitem at 1 3. by rewrite lookup_insert_ne.
Qed.

Lemma getitem_alter_discard m k x j :
  getitem (alter (λ w, w ∖ {[x]}) k m) j
    = if decide (k = j) then getitem m j ∖ {[x]} else getitem m j.
Proof.
  unfold getitem. case_decide as Hk; [subst|].
  - rewrite lookup_alter_eq. destruct (m !! j); simpl; [done|].
    apply leibniz_equiv. by rewrite difference_disjoint by apply disjoint_empty_l.
  - by rewrite lookup_alter_ne.
Qed.

Lemma getitem_empty k : getitem (∅ : gmap identity (gset A)) k = ∅.
Proof. done. Qed.
End defaultdict.

(** ** Callback chains *)

Lemma run_callback_result cb r s :
  (run_callback cb r s).1 = (run_callback cb r init).1.
Proof. by destruct cb. Qed.

Lemma run_callbacks_result cbs r s :
  (run_callbacks cbs r s).1 = chain_result cbs r.
Proof.
  revert r s. induction cbs as [|cb cbs IH]; intros r s; [done|].
  simpl. destruct (run_callback cb r s) as [r' s'] eqn:E.
  rewrite IH. unfold chain_result. simpl.
  by rewrite <- (run_callback_result cb r s), E.
Qed.

Lemma foldl_discard_frame ids d s :
  let s' := foldl (λ s ident, with_waiters (discard ident d) s) s ids in
  connections s' = connections s ∧ events s' = events s ∧
  deferreds s' = deferreds s ∧ next_deferred s' = next_deferred s ∧
  clock s' = clock s ∧ delayed s' = delayed s ∧
  ∀ j, W s' j = if decide (j ∈ ids) then W s j ∖ {[d]} else W s j.
Proof.
  revert s. induction ids as [|i ids IH]; intros s; simpl.
  - repeat split; done.
  - pose proof (IH (with_waiters (discard i d) s)) as Hs. simpl in Hs.
    destruct Hs as (? & ? & ? & ? & ? & ? & HW).
    repeat split; try done. intros j. rewrite HW. unfold W. simpl.
    rewrite getitem_discard.
    destruct (decide (i = j)) as [->|Hij].
    + rewrite (decide_True (P := j ∈ j :: ids)) by (by left).
      case_decide; set_solver.
    + destruct (decide (j ∈ ids)).
      * by rewrite (decide_True (P := j ∈ i :: ids)) by (by right).
      * rewrite (decide_False (P := j ∈ i :: ids)); [done|].
        by intros [->|?]%elem_of_cons.
Qed.

Lemma run_callback_frame cb r s :
  let s' := (run_callback cb r s).2 in
  connections s' = connections s ∧ events s' = events s ∧
  deferreds s' = deferreds s ∧ next_deferred s' = next_deferred s ∧
  clock s' = clock s.
Proof.
  destruct cb; simpl; try done.
  destruct (foldl_discard_frame identifiers d s) as (?&?&?&?&?&?&?).
  done.
Qed.

Lemma run_callbacks_frame cbs r s :
  let s' := (run_callbacks cbs r s).2 in
  connections s' = connections s ∧ events s' = events s ∧
  deferreds s' = deferreds s ∧ next_deferred s' = next_deferred s ∧
  clock s' = clock s.
Proof.
  revert r s. induction cbs as [|cb cbs IH]; intros r s; [done|].
  simpl. destruct (run_callback cb r s) as [r' s'] eqn:E.
  destruct (IH r' s') as (-> & -> & -> & -> & ->).
  pose proof (run_callback_frame cb r s) as Hf. rewrite E in Hf. done.
Qed.

(** The chain of [d] takes [d] out of the waiter sets it covers and leaves
    the other members alone. *)
Lemma run_callbacks_waiters d cbs r s :
  Forall (owned d) cbs →
  ∀ j x, x ∈ W (run_callbacks cbs r s).2 j
         ↔ x ∈ W s j ∧ ¬ (x = d ∧ covers j d cbs).
Proof.
  revert r s. induction cbs as [|cb cbs IH]; intros r s Hown j x.
  - simpl. unfold covers. split; [|by intros [? _]].
    intros Hx. split; [done|]. intros [_ [Hc|(ids & Hc & _)]];
      by apply elem_of_nil in Hc.
  - apply Forall_cons in Hown as [Hcb Hown]. simpl.
    destruct (run_callback cb r s) as [r' s'] eqn:E.
    rewrite (IH r' s' Hown).
    assert (x ∈ W s' j ↔ x ∈ W s j
            ∧ ¬ (x = d ∧ (cb = callOut_discard j d
                          ∨ ∃ ids, cb = callOut_discard_all ids d ∧ j ∈ ids)))
      as ->.
    { destruct cb; simpl in Hcb, E; injection E as <- <-; subst.
      - unfold W. simpl. naive_solver.
      - unfold W. simpl. rewrite getitem_alter_discard.
        case_decide; [subst|]; set_solver.
      - destruct (foldl_discard_frame identifiers d s)
          as (_&_&_&_&_&_&HW). rewrite HW.
        case_decide; [|naive_solver]. set_solver.
      - unfold W. simpl. naive_solver.
      - unfold W. simpl. naive_solver. }
    unfold covers. split.
    + intros [[Hx Hn1] Hn2]. split; [done|].
      intros [-> [Hc|(ids & Hc & Hj)]].
      * apply elem_of_cons in Hc as [<-|Hc]; [naive_solver|].
        apply Hn2. split; [done|]. by left.
      * apply elem_of_cons in Hc as [<-|Hc]; [naive_solver|].
        apply Hn2. split; [done|]. right. eauto.
    + intros [Hx Hn]. split; [split; [done|]|].
      * intros [-> [->|(ids & -> & Hj)]]; apply Hn; split; try done.
        -- left. by left.
        -- right. exists ids. split; [by left|done].
      * intros [-> [Hc|(ids & Hc & Hj)]]; apply Hn; split; try done.
        -- left. by right.
        -- right. exists ids. split; [by right|done].
Qed.

(** The pending calls after the chain of [d]: those of [d] are gone when
    the chain holds [done d], and nothing else changes. *)
Lemma run_callbacks_delayed d cbs r s :
  Forall (owned d) cbs →
  delayed (run_callbacks cbs r s).2
    = if decide (done d ∈ cbs)
      then filter (λ call, call.2 ≠ d) (delayed s) else delayed s.
Proof.
  revert r s. induction cbs as [|cb cbs IH]; intros r s Hown.
  - done.
  - apply Forall_cons in Hown as [Hcb Hown].
    change (run_callbacks (cb :: cbs) r s)
      with (let '(r', s') := run_callback cb r s in run_callbacks cbs r' s').
    destruct (run_callback cb r s) as [r' s'] eqn:E.
    rewrite (IH r' s' Hown).
    assert (delayed s' = if decide (cb = done d)
                         then filter (λ call, call.2 ≠ d) (delayed s)
                         else delayed s) as ->.
    { destruct cb; simpl in Hcb, E; injection E as <- <-; subst.
      - by rewrite decide_True.
      - by rewrite decide_False.
      - rewrite decide_False by done.
        by destruct (foldl_discard_frame identifiers d s)
          as (_&_&_&_&_&->&_).
      - by rewrite decide_False.
      - by rewrite decide_False. }
    destruct (decide (cb = done d)) as [->|Hne].
    + rewrite (decide_True (P := done d ∈ done d :: cbs)) by (by left).
      case_decide; [|done].
      rewrite list_filter_filter. apply list_filter_iff. naive_solver.
    + destruct (decide (done d ∈ cbs)).
      * by rewrite (decide_True (P := done d ∈ cb :: cbs)) by (by right).
      * rewrite (decide_False (P := done d ∈ cb :: cbs)); [done|].
        intros [?|?]%elem_of_cons; done.
Qed.

(** ** Well-formed states and what the operations may do to a waiter *)

Lemma wf_init : wf init.
Proof.
  split.
  - intros j d Hd. unfold W, init in Hd. simpl in Hd.
    rewrite getitem_empty in Hd. set_solver.
  - intros d D Hd. simpl in Hd. by rewrite lookup_empty in Hd.
Qed.

Lemma wf_member_lt s j x : wf s → x ∈ W s j → x < next_deferred s.
Proof.
  intros Hwf Hx. destruct (wf_members _ Hwf j x Hx) as (D & HD & _).
  by apply (wf_heap _ Hwf) in HD as [? _].
Qed.

Lemma trans_refl L s : wf s → trans L s s.
Proof.
  intros Hwf. split; try done.
  - intros x D Hx Hc. by exists D.
  - intros x D Hx Hc. by left.
  - intros j x Hge Hx. apply (wf_member_lt _ _ _ Hwf) in Hx. lia.
Qed.

Lemma trans_trans L s s1 s2 :
  wf s → trans L s s1 → trans L s1 s2 → trans L s s2.
Proof.
  intros Hwf H1 H2. split.
  - apply H2.
  - etrans; [apply H1|apply H2].
  - etrans; [apply H1|apply H2].
  - intros j x Hx Hin. eapply (t_readd _ _ _ H1); [done|].
    eapply (t_readd _ _ _ H2); [|done].
    pose proof (t_next _ _ _ H1). lia.
  - intros x D Hx Hc.
    destruct (t_called _ _ _ H1 x D Hx Hc) as (D1 & Hx1 & Hc1 & Hr1).
    destruct (t_called _ _ _ H2 x D1 Hx1 Hc1) as (D2 & Hx2 & Hc2 & Hr2).
    exists D2. repeat split; try done. congruence.
  - intros x D Hx Hc.
    destruct (t_pending _ _ _ H1 x D Hx Hc)
      as [(Hh & Hw & Ht)|(r & [(D1 & Hx1 & Hc1 & Hr1) Hout] & Hr)].
    + rewrite <- Hh in Hx.
      destruct (t_pending _ _ _ H2 x D Hx Hc)
        as [(Hh2 & Hw2 & Ht2)|(r & Hres & Hr)].
      * left. repeat split.
        -- congruence.
        -- intros Hin. by apply Hw, Hw2.
        -- intros Hin. by apply Hw2, Hw.
        -- intros t Hin. by apply Ht2, Ht.
      * right. exists r. split; [done|].
        destruct Hr as [?|(j & c & ? & ? & ?)]; [by left|right].
        exists j, c. repeat split; try done. by apply Hw.
    + right. exists r. split; [|done]. split.
      * destruct (t_called _ _ _ H2 x D1 Hx1 Hc1) as (D2 & Hx2 & Hc2 & Hr2).
        exists D2. repeat split; try done. congruence.
      * intros j Hin. apply (Hout j).
        eapply (t_readd _ _ _ H2); [|done].
        by apply (wf_heap _ (t_wf _ _ _ H1)) in Hx1 as [? _].
  - intros j x Hge Hin.
    destruct (decide (next_deferred s1 ≤ x)) as [Hge1|Hlt1].
    { by apply (t_new _ _ _ H2 j). }
    assert (x ∈ W s1 j) as Hin1.
    { eapply (t_readd _ _ _ H2); [lia|done]. }
    destruct (t_new _ _ _ H1 j x Hge Hin1) as (t & Ht).
    destruct (wf_members _ (t_wf _ _ _ H1) j x Hin1) as (D1 & HD1 & Hc1 & _).
    destruct (t_pending _ _ _ H2 x D1 HD1 Hc1)
      as [(_ & _ & Hl)|(r & [_ Hout] & _)].
    + exists t. by apply Hl.
    + by destruct (Hout j).
Qed.

Lemma trans_mono (L L' : identity → conn → Prop) s s' :
  (∀ j c, L j c → L' j c) → trans L s s' → trans L' s s'.
Proof.
  intros HL H. split; try apply H.
  intros x D Hx Hc.
  destruct (t_pending _ _ _ H x D Hx Hc) as [?|(r & ? & Hr)]; [by left|].
  right. exists r. split; [done|].
  destruct Hr as [?|(j & c & ? & ? & ?)]; [by left|right].
  exists j, c. eauto.
Qed.

(** A transition that touches neither Deferreds nor waiter sets, and no
    pending call of a waiter that has not fired. *)
Lemma trans_same L s s' :
  wf s →
  waiters s' = waiters s → deferreds s' = deferreds s →
  (∀ t x D, deferreds s !! x = Some D → called D = false →
            (t, x) ∈ delayed s → (t, x) ∈ delayed s') →
  next_deferred s' = next_deferred s →
  clock s ≤ clock s' →
  trans L s s'.
Proof.
  intros [Hm Hh] Hw Hd Hl Hn Hc.
  assert (∀ j, W s' j = W s j) as HW by (intros j; unfold W; by rewrite Hw).
  split.
  - split.
    + intros j d. rewrite HW, Hd. apply Hm.
    + intros d D. rewrite Hd, Hn. apply Hh.
  - lia.
  - done.
  - intros j x _. by rewrite HW.
  - intros x D. rewrite Hd. intros Hx ?. by exists D.
  - intros x D Hx ?. left. split_and!.
    + by rewrite Hd.
    + intros j. by rewrite HW.
    + intros t. by eapply Hl.
  - intros j x Hge. rewrite HW. intros Hx.
    destruct (Hm j x Hx) as (D & HD & _). apply Hh in HD as [? _]. lia.
Qed.

(** ** Firing a waiter *)

Lemma startRunCallbacks_pending d r s D :
  wf s → deferreds s !! d = Some D → called D = false →
  ∃ s', _startRunCallbacks d r s = (None, s') ∧
    connections s' = connections s ∧ events s' = events s ∧
    next_deferred s' = next_deferred s ∧ clock s' = clock s ∧
    deferreds s'
      = <[d := fired_deferred (callbacks D) r (_suppressAlreadyCalled D)]>
          (deferreds s) ∧
    (∀ j x, x ∈ W s' j ↔ x ∈ W s j ∧ x ≠ d) ∧
    delayed s' = (if decide (done d ∈ callbacks D)
                  then filter (λ call, call.2 ≠ d) (delayed s)
                  else delayed s).
Proof.
  intros Hwf Hd Hc. unfold _startRunCallbacks. rewrite Hd, Hc.
  set (s1 := with_deferreds _ s).
  destruct (run_callbacks (callbacks D) r s1) as [r' s2] eqn:E.
  eexists. split; [reflexivity|].
  pose proof (run_callbacks_result (callbacks D) r s1) as Hr.
  pose proof (run_callbacks_frame (callbacks D) r s1) as Hf.
  destruct (wf_heap _ Hwf d D Hd) as [_ Hown].
  pose proof (run_callbacks_waiters d (callbacks D) r s1 Hown) as Hw.
  pose proof (run_callbacks_delayed d (callbacks D) r s1 Hown) as Hl.
  rewrite E in Hr, Hf, Hw, Hl. simpl in Hr, Hf, Hw, Hl.
  destruct Hf as (Hf1 & Hf2 & Hf3 & Hf4 & Hf5).
  simpl. split_and!; try done.
  - rewrite Hf3. simpl. rewrite insert_insert_eq. by rewrite Hr.
  - intros j x. change (x ∈ W s2 j ↔ x ∈ W s j ∧ x ≠ d). rewrite Hw.
    change (W s1 j) with (W s j). split.
    + intros [Hx Hn]. split; [done|]. intros ->. apply Hn.
      split; [done|].
      destruct (wf_members _ Hwf j d Hx) as (D' & HD' & _ & Hcov).
      congruence.
    + intros [Hx Hne]. split; [done|]. by intros [? _].
Qed.

Lemma trans_resolve L d r D s s' :
  wf s → deferreds s !! d = Some D → called D = false →
  (r = Failure CancelledError
   ∨ ∃ j c, r = Success (VConn c) ∧ d ∈ W s j ∧ L j c) →
  next_deferred s' = next_deferred s → clock s' = clock s →
  (∃ b, deferreds s' = <[d := fired_deferred (callbacks D) r b]>
                         (deferreds s)) →
  (∀ j x, x ∈ W s' j ↔ x ∈ W s j ∧ x ≠ d) →
  (∀ t x, x ≠ d → (t, x) ∈ delayed s → (t, x) ∈ delayed s') →
  trans L s s'.
Proof.
  intros Hwf Hd Hc Hr Hn Hk [b Hh] Hw Hl. split.
  - split.
    + intros j x [Hx Hne]%Hw.
      destruct (wf_members _ Hwf j x Hx) as (Dx & ? & ? & ?).
      exists Dx. rewrite Hh, lookup_insert_ne by done. done.
    + intros x Dx. rewrite Hh, Hn.
      destruct (decide (d = x)) as [<-|Hne].
      * rewrite lookup_insert_eq. intros [= <-]. split; [|by simpl].
        by apply (wf_heap _ Hwf) in Hd as [? _].
      * rewrite lookup_insert_ne by done. apply (wf_heap _ Hwf).
  - lia.
  - lia.
  - intros j x _ [? _]%Hw. done.
  - intros x Dx Hx Hcx. exists Dx. rewrite Hh.
    rewrite lookup_insert_ne by congruence. done.
  - intros x Dx Hx Hcx. destruct (decide (x = d)) as [->|Hne].
    + right. exists r. assert (Dx = D) as -> by congruence.
      split; [|done]. split.
      * eexists. rewrite Hh, lookup_insert_eq. done.
      * intros j [_ ?]%Hw. done.
    + left. repeat split.
      * rewrite Hh. by rewrite lookup_insert_ne.
      * by intros [? _]%Hw.
      * intros ?. by apply Hw.
      * intros t. by apply Hl.
  - intros j x Hge [Hx _]%Hw. apply (wf_member_lt _ _ _ Hwf) in Hx. lia.
Qed.

Lemma elem_of_filter_snd_ne (l : list (nat * dref)) d t x :
  x ≠ d → (t, x) ∈ l → (t, x) ∈ filter (λ call, call.2 ≠ d) l.
Proof. intros Hne Hin. by apply list_elem_of_filter. Qed.

Lemma cancel_pending d s D :
  wf s → deferreds s !! d = Some D → called D = false →
  let s' := Deferred_cancel d s in
  connections s' = connections s ∧ events s' = events s ∧
  next_deferred s' = next_deferred s ∧ clock s' = clock s ∧
  deferreds s'
    = <[d := fired_deferred (callbacks D) (Failure CancelledError) true]>
        (deferreds s) ∧
  (∀ j x, x ∈ W s' j ↔ x ∈ W s j ∧ x ≠ d) ∧
  delayed s' = (if decide (done d ∈ callbacks D)
                then filter (λ call, call.2 ≠ d) (delayed s)
                else delayed s).
Proof.
  intros Hwf Hd Hc. unfold Deferred_cancel. rewrite Hd, Hc.
  set (D0 := {| called := false; current_result := current_result D;
                callbacks := callbacks D; _suppressAlreadyCalled := true |}).
  set (s0 := with_deferreds (<[d := D0]>) s).
  assert (wf s0) as Hwf0.
  { split.
    - intros j x Hx. destruct (wf_members _ Hwf j x Hx) as (Dx & ? & ? & ?).
      destruct (decide (x = d)) as [->|Hne].
      + exists D0. simpl. rewrite lookup_insert_eq.
        assert (Dx = D) as -> by congruence. done.
      + exists Dx. simpl. by rewrite lookup_insert_ne.
    - intros x Dx. simpl. destruct (decide (d = x)) as [<-|Hne].
      + rewrite lookup_insert_eq. intros [= <-]. simpl.
        by apply (wf_heap _ Hwf) in Hd.
      + rewrite lookup_insert_ne by done. apply (wf_heap _ Hwf). }
  destruct (startRunCallbacks_pending d (Failure CancelledError) s0 D0 Hwf0)
    as (s' & E & ? & ? & ? & ? & Hh & ? & ?); [by simpl; rewrite lookup_insert_eq|done|].
  rewrite E. simpl. split_and!; try done.
  rewrite Hh. simpl. by rewrite insert_insert_eq.
Qed.

Lemma trans_cancel L d s : wf s → trans L s (Deferred_cancel d s).
Proof.
  intros Hwf. destruct (deferreds s !! d) as [D|] eqn:Hd.
  - destruct (called D) eqn:Hc.
    + unfold Deferred_cancel. rewrite Hd, Hc. by apply trans_refl.
    + destruct (cancel_pending d s D Hwf Hd Hc)
        as (? & ? & ? & ? & Hh & Hw & Hl).
      eapply trans_resolve; try done; [by left|by eexists|].
      intros t x Hne Hin. rewrite Hl. case_decide; [|done].
      by apply elem_of_filter_snd_ne.
  - unfold Deferred_cancel. rewrite Hd. by apply trans_refl.
Qed.

(** ** [_addConnectionFor] *)

Lemma callback_waiters_spec (L : identity → conn → Prop) j c ws s :
  wf s → NoDup ws → (∀ w, w ∈ ws → w ∈ W s j) → L j c →
  ∃ s', callback_waiters ws c s = (None, s') ∧ trans L s s' ∧
    connections s' = connections s ∧ events s' = events s ∧
    clock s' = clock s ∧ next_deferred s' = next_deferred s ∧
    (∀ j' x, x ∈ W s' j' ↔ x ∈ W s j' ∧ x ∉ ws) ∧
    (∀ w D, w ∈ ws → deferreds s !! w = Some D →
            resolved w (callbacks D) (Success (VConn c)) s').
Proof.
  revert s. induction ws as [|w ws IH]; intros s Hwf Hnd Hin HL.
  - exists s. split_and!; try done.
    + by apply trans_refl.
    + intros j' x. split; [|by intros [? _]]. intros ?. split; [done|].
      apply not_elem_of_nil.
    + intros w D Hw. by apply elem_of_nil in Hw.
  - apply NoDup_cons in Hnd as [Hnw Hnd].
    assert (w ∈ W s j) as Hwj by (apply Hin; by left).
    destruct (wf_members _ Hwf j w Hwj) as (D & HD & Hc & Hcov).
    destruct (startRunCallbacks_pending w (Success (VConn c)) s D Hwf HD Hc)
      as (s1 & E & Hc1 & He1 & Hn1 & Hk1 & Hh1 & Hw1 & Hl1).
    assert (trans L s s1) as Ht1.
    { eapply trans_resolve; try done.
      - right. by exists j, c.
      - by eexists.
      - intros t x Hne Hx. rewrite Hl1. case_decide; [|done].
        by apply elem_of_filter_snd_ne. }
    destruct (IH s1) as (s' & E' & Ht' & Hc' & He' & Hk' & Hn' & Hw' & Hr');
      try done.
    { apply Ht1. }
    { intros w' Hw'. apply Hw1. split; [apply Hin; by right|].
      intros ->. done. }
    exists s'. simpl. unfold Deferred_callback. rewrite E.
    split_and!; try congruence.
    + by eapply trans_trans.
    + intros j' x. rewrite Hw', Hw1. rewrite not_elem_of_cons. tauto.
    + intros w' D' [->|Hw'']%elem_of_cons HD'.
      * assert (D' = D) as -> by congruence. split.
        -- destruct (t_called _ _ _ Ht' w
                       (fired_deferred (callbacks D) (Success (VConn c))
                          (_suppressAlreadyCalled D)))
             as (D2 & ? & ? & ?); [by rewrite Hh1, lookup_insert_eq|done|].
           by exists D2.
        -- intros j' [Hin1 _]%Hw'. apply Hw1 in Hin1 as [_ ?]. done.
      * apply Hr'; [done|]. rewrite Hh1, lookup_insert_ne; [done|].
        intros ->. done.
Qed.

Lemma addConnectionFor_spec i c s :
  wf s →
  ∃ s', _addConnectionFor i c s = (None, s') ∧
    trans (λ j c', j = i ∧ c' = c) s s' ∧
    connections s' = add i c (connections s) ∧
    events s' = events s ++ [connected i] ∧
    clock s' = clock s ∧ next_deferred s' = next_deferred s ∧
    (∀ j x, x ∈ W s' j ↔ x ∈ W s j ∧ x ∉ W s i) ∧
    (∀ w D, w ∈ W s i → deferreds s !! w = Some D →
            resolved w (callbacks D) (Success (VConn c)) s').
Proof.
  intros Hwf. unfold _addConnectionFor.
  set (s0 := with_waiters (touch i) (with_connections (add i c) s)).
  assert (∀ j, W s0 j = W s j) as HW0.
  { intros j. unfold W. simpl. apply getitem_touch. }
  assert (trans (λ j c', j = i ∧ c' = c) s s0 ∧ wf s0) as [Ht0 Hwf0].
  { assert (wf s0) as Hwf0.
    { split.
      - intros j d. rewrite HW0. apply (wf_members _ Hwf).
      - apply (wf_heap _ Hwf). }
    split; [|done]. split; try done.
    - intros j x _. by rewrite HW0.
    - intros x D ? ?. by exists D.
    - intros x D ? ?. left. split_and!; try done. intros j. by rewrite HW0.
    - intros j x Hge. rewrite HW0. intros Hx.
      apply (wf_member_lt _ _ _ Hwf) in Hx. simpl in Hge. lia. }
  destruct (callback_waiters_spec (λ j c', j = i ∧ c' = c) i c
              (elements (getitem (waiters s0) i)) s0)
    as (s' & E & Ht' & Hc' & He' & Hk' & Hn' & Hw' & Hr'); try done.
  { apply NoDup_elements. }
  { intros w. rewrite elem_of_elements. done. }
  rewrite E. eexists. split; [reflexivity|]. simpl.
  split_and!; try done.
  - eapply trans_trans; [done|done|].
    eapply trans_trans; [done|done|].
    apply trans_same; try done. apply Ht'.
  - by rewrite He'.
  - intros j x. change (x ∈ W s' j ↔ x ∈ W s j ∧ x ∉ W s i).
    rewrite Hw', HW0. rewrite elem_of_elements.
    change (getitem (waiters s0) i) with (W s0 i). by rewrite HW0.
  - intros w D Hw HD.
    destruct (Hr' w D) as [(D' & ? & ? & ?) Hout]; try done.
    { rewrite elem_of_elements. change (w ∈ W s0 i). by rewrite HW0. }
    split; [by exists D'|]. intros j. apply Hout.
Qed.

(** ** Distributions *)

Lemma support_dret {A} (a : A) : support (dret a) = [a].
Proof. done. Qed.

Lemma elem_of_support_dbind {A B} (d : dist A) (k : A → dist B) b :
  b ∈ support (dbind d k) ↔ ∃ a, a ∈ support d ∧ b ∈ support (k a).
Proof.
  unfold support, dbind. rewrite list_elem_of_fmap. split.
  - intros (qb & -> & Hin).
    apply list_elem_of_bind in Hin as (pa & Hin & Ha).
    apply list_elem_of_fmap in Hin as (qb' & -> & Hin).
    exists pa.2. split; apply list_elem_of_fmap.
    + by exists pa.
    + by exists qb'.
  - intros (a & Ha & Hb).
    apply list_elem_of_fmap in Ha as (pa & -> & Ha).
    apply list_elem_of_fmap in Hb as (qb & -> & Hb).
    exists (Qmult pa.1 qb.1, qb.2). split; [done|].
    apply list_elem_of_bind. exists pa. split; [|done].
    apply list_elem_of_fmap. by exists qb.
Qed.

Ltac dret_inv H :=
  try rewrite support_dret in H; cbn [support dret fmap list_fmap snd] in H;
  apply list_elem_of_singleton in H.

Lemma support_random_choice {A} (l : list A) : support (random_choice l) = l.
Proof.
  unfold support, random_choice. rewrite <- list_fmap_compose.
  by rewrite list_fmap_id.
Qed.

(** ** Making a waiter *)

Lemma elem_of_callLater call' call l :
  call' ∈ callLater call l ↔ call' = call ∨ call' ∈ l.
Proof.
  induction l as [|c l IH]; simpl.
  - rewrite list_elem_of_singleton. set_solver.
  - case_decide.
    + by rewrite elem_of_cons.
    + rewrite !elem_of_cons, IH. tauto.
Qed.

Lemma trans_alloc L s s' D :
  wf s →
  let d := next_deferred s in
  next_deferred s' = S d → clock s' = clock s →
  deferreds s' = <[d := D]> (deferreds s) →
  called D = false → Forall (owned d) (callbacks D) →
  (∀ j x, x ∈ W s' j ↔ x ∈ W s j ∨ (x = d ∧ covers j d (callbacks D))) →
  (∀ call, call ∈ delayed s → call ∈ delayed s') →
  (∃ t, (t, d) ∈ delayed s') →
  trans L s s'.
Proof.
  intros Hwf d Hn Hk Hh Hc Hown Hw Hl Htimer.
  assert (deferreds s !! d = None) as Hfresh.
  { destruct (deferreds s !! d) as [D'|] eqn:E; [|done].
    apply (wf_heap _ Hwf) in E as [? _]. unfold d in *. lia. }
  assert (∀ x Dx, deferreds s !! x = Some Dx → deferreds s' !! x = Some Dx)
    as Hkeep.
  { intros x Dx Hx. rewrite Hh, lookup_insert_ne; [done|]. congruence. }
  split.
  - split.
    + intros j x [Hx|[-> Hcov]]%Hw.
      * destruct (wf_members _ Hwf j x Hx) as (Dx & ? & ? & ?).
        exists Dx. split_and!; try done. by apply Hkeep.
      * exists D. by rewrite Hh, lookup_insert_eq.
    + intros x Dx. rewrite Hh, Hn.
      destruct (decide (d = x)) as [<-|Hne].
      * rewrite lookup_insert_eq. intros [= <-]. split; [lia|done].
      * rewrite lookup_insert_ne by done. intros Hx.
        apply (wf_heap _ Hwf) in Hx as [? ?]. split; [lia|done].
  - lia.
  - lia.
  - intros j x Hx [?|[-> _]]%Hw; [done|]. unfold d in Hx. lia.
  - intros x Dx Hx ?. exists Dx. split_and!; try done. by apply Hkeep.
  - intros x Dx Hx ?. left. split_and!.
    + rewrite Hx. by apply Hkeep.
    + intros j. rewrite Hw. split; [|by left].
      intros [?|[-> _]]; [done|]. congruence.
    + intros t. apply Hl.
  - intros j x Hge [Hx|[-> _]]%Hw; [|done].
    apply (wf_member_lt _ _ _ Hwf) in Hx. lia.
Qed.

Lemma elements_getitem_empty (m : gmap identity (gset conn)) i :
  getitem m i = ∅ → elements (getitem (touch i m) i) = [].
Proof. intros H. rewrite getitem_touch, H. apply elements_empty. Qed.

Lemma getClientFor_pending i timeout s :
  C s i = ∅ →
  let d := next_deferred s in
  ∃ s', getClientFor i timeout s = dret (Pending d, s') ∧
    connections s' = touch i (connections s) ∧ events s' = events s ∧
    clock s' = clock s ∧ next_deferred s' = S d ∧
    deferreds s' = <[d := get_waiter i d]> (deferreds s) ∧
    (∀ j, W s' j = if decide (i = j) then W s j ∪ {[d]} else W s j) ∧
    delayed s' = callLater (clock s + timeout, d) (delayed s).
Proof.
  intros HC d. unfold getClientFor, _getConnectionFor.
  cbn [connections with_connections].
  rewrite elements_getitem_empty by done. cbn [length].
  rewrite decide_True by done.
  unfold deferWithTimeout. cbn -[touch add].
  unfold Deferred_addCallbacks at 2. cbn -[touch add].
  rewrite lookup_insert_eq. cbn -[touch add].
  unfold Deferred_addCallbacks. cbn -[touch add].
  rewrite lookup_insert_eq. cbn -[touch add].
  eexists. split; [reflexivity|].
  split_and!; try done.
  - cbn. by rewrite !insert_insert_eq.
  - intros j. unfold W. cbn -[touch add].
    by rewrite getitem_add, getitem_touch.
Qed.

Lemma covers_get_waiter i d j :
  covers j d (callbacks (get_waiter i d)) ↔ j = i.
Proof.
  unfold covers. simpl. split.
  - intros [Hin|(ids & Hin & _)].
    + repeat (apply elem_of_cons in Hin as [Hin|Hin]; [by simplify_eq|]).
      by apply elem_of_nil in Hin.
    + repeat (apply elem_of_cons in Hin as [Hin|Hin]; [by simplify_eq|]).
      by apply elem_of_nil in Hin.
  - intros ->. left. right. by left.
Qed.

Lemma trans_getClientFor_pending L i timeout s s' :
  wf s → C s i = ∅ →
  (Pending (next_deferred s), s') ∈ support (getClientFor i timeout s) →
  trans L s s'.
Proof.
  intros Hwf HC Hin.
  destruct (getClientFor_pending i timeout s HC)
    as (s1 & E & ? & ? & ? & ? & ? & HW & Hl).
  rewrite E in Hin. dret_inv Hin.
  injection Hin as <-.
  eapply (trans_alloc L s s' (get_waiter i (next_deferred s))); try done.
  - simpl. repeat constructor.
  - intros j x. rewrite HW, covers_get_waiter.
    case_decide; set_solver.
  - intros call ?. rewrite Hl. apply elem_of_callLater. by right.
  - eexists. rewrite Hl. apply elem_of_callLater. by left.
Qed.

Lemma with_connections_touch_id s i :
  is_Some (connections s !! i) → with_connections (touch i) s = s.
Proof.
  intros [X HX]. destruct s. unfold with_connections, touch. simpl in *.
  by rewrite HX.
Qed.

Lemma getitem_nonempty {A} `{Countable A} (m : gmap identity (gset A)) i :
  getitem m i ≠ ∅ → is_Some (m !! i).
Proof. unfold getitem. destruct (m !! i); [by eexists|done]. Qed.

(** With a connection to hand, [getClientFor] changes nothing and hands
    back a client for one of the identity's connections. *)
Lemma getClientFor_immediate i timeout s h s' :
  C s i ≠ ∅ →
  (h, s') ∈ support (getClientFor i timeout s) →
  s' = s ∧ ∃ c, c ∈ C s i ∧ h = Fired (Success (VClient (VConn c))).
Proof.
  intros HC Hin. unfold getClientFor, _getConnectionFor in Hin.
  cbn [connections with_connections] in Hin.
  rewrite getitem_touch in Hin. fold (C s i) in Hin.
  rewrite decide_False in Hin.
  2:{ intros Hl. apply HC. apply leibniz_equiv, elements_empty_inv.
      by apply nil_length_inv. }
  apply elem_of_support_dbind in Hin as ([h0 s0] & Hin0 & Hin).
  apply elem_of_support_dbind in Hin0 as (c & Hc & Hin0).
  rewrite support_random_choice in Hc. apply elem_of_elements in Hc.
  dret_inv Hin0.
  injection Hin0 as -> ->. cbn in Hin.
  apply list_elem_of_singleton in Hin.
  injection Hin as -> ->. split; [|by exists c].
  apply with_connections_touch_id. by apply getitem_nonempty.
Qed.

Lemma trans_getClientFor L i timeout s h s' :
  wf s → (h, s') ∈ support (getClientFor i timeout s) → trans L s s'.
Proof.
  intros Hwf Hin. destruct (decide (C s i = ∅)) as [HC|HC].
  - destruct (getClientFor_pending i timeout s HC) as (s1 & E & _).
    pose proof Hin as Hin'.
    rewrite E in Hin'. dret_inv Hin'.
    injection Hin' as -> ->. by eapply trans_getClientFor_pending.
  - apply getClientFor_immediate in Hin as [-> _]; [|done].
    by apply trans_refl.
Qed.

(** ** [_getConnectionFromIdentifiers] *)

Lemma matched_connections_support ids s ms :
  ms ∈ support (matched_connections ids s) →
  waiters ms.2 = waiters s ∧ deferreds ms.2 = deferreds s ∧
  delayed ms.2 = delayed s ∧ next_deferred ms.2 = next_deferred s ∧
  clock ms.2 = clock s ∧ events ms.2 = events s.
Proof.
  revert s ms. induction ids as [|i ids IH]; intros s ms Hin; simpl in Hin.
  - dret_inv Hin.
    by subst.
  - case_decide.
    + apply elem_of_support_dbind in Hin as (c & _ & Hin).
      apply elem_of_support_dbind in Hin as (ms' & Hin' & Hin).
      dret_inv Hin.
      subst. simpl. by apply IH in Hin'.
    + by apply IH in Hin.
Qed.

Lemma foldl_add_waiters ids d s :
  let s' := foldl (λ s ident,
              with_waiters (add ident d) (with_waiters (touch ident) s))
              s ids in
  connections s' = connections s ∧ events s' = events s ∧
  deferreds s' = deferreds s ∧ next_deferred s' = next_deferred s ∧
  clock s' = clock s ∧ delayed s' = delayed s ∧
  ∀ j, W s' j = if decide (j ∈ ids) then W s j ∪ {[d]} else W s j.
Proof.
  revert s. induction ids as [|i ids IH]; intros s; simpl.
  - split_and!; done.
  - pose proof (IH (with_waiters (add i d) (with_waiters (touch i) s)))
      as Hs. simpl in Hs.
    destruct Hs as (? & ? & ? & ? & ? & ? & HW).
    split_and!; try done. intros j. rewrite HW. unfold W. simpl.
    rewrite getitem_add, getitem_touch.
    destruct (decide (i = j)) as [->|Hij].
    + rewrite (decide_True (P := j ∈ j :: ids)) by (by left).
      case_decide; set_solver.
    + destruct (decide (j ∈ ids)).
      * by rewrite (decide_True (P := j ∈ i :: ids)) by (by right).
      * rewrite (decide_False (P := j ∈ i :: ids)); [done|].
        by intros [->|?]%elem_of_cons.
Qed.

Lemma covers_getany_waiter ids d j :
  covers j d (callbacks (getany_waiter ids d)) ↔ j ∈ ids.
Proof.
  unfold covers. simpl. split.
  - intros [Hin|(ids' & Hin & ?)].
    + repeat (apply elem_of_cons in Hin as [Hin|Hin]; [by simplify_eq|]).
      by apply elem_of_nil in Hin.
    + repeat (apply elem_of_cons in Hin as [Hin|Hin]; [by simplify_eq|]).
      by apply elem_of_nil in Hin.
  - intros Hj. right. exists ids. split; [|done]. right. by left.
Qed.

Lemma trans_getConnectionFromIdentifiers L ids timeout s h s' :
  wf s →
  (h, s') ∈ support (_getConnectionFromIdentifiers ids timeout s) →
  trans L s s'.
Proof.
  intros Hwf Hin. unfold _getConnectionFromIdentifiers in Hin.
  apply elem_of_support_dbind in Hin as ([matched s1] & Hms & Hin).
  apply matched_connections_support in Hms as (Hw1 & Hd1 & Hl1 & Hn1 & Hk1 & _).
  simpl in *.
  assert (trans L s s1) as Ht1.
  { apply trans_same; try done.
    - intros t x D _ _. by rewrite Hl1.
    - lia. }
  case_decide.
  - dret_inv Hin.
    by injection Hin as -> ->.
  - eapply trans_trans; [done|done|].
    unfold deferWithTimeout in Hin.
    unfold Deferred_addCallbacks at 2 in Hin. cbn in Hin.
    rewrite lookup_insert_eq in Hin. cbn in Hin.
    unfold Deferred_addCallbacks in Hin. cbn in Hin.
    rewrite lookup_insert_eq in Hin. cbn in Hin.
    dret_inv Hin. injection Hin as -> ->.
    match goal with |- trans _ _ (foldl _ ?s0 _) =>
      destruct (foldl_add_waiters ids (next_deferred s1) s0)
        as (_ & _ & Hh & Hn & Hk & Hl & HW) end.
    eapply (trans_alloc L s1 _ (getany_waiter ids (next_deferred s1))).
    + apply Ht1.
    + by rewrite Hn.
    + by rewrite Hk.
    + rewrite Hh. cbn. by rewrite !insert_insert_eq.
    + done.
    + simpl. repeat constructor.
    + intros j x. rewrite HW, covers_getany_waiter.
      change (W (with_deferreds _ _) j) with (W s1 j).
      case_decide; set_solver.
    + intros call ?. rewrite Hl. simpl. apply elem_of_callLater. by right.
    + eexists. rewrite Hl. simpl. apply elem_of_callLater. by left.
Qed.

(** ** The reactor *)

Lemma wf_with_delayed f s : wf s → wf (with_delayed f s).
Proof. intros [Hm Hh]. by split. Qed.

Lemma elem_of_delete_ne {A} (l : list A) i y z :
  l !! i = Some z → y ≠ z → y ∈ l → y ∈ delete i l.
Proof.
  intros Hi Hne Hy. rewrite delete_take_drop.
  rewrite <- (take_drop_middle l i z Hi) in Hy.
  rewrite elem_of_app, elem_of_cons in Hy. rewrite elem_of_app. tauto.
Qed.

Lemma trans_timer L i t d s :
  wf s → delayed s !! i = Some (t, d) →
  let s' := Deferred_cancel d (with_delayed (delete i) s) in
  trans L s s' ∧ clock s' = clock s ∧
  length (delayed s') < length (delayed s).
Proof.
  intros Hwf Hi. set (s0 := with_delayed (delete i) s).
  assert (wf s0) as Hwf0 by by apply wf_with_delayed.
  assert (length (delayed s0) < length (delayed s)) as Hlen.
  { simpl. rewrite length_delete by by eexists.
    apply lookup_lt_Some in Hi. lia. }
  destruct (deferreds s !! d) as [D|] eqn:Hd.
  - destruct (called D) eqn:Hc.
    + unfold Deferred_cancel. change (deferreds s0) with (deferreds s).
      rewrite Hd, Hc. split_and!; try done.
      apply trans_same; try done.
      intros t' x Dx Hx Hcx Hin. simpl. eapply elem_of_delete_ne; try done.
      intros [= -> ->]. congruence.
    + destruct (cancel_pending d s0 D Hwf0 Hd Hc)
        as (? & ? & ? & ? & Hh & Hw & Hl).
      split_and!; try done.
      * eapply trans_resolve; try done; [by left|by eexists|].
        intros t' x Hne Hin. rewrite Hl.
        assert ((t', x) ∈ delayed s0) as Hin0.
        { simpl. eapply elem_of_delete_ne; try done. congruence. }
        case_decide; [|done]. by apply elem_of_filter_snd_ne.
      * rewrite Hl. case_decide; [|done].
        eapply Nat.le_lt_trans; [apply length_filter|done].
  - unfold Deferred_cancel. change (deferreds s0) with (deferreds s).
    rewrite Hd. split_and!; try done.
    apply trans_same; try done.
    intros t' x Dx Hx Hcx Hin. simpl. eapply elem_of_delete_ne; try done.
    intros [= -> ->]. congruence.
Qed.

Lemma runUntilCurrent_spec L fuel s :
  wf s → length (delayed s) ≤ fuel →
  let s' := runUntilCurrent fuel s in
  trans L s s' ∧ clock s' = clock s ∧
  (∀ call, call ∈ delayed s' → clock s < call.1).
Proof.
  revert s. induction fuel as [|fuel IH]; intros s Hwf Hlen; simpl.
  - split_and!; [by apply trans_refl|done|].
    destruct (delayed s); [|simpl in Hlen; lia].
    intros call Hin. by apply elem_of_nil in Hin.
  - destruct (list_find _ (delayed s)) as [[i [t d]]|] eqn:E.
    + apply list_find_Some in E as (Hi & Hdue & _).
      destruct (trans_timer L i t d s Hwf Hi) as (Ht & Hk & Hl).
      destruct (IH (Deferred_cancel d (with_delayed (delete i) s)))
        as (Ht' & Hk' & Hnone); [apply Ht|lia|].
      split_and!.
      * by eapply trans_trans.
      * congruence.
      * intros call Hin. rewrite <- Hk. by apply Hnone.
    + split_and!; [by apply trans_refl|done|].
      intros call Hin. apply list_find_None in E.
      rewrite Forall_forall in E. apply E in Hin. simpl in Hin. lia.
Qed.

Lemma advance_spec L seconds s :
  wf s →
  let s' := advance seconds s in
  trans L s s' ∧ clock s' = clock s + seconds ∧
  (∀ call, call ∈ delayed s' → clock s + seconds < call.1).
Proof.
  intros Hwf. unfold advance.
  set (s0 := {| connections := connections s; waiters := waiters s;
                events := events s; deferreds := deferreds s;
                next_deferred := next_deferred s;
                clock := clock s + seconds; delayed := delayed s |}).
  assert (trans L s s0) as Ht0.
  { apply trans_same; try done. simpl. lia. }
  destruct (runUntilCurrent_spec L (length (delayed s0)) s0)
    as (Ht & Hk & Hnone); [apply Ht0|done|].
  split_and!; try done. by eapply trans_trans.
Qed.

Lemma trans_foldl {A} L (f : State → A → State) l s :
  (∀ s a, wf s → trans L s (f s a)) → wf s → trans L s (foldl f s l).
Proof.
  intros Hf. revert s. induction l as [|a l IH]; intros s Hwf; simpl.
  - by apply trans_refl.
  - eapply trans_trans; [done|by apply Hf|]. apply IH. by apply Hf.
Qed.

Lemma trans_cancel_waiters L s : wf s → trans L s (cancel_waiters s).
Proof.
  intros Hwf. unfold cancel_waiters. apply trans_foldl; [|done].
  intros s1 ident Hwf1. apply trans_foldl; [|done].
  intros s2 w Hwf2. by apply trans_cancel.
Qed.

Lemma trans_removeConnectionFor L i c s :
  wf s → trans L s (_removeConnectionFor i c s).
Proof. intros Hwf. by apply trans_same. Qed.

(** ** Runs *)

Lemma step_trans o s s' :
  wf s → s' ∈ outcomes o s → trans (label o) s s'.
Proof.
  intros Hwf Hin. destruct o as [i t|ids t|i c|i c|dt|d|]; simpl in Hin.
  - apply list_elem_of_fmap in Hin as ([h s1] & -> & Hin).
    by eapply trans_getClientFor.
  - apply list_elem_of_fmap in Hin as ([h s1] & -> & Hin).
    by eapply trans_getConnectionFromIdentifiers.
  - apply list_elem_of_singleton in Hin as ->.
    destruct (addConnectionFor_spec i c s Hwf)
      as (s' & E & Ht & _). by rewrite E.
  - apply list_elem_of_singleton in Hin as ->.
    by apply trans_removeConnectionFor.
  - apply list_elem_of_singleton in Hin as ->.
    by apply advance_spec.
  - apply list_elem_of_singleton in Hin as ->. by apply trans_cancel.
  - apply list_elem_of_singleton in Hin as ->. by apply trans_cancel_waiters.
Qed.

Lemma final_cons s o s' run : final s ((o, s') :: run) = final s' run.
Proof.
  unfold final. rewrite fmap_cons, last_cons. simpl.
  by destruct (last run.*2).
Qed.

Lemma execution_wf s run : wf s → execution s run → wf (final s run).
Proof.
  revert s. induction run as [|[o s'] run IH]; intros s Hwf Hex; [done|].
  destruct Hex as [Hin Hex]. rewrite final_cons.
  apply IH; [|done]. by apply (step_trans o s s' Hwf Hin).
Qed.

(** ** Waiters leave their sets exactly once *)

Lemma execution_states_wf s run s' :
  wf s → execution s run → s' ∈ s :: run.*2 → wf s'.
Proof.
  revert s. induction run as [|[o s1] run IH]; intros s Hwf Hex Hin.
  - apply list_elem_of_singleton in Hin. by subst.
  - destruct Hex as [Hs1 Hex].
    apply elem_of_cons in Hin as [->|Hin]; [done|].
    apply (IH s1); try done. by apply (step_trans o s s1 Hwf Hs1).
Qed.

Lemma stays_out d j s run :
  wf s → execution s run → d < next_deferred s → d ∉ W s j →
  removals d j s run = 0 ∧ ∀ s', s' ∈ run.*2 → d ∉ W s' j.
Proof.
  revert s. induction run as [|[o s1] run IH]; intros s Hwf Hex Hd Hout.
  - split; [done|]. intros s' Hin. by apply elem_of_nil in Hin.
  - destruct Hex as [Hs1 Hex].
    pose proof (step_trans o s s1 Hwf Hs1) as Ht.
    assert (d ∉ W s1 j) as Hout1.
    { intros Hin. apply Hout. by eapply (t_readd _ _ _ Ht). }
    destruct (IH s1) as [Hz Hrest]; try done; [apply Ht|..].
    { pose proof (t_next _ _ _ Ht). lia. }
    split.
    + simpl. rewrite Hz. rewrite decide_False; [done|]. by intros [? _].
    + intros s' [->|Hin]%elem_of_cons; [done|]. by apply Hrest.
Qed.

Lemma removals_le_1 d j s run :
  wf s → execution s run → removals d j s run ≤ 1.
Proof.
  revert s. induction run as [|[o s1] run IH]; intros s Hwf Hex; [simpl; lia|].
  destruct Hex as [Hs1 Hex].
  pose proof (step_trans o s s1 Hwf Hs1) as Ht.
  simpl. case_decide as Hrm.
  - destruct Hrm as [Hin Hout].
    destruct (wf_members _ Hwf j d Hin) as (D & HD & _).
    apply (wf_heap _ Hwf) in HD as [Hlt _].
    destruct (stays_out d j s1 run) as [-> _]; try done; [apply Ht|].
    pose proof (t_next _ _ _ Ht). lia.
  - specialize (IH s1 (t_wf _ _ _ Ht) Hex). lia.
Qed.

Lemma removed_once d j s run :
  wf s → execution s run →
  (∃ s', s' ∈ s :: run.*2 ∧ d ∈ W s' j) → d ∉ W (final s run) j →
  removals d j s run = 1.
Proof.
  revert s. induction run as [|[o s1] run IH]; intros s Hwf Hex Hwas Hout.
  - destruct Hwas as (s' & Hs' & Hin).
    apply list_elem_of_singleton in Hs'. by subst.
  - destruct Hex as [Hs1 Hex]. rewrite final_cons in Hout.
    pose proof (step_trans o s s1 Hwf Hs1) as Ht.
    simpl. destruct (decide (d ∈ W s j)) as [Hin|Hnin].
    + destruct (decide (d ∈ W s1 j)) as [Hin1|Hnin1].
      * rewrite decide_False by (by intros [_ ?]). simpl.
        apply (IH s1); [apply Ht|done| |done].
        exists s1. split; [by left|done].
      * rewrite decide_True by done.
        destruct (wf_members _ Hwf j d Hin) as (D & HD & _).
        apply (wf_heap _ Hwf) in HD as [Hlt _].
        destruct (stays_out d j s1 run) as [-> _]; try done; [apply Ht|].
        pose proof (t_next _ _ _ Ht). lia.
    + rewrite decide_False by (by intros [? _]). simpl.
      apply (IH s1); [apply Ht|done| |done].
      destruct Hwas as (s' & Hs' & Hin).
      apply elem_of_cons in Hs' as [->|Hs']; [done|]. by exists s'.
Qed.

Lemma trans_timed L s s' : wf s → timed s → trans L s s' → timed s'.
Proof.
  intros Hwf Htm Ht j x Hx.
  destruct (decide (next_deferred s ≤ x)) as [Hge|Hlt].
  { by apply (t_new _ _ _ Ht j). }
  assert (x ∈ W s j) as Hin by (eapply (t_readd _ _ _ Ht); [lia|done]).
  destruct (Htm j x Hin) as (t & Htx).
  destruct (wf_members _ Hwf j x Hin) as (D & HD & Hc & _).
  destruct (t_pending _ _ _ Ht x D HD Hc)
    as [(_ & _ & Hl)|(r & [_ Hout] & _)].
  - exists t. by apply Hl.
  - by destruct (Hout j).
Qed.

Lemma execution_states_timed s run s' :
  wf s → timed s → execution s run → s' ∈ s :: run.*2 → timed s'.
Proof.
  revert s. induction run as [|[o s1] run IH]; intros s Hwf Htm Hex Hin.
  - apply list_elem_of_singleton in Hin. by subst.
  - destruct Hex as [Hs1 Hex].
    apply elem_of_cons in Hin as [->|Hin]; [done|].
    pose proof (step_trans o s s1 Hwf Hs1) as Ht.
    apply (IH s1); try done; [apply Ht|by eapply trans_timed].
Qed.

(** Once the timeout of a pending waiter has elapsed, the waiter has
    fired and sits in no waiter set. *)
Lemma advance_fires d D t seconds s :
  wf s → deferreds s !! d = Some D → called D = false →
  (t, d) ∈ delayed s → t ≤ clock s + seconds →
  has_fired d (advance seconds s) ∧ ∀ j, d ∉ W (advance seconds s) j.
Proof.
  intros Hwf Hd Hc Ht Hdue.
  destruct (advance_spec (λ _ _, False) seconds s Hwf) as (Htr & _ & Hnone).
  destruct (t_pending _ _ _ Htr d _ Hd Hc)
    as [(_ & _ & Hl)|(r & [(D' & HD' & Hc' & _) Hout] & Hr)].
  - apply Hl, Hnone in Ht. simpl in Ht. lia.
  - split; [by exists D'|done].
Qed.

(** C5. In every run of the service, a waiter leaves each waiter set at
    most once; a waiter that sits in a set has not fired, so a waiter that
    has been satisfied by a register, has timed out or has been cancelled
    sits in no set; a waiter that was once in a set and has fired has left
    that set exactly once; and every waiter in a set has a timeout call
    pending, after which it has fired and sits in no set. *)
Theorem waiter_removed_exactly_once run d j :
  execution init run →
  removals d j init run ≤ 1 ∧
  (∀ s, s ∈ init :: run.*2 → d ∈ W s j → is_pending d s) ∧
  ((∃ s, s ∈ init :: run.*2 ∧ d ∈ W s j) → has_fired d (final init run) →
   removals d j init run = 1) ∧
  (∀ s, s ∈ init :: run.*2 → d ∈ W s j →
     ∃ t, (t, d) ∈ delayed s ∧
          ∀ seconds, t ≤ clock s + seconds →
            has_fired d (advance seconds s) ∧
            ∀ j', d ∉ W (advance seconds s) j').
Proof.
  intros Hex.
  assert (timed init) as Htm0.
  { intros j' x Hx. unfold W, init in Hx. simpl in Hx.
    rewrite getitem_empty in Hx. by apply not_elem_of_empty in Hx. }
  split_and!.
  - apply removals_le_1; [apply wf_init|done].
  - intros s Hs Hin.
    pose proof (execution_states_wf init run s wf_init Hex Hs) as Hwf.
    destruct (wf_members _ Hwf j d Hin) as (D & ? & ? & _). by exists D.
  - intros Hwas (D & HD & Hc).
    apply removed_once; [apply wf_init|done|done|].
    intros Hin.
    pose proof (execution_wf init run wf_init Hex) as Hwf.
    destruct (wf_members _ Hwf j d Hin) as (D' & ? & ? & _). congruence.
  - intros s Hs Hin.
    pose proof (execution_states_wf init run s wf_init Hex Hs) as Hwf.
    pose proof (execution_states_timed init run s wf_init Htm0 Hex Hs) as Htm.
    destruct (Htm j d Hin) as (t & Ht).
    destruct (wf_members _ Hwf j d Hin) as (D & HD & Hc & _).
    exists t. split; [done|]. intros seconds Hdue.
    by eapply advance_fires.
Qed.

(** ** A waiter of [getClientFor] that nobody satisfies *)

Lemma step_waiting i d t o s s' :
  wf s → waiting i d t s → s' ∈ outcomes o s →
  (∀ c, o ≠ Register i c) →
  waiting i d t s' ∨ timed_out i d s'.
Proof.
  intros Hwf [Hd Ht] Hs' Hno.
  pose proof (step_trans o s s' Hwf Hs') as Htr.
  destruct (t_pending _ _ _ Htr d _ Hd eq_refl)
    as [(Hh & _ & Hl)|(r & [HD Hout] & Hr)].
  - left. split; [congruence|by apply Hl].
  - destruct Hr as [->|(j & c & -> & Hin & HL)].
    + by right.
    + exfalso. destruct (wf_members _ Hwf j d Hin) as (D & HD' & _ & Hcov).
      assert (D = get_waiter i d) as -> by congruence.
      apply covers_get_waiter in Hcov as ->.
      destruct o; try done. destruct HL as [-> ->]. by eapply Hno.
Qed.

Lemma step_timed_out i d o s s' :
  wf s → timed_out i d s → s' ∈ outcomes o s → timed_out i d s'.
Proof.
  intros Hwf [(D & HD & Hc & Hr) Hout] Hs'.
  pose proof (step_trans o s s' Hwf Hs') as Htr.
  destruct (t_called _ _ _ Htr d D HD Hc) as (D' & ? & ? & ?).
  split; [exists D'; split_and!; congruence|].
  intros j Hin. apply (Hout j). eapply (t_readd _ _ _ Htr); [|done].
  by apply (wf_heap _ Hwf) in HD as [? _].
Qed.

Lemma run_timed_out i d s run :
  wf s → timed_out i d s → execution s run → timed_out i d (final s run).
Proof.
  revert s. induction run as [|[o s1] run IH]; intros s Hwf Hto Hex; [done|].
  destruct Hex as [Hs1 Hex]. rewrite final_cons. apply IH; [|by eapply step_timed_out|done].
  by apply (step_trans o s s1 Hwf Hs1).
Qed.

Lemma run_waiting i d t s run :
  wf s → waiting i d t s → execution s run →
  Forall (λ os, ∀ c, os.1 ≠ Register i c) run →
  waiting i d t (final s run) ∨ timed_out i d (final s run).
Proof.
  revert s. induction run as [|[o s1] run IH]; intros s Hwf Hw Hex Hno;
    [by left|].
  destruct Hex as [Hs1 Hex]. rewrite final_cons.
  apply Forall_cons in Hno as [Ho Hno]. simpl in Ho.
  pose proof (step_trans o s s1 Hwf Hs1) as Htr.
  destruct (step_waiting i d t o s s1 Hwf Hw Hs1 Ho) as [Hw1|Hto].
  - apply IH; try done. apply Htr.
  - right. apply run_timed_out; try done. apply Htr.
Qed.

Lemma advance_times_out i d t seconds s :
  wf s → waiting i d t s → t ≤ clock s + seconds →
  timed_out i d (advance seconds s).
Proof.
  intros Hwf [Hd Ht] Hdue.
  destruct (advance_spec (λ _ _, False) seconds s Hwf) as (Htr & _ & Hnone).
  destruct (t_pending _ _ _ Htr d _ Hd eq_refl)
    as [(_ & _ & Hl)|(r & [HD Hout] & Hr)].
  - apply Hl, Hnone in Ht. simpl in Ht. lia.
  - destruct Hr as [->|(j & c & _ & _ & [])]. done.
Qed.

(** ** [getClientFor] *)

Lemma Pr_getClientFor i timeout s c :
  c ∈ C s i →
  (Pr (hands_client c) (getClientFor i timeout s)
   == 1 # Pos.of_nat (size (C s i)))%Q.
Proof.
  intros Hc. unfold getClientFor.
  rewrite (Pr_dbind_det _ _ _ (λ ds,
    match ds.1 with
    | Pending d =>
        (Pending d, Deferred_addCallbacks d (Client_or_cancelled i) ds.2)
    | Fired r =>
        (Fired (run_callback (Client_or_cancelled i) r ds.2).1,
         (run_callback (Client_or_cancelled i) r ds.2).2)
    end)).
  2:{ intros [[r|d] s0] _; [|done]. simpl. done. }
  unfold _getConnectionFor. cbn [connections with_connections].
  rewrite getitem_touch. fold (C s i).
  rewrite decide_False.
  2:{ intros Hl. apply nil_length_inv, elements_empty_inv in Hl.
      apply leibniz_equiv in Hl. set_solver. }
  rewrite (Pr_dbind_det _ _ _ (λ connection,
    (Fired (Success (VConn connection)), with_connections (touch i) s)))
    by done.
  rewrite (Pr_ext _ (λ c', bool_decide (c' = c))) by done.
  rewrite Pr_random_choice by apply NoDup_elements.
  rewrite decide_True by by apply elem_of_elements. done.
Qed.

(** C1. In every state the service can reach: if the identity has a
    connection, [getClientFor] leaves the state as it is and hands back at
    once a client for one of the identity's connections, each with
    probability one over their number; if it has none, [getClientFor]
    hands back a new waiter, registered under the identity and bound to
    the timeout, and if no connection registers for the identity before
    the timeout has elapsed, the waiter has failed with
    [NoConnectionsAvailable] and sits in no waiter set, whatever else
    happened before or happens afterwards. *)
Theorem getClientFor_now_or_timeout run i timeout :
  execution init run →
  let s := final init run in
  (C s i ≠ ∅ →
   (∀ h s', (h, s') ∈ support (getClientFor i timeout s) →
      s' = s ∧ ∃ c, c ∈ C s i ∧ h = Fired (Success (VClient (VConn c)))) ∧
   (∀ c, c ∈ C s i →
      (Pr (hands_client c) (getClientFor i timeout s)
       == 1 # Pos.of_nat (size (C s i)))%Q)) ∧
  (C s i = ∅ →
   let d := next_deferred s in
   ∃ s1, getClientFor i timeout s = dret (Pending d, s1) ∧
     d ∈ W s1 i ∧ is_pending d s1 ∧ (clock s + timeout, d) ∈ delayed s1 ∧
     ∀ run1 seconds run2,
       execution s1 run1 →
       Forall (λ os, ∀ c, os.1 ≠ Register i c) run1 →
       clock s + timeout ≤ clock (final s1 run1) + seconds →
       execution (advance seconds (final s1 run1)) run2 →
       timed_out i d (final (advance seconds (final s1 run1)) run2)).
Proof.
  intros Hex s.
  pose proof (execution_wf init run wf_init Hex) as Hwf. fold s in Hwf.
  split.
  - intros HC. split.
    + intros h s' Hin. by eapply getClientFor_immediate.
    + intros c Hc. by apply Pr_getClientFor.
  - intros HC d.
    destruct (getClientFor_pending i timeout s HC)
      as (s1 & E & _ & _ & Hk & _ & Hh & HW & Hl).
    exists s1. split; [done|].
    assert (trans (λ _ _, False) s s1) as Ht.
    { eapply trans_getClientFor_pending; try done. rewrite E. by left. }
    assert (waiting i d (clock s + timeout) s1) as Hwait.
    { split; [by rewrite Hh, lookup_insert_eq|].
      rewrite Hl. apply elem_of_callLater. by left. }
    split_and!.
    + rewrite HW, decide_True by done. set_solver.
    + exists (get_waiter i d). split; [apply Hwait|done].
    + apply Hwait.
    + intros run1 seconds run2 Hex1 Hno Hdue Hex2.
      pose proof (execution_wf s1 run1 (t_wf _ _ _ Ht) Hex1) as Hwf1.
      assert (timed_out i d (advance seconds (final s1 run1))) as Hto.
      { destruct (run_waiting i d (clock s + timeout) s1 run1
                    (t_wf _ _ _ Ht) Hwait Hex1 Hno) as [Hw1|Hto1].
        - by eapply advance_times_out.
        - eapply (step_timed_out i d (Advance seconds)); try done.
          simpl. by left. }
      apply run_timed_out; try done.
      by apply (advance_spec (λ _ _, False)).
Qed.

(** ** [_addConnectionFor] and its waiters *)

Lemma chain_result_carries cbs c v :
  carries c v →
  ∃ v', chain_result cbs (Success v) = Success v' ∧ carries c v'.
Proof.
  revert v. induction cbs as [|cb cbs IH]; intros v Hv.
  - by exists v.
  - unfold chain_result. simpl. fold (chain_result cbs).
    destruct cb; simpl; try by apply IH.
    + apply IH. by constructor.
    + apply IH. by constructor.
Qed.

Lemma addConnectionFor_resolves_two_waiters :
  ¬ resolves_single_waiter (Some "rack") 7 two_waiters.
Proof.
  intros H. specialize (H 0 1).
  assert (0 = 1) as Habs; [|done].
  apply H.
  - compute_done.
  - compute_done.
  - eexists. split; vm_compute; reflexivity.
  - eexists. split; vm_compute; reflexivity.
Qed.

(** C2, amended. In every state the service can reach,
    [_addConnectionFor] adds the connection to the identity's set, fires
    every waiter that is pending for the identity with the new connection
    (so that all of them resolve to this one call), leaves the identity
    without waiters and the waiters of other identities that are not
    shared with it untouched, and fires the "connected" event. *)
Theorem addConnectionFor_resolves_every_waiter run i c :
  execution init run →
  let s := final init run in
  ∃ s', _addConnectionFor i c s = (None, s') ∧
    C s' i = C s i ∪ {[c]} ∧
    events s' = events s ++ [connected i] ∧
    (∀ w, w ∈ W s i →
          ∃ D' v, deferreds s' !! w = Some D' ∧ called D' = true ∧
                  current_result D' = Some (Success v) ∧ carries c v) ∧
    (∀ j, W s' j = W s j ∖ W s i).
Proof.
  intros Hex s.
  pose proof (execution_wf init run wf_init Hex) as Hwf. fold s in Hwf.
  destruct (addConnectionFor_spec i c s Hwf)
    as (s' & E & _ & Hc & He & _ & _ & HW & Hr).
  exists s'. split_and!; try done.
  - unfold C. rewrite Hc, getitem_add. by rewrite decide_True.
  - intros w Hw. destruct (wf_members _ Hwf i w Hw) as (D & HD & _).
    destruct (Hr w D Hw HD) as [(D' & HD' & Hc' & Hr') _].
    destruct (chain_result_carries (callbacks D) c (VConn c))
      as (v & Hv & Hcar); [constructor|].
    exists D', v. split_and!; try done. congruence.
  - intros j. apply set_eq. intros x. rewrite HW. set_solver.
Qed.

(** ** [_removeConnectionFor] *)

Lemma removeConnectionFor_twice_fires_twice :
  ¬ same_observable
      (_removeConnectionFor (Some "rack") 7
         (_removeConnectionFor (Some "rack") 7 init))
      (_removeConnectionFor (Some "rack") 7 init).
Proof. intros [_ He]. vm_compute in He. discriminate He. Qed.

Lemma discard_discard {A} `{Countable A} (m : gmap identity (gset A)) k x :
  discard k x (discard k x m) = discard k x m.
Proof.
  unfold discard. rewrite insert_insert_eq. f_equal.
  unfold getitem. rewrite lookup_insert_eq. simpl. set_solver.
Qed.

(** C4, amended. A second [_removeConnectionFor] for the same identity
    and connection leaves the connection sets, the waiters and the
    Deferreds as the first call left them and never raises, but fires the
    "disconnected" event once more; and a call for a connection that is
    not registered changes no identity's set of connections while still
    firing the event. *)
Theorem removeConnectionFor_twice i c s :
  let s1 := _removeConnectionFor i c s in
  let s2 := _removeConnectionFor i c s1 in
  connections s2 = connections s1 ∧ waiters s2 = waiters s1 ∧
  deferreds s2 = deferreds s1 ∧
  events s1 = events s ++ [disconnected i] ∧
  events s2 = events s ++ [disconnected i; disconnected i] ∧
  (∀ j, C s1 j = if decide (i = j) then C s j ∖ {[c]} else C s j) ∧
  (c ∉ C s i → ∀ j, C s1 j = C s j).
Proof.
  simpl. split_and!; try done.
  - apply discard_discard.
  - by rewrite <- app_assoc.
  - intros j. unfold C. simpl. apply getitem_discard.
  - intros Hc j. unfold C. simpl. rewrite getitem_discard.
    case_decide; [subst|done]. fold (C s j). set_solver.
Qed.

(** ** [RegionServer._register] *)

Lemma startRunCallbacks_connections d r s :
  connections (_startRunCallbacks d r s).2 = connections s.
Proof.
  unfold _startRunCallbacks. destruct (deferreds s !! d) as [D|]; [|done].
  destruct (called D); [by destruct (_suppressAlreadyCalled D)|].
  match goal with |- context [run_callbacks ?cbs ?r ?s1] =>
    pose proof (run_callbacks_frame cbs r s1) as Hf;
    destruct (run_callbacks cbs r s1) as [r' s2] end.
  simpl in *. by destruct Hf as (-> & _).
Qed.

Lemma callback_waiters_connections ws c s :
  connections (callback_waiters ws c s).2 = connections s.
Proof.
  revert s. induction ws as [|w ws IH]; intros s; [done|]. simpl.
  unfold Deferred_callback.
  pose proof (startRunCallbacks_connections w (Success (VConn c)) s) as H.
  destruct (_startRunCallbacks w (Success (VConn c)) s) as [[e|] s1];
    simpl in *; [done|]. by rewrite IH.
Qed.

Lemma addConnectionFor_connections i c s :
  connections (_addConnectionFor i c s).2 = add i c (connections s).
Proof.
  unfold _addConnectionFor.
  match goal with |- context [callback_waiters ?ws c ?s1] =>
    pose proof (callback_waiters_connections ws c s1) as H;
    destruct (callback_waiters ws c s1) as [[e|] s2] end; done.
Qed.

Lemma initResponder_inv this rack_controller c s o this1 s1 :
  initResponder this rack_controller c s = (o, this1, s1) →
  self this1 = self this ∧ ident this1 = Some rack_controller ∧
  connections s1 = add (Some rack_controller) (self this) (connections s).
Proof.
  unfold initResponder. cbn [self ident hostIsRemote].
  pose proof (addConnectionFor_connections (Some rack_controller)
                (self this) s) as Hc.
  destruct (_addConnectionFor (Some rack_controller) (self this) s)
    as [[e|] s2]; simpl in Hc.
  - by intros [= <- <- <-].
  - destruct (host_is_address c); [|by intros [= <- <- <-]].
    destruct (advertising_get c); [by intros [= <- <- <-]|].
    destruct (getRegionProcess c); by intros [= <- <- <-].
Qed.

Lemma register_body_inv this nodegroup_uuid c s o this1 s1 :
  register_body this nodegroup_uuid c s = (o, this1, s1) →
  self this1 = self this ∧
  (∀ j, C s1 j = if decide (j = ident this1) then C s1 j else C s j) ∧
  (∀ rack_controller,
     isLoopbackURL c = None →
     rackcontrollers_register c = inr rack_controller →
     match nodegroup_uuid with
      | Some _ => handle_upgrade c
      | None => None
      end = None →
     ident this1 = Some rack_controller).
Proof.
  unfold register_body.
  destruct (isLoopbackURL c).
  { intros [= <- <- <-]. split_and!; try done. intros j. by case_decide. }
  destruct (rackcontrollers_register c) as [e|rack].
  { intros [= <- <- <-]. split_and!; try done. intros j. by case_decide. }
  destruct match nodegroup_uuid with
      | Some _ => handle_upgrade c
      | None => None
      end.
  { intros [= <- <- <-]. split_and!; try done. intros j. by case_decide. }
  intros (Hs & Hi & Hc)%initResponder_inv. split_and!; try done.
  - intros j. case_decide; [done|]. unfold C. rewrite Hc, getitem_add.
    rewrite decide_False; [done|]. congruence.
  - intros rack' _ [= <-] _. done.
Qed.

(** C10. When [_register] fails, it fails with
    [CannotRegisterRackController], and the connection is no longer in the
    set of the identity it carries; if the failure came after the rack
    controller had been registered in the database, that identity is the
    rack controller's, under which [initResponder] had added the
    connection; and a connection that was in no set before the call is in
    no set after it. *)
Theorem register_failure_removes_connection
    this nodegroup_uuid c s e this' s' :
  _register this nodegroup_uuid c s = (inl e, this', s') →
  e = CannotRegisterRackController ∧
  self this' = self this ∧
  (self this ∉ C s' (ident this')) ∧
  (∀ rack_controller,
     isLoopbackURL c = None →
     rackcontrollers_register c = inr rack_controller →
     match nodegroup_uuid with
      | Some _ => handle_upgrade c
      | None => None
      end = None →
     ident this' = Some rack_controller) ∧
  ((∀ j, self this ∉ C s j) → ∀ j, self this ∉ C s' j).
Proof.
  unfold _register.
  destruct (register_body this nodegroup_uuid c s) as [[o this1] s1] eqn:E.
  apply register_body_inv in E as (Hself & HC & Hid).
  destruct o as [e'|]; [|done]. intros [= <- <- <-].
  assert (∀ j, C (_removeConnectionFor (ident this1) (self this1) s1) j
               = if decide (ident this1 = j)
                 then C s1 j ∖ {[self this1]} else C s1 j) as Hrm.
  { intros j. unfold C. simpl. apply getitem_discard. }
  split_and!; try done.
  - rewrite Hrm, decide_True by done. rewrite Hself. set_solver.
  - intros Hfresh j. rewrite Hrm. case_decide; [rewrite Hself; set_solver|].
    rewrite HC, decide_False by done. apply Hfresh.
Qed.

(** ** [getRandomClient] *)

Lemma getRandomClient_not_uniform_over_sessions :
  ¬ uniform_over_sessions one_and_two.
Proof.
  intros H. specialize (H 1).
  assert (1 ∈ sessions one_and_two) as Hin by compute_done.
  apply H in Hin. vm_compute in Hin. discriminate Hin.
Qed.

Lemma Pr_pick_session c (connection : gset conn) :
  (Pr (is_client c)
      (if decide (0 < size connection)%nat then
         dbind (random_choice (elements connection)) (λ c,
         dret (inr (VClient (VConn c))))
       else dret (inl (AssertionError "Connection set empty.")))
   == if decide (c ∈ connection)
      then 1 # Pos.of_nat (size connection) else 0)%Q.
Proof.
  case_decide as Hsz.
  - rewrite (Pr_dbind_det _ _ _ (λ c, inr (VClient (VConn c)))) by done.
    rewrite (Pr_ext _ (λ c', bool_decide (c' = c))) by done.
    rewrite Pr_random_choice by apply NoDup_elements.
    destruct (decide (c ∈ connection)).
    + by rewrite decide_True by by apply elem_of_elements.
    + rewrite decide_False; [done|]. by rewrite elem_of_elements.
  - rewrite Pr_dret. simpl. rewrite decide_False; [done|].
    assert (size connection = 0) as Hz by lia.
    apply size_empty_inv in Hz. set_solver.
Qed.

Lemma sumQ_zero {A} (g : A → Q) (l : list A) :
  (∀ x, x ∈ l → (g x == 0)%Q) → (sumQ (g <$> l) == 0)%Q.
Proof.
  induction l as [|x l IH]; intros Hz; [done|].
  rewrite fmap_cons. unfold sumQ in *. rewrite foldr_cons.
  rewrite IH by (intros y Hy; apply Hz; by right).
  rewrite (Hz x) by (by left). ring.
Qed.

Lemma sumQ_single_entry (g : gset conn → Q)
    (l : list (identity * gset conn)) i X :
  NoDup l.*1 → (i, X) ∈ l →
  (∀ j X', (j, X') ∈ l → j ≠ i → (g X' == 0)%Q) →
  (sumQ (g <$> l.*2) == g X)%Q.
Proof.
  induction l as [|[j X'] l IH]; intros Hnd Hin Hz.
  - by apply elem_of_nil in Hin.
  - rewrite !fmap_cons in Hnd. apply NoDup_cons in Hnd as [Hnj Hnd].
    rewrite !fmap_cons. unfold sumQ in *. rewrite foldr_cons.
    cbn [fst snd] in *.
    apply elem_of_cons in Hin as [Heq|Hin].
    + injection Heq as <- <-.
      pose proof (sumQ_zero g l.*2) as Hrest. unfold sumQ in Hrest.
      rewrite Hrest; [ring|].
      intros X2 (jX & -> & HjX)%list_elem_of_fmap.
      apply (Hz jX.1); [right; by destruct jX|].
      intros Heq. apply Hnj. apply list_elem_of_fmap. by exists jX.
    + rewrite IH; [|done|done|].
      * rewrite (Hz j X'); [ring|by left|].
        intros ->. apply Hnj. apply list_elem_of_fmap. by exists (i, X).
      * intros j2 X2 ? ?. apply (Hz j2); [by right|done].
Qed.

Lemma Pr_getRandomClient s i c :
  c ∈ C s i → (∀ j, j ≠ i → c ∉ C s j) →
  (Pr (is_client c) (getRandomClient s)
   == 1 # (Pos.of_nat (size (connections s)) * Pos.of_nat (size (C s i))))%Q.
Proof.
  intros Hc Hother. unfold getRandomClient.
  assert (connections s !! i = Some (C s i)) as Hi.
  { unfold C, getitem in *. destruct (connections s !! i); [done|].
    set_solver. }
  assert (length (map_to_list (connections s)).*2 = size (connections s))
    as Hlen by (by rewrite length_fmap, length_map_to_list).
  rewrite decide_False.
  2:{ rewrite Hlen. intros Hz. apply map_size_empty_inv in Hz.
      by rewrite Hz, lookup_empty in Hi. }
  rewrite Pr_dbind_random_choice, Hlen.
  rewrite (sumQ_single_entry _ (map_to_list (connections s)) i (C s i)).
  - rewrite Pr_pick_session, decide_True by done. done.
  - apply NoDup_fst_map_to_list.
  - by apply elem_of_map_to_list.
  - intros j X' Hj Hne. rewrite Pr_pick_session.
    rewrite decide_False; [done|].
    apply elem_of_map_to_list in Hj. specialize (Hother j Hne).
    unfold C, getitem in Hother. by rewrite Hj in Hother.
Qed.

(** C3, amended. [getRandomClient] fails with [NoConnectionsAvailable]
    when the connections dictionary has no identity; when the dictionary
    has identities and each has a connection, it returns a client for a
    registered connection; and a connection [c] that is registered under
    the one identity [i] is returned with probability one over (the
    number of identities times the number of connections of [i]): the
    identity is drawn first, then one of its connections. *)
Theorem getRandomClient_identity_then_session s :
  (connections s = ∅ →
   getRandomClient s = dret (inl (NoConnectionsAvailable None))) ∧
  (connections s ≠ ∅ →
   (∀ i X, connections s !! i = Some X → X ≠ ∅) →
   ∀ r, r ∈ support (getRandomClient s) →
        ∃ i c, c ∈ C s i ∧ r = inr (VClient (VConn c))) ∧
  (∀ i c, c ∈ C s i → (∀ j, j ≠ i → c ∉ C s j) →
     (Pr (is_client c) (getRandomClient s)
      == 1 # (Pos.of_nat (size (connections s))
              * Pos.of_nat (size (C s i))))%Q).
Proof.
  split_and!.
  - intros He. unfold getRandomClient. by rewrite He.
  - intros Hne Hall r Hr. unfold getRandomClient in Hr.
    rewrite decide_False in Hr.
    2:{ rewrite length_fmap, length_map_to_list. intros Hz.
        by apply map_size_empty_inv in Hz. }
    apply elem_of_support_dbind in Hr as (X & HX & Hr).
    rewrite support_random_choice in HX.
    apply list_elem_of_fmap in HX as ([i X'] & -> & HX).
    apply elem_of_map_to_list in HX. simpl in Hr.
    rewrite decide_True in Hr.
    2:{ specialize (Hall i X' HX).
        destruct (decide (size X' = 0)) as [Hz|]; [|lia].
        apply size_empty_inv in Hz. apply leibniz_equiv in Hz. done. }
    apply elem_of_support_dbind in Hr as (c & Hc & Hr).
    rewrite support_random_choice in Hc. apply elem_of_elements in Hc.
    dret_inv Hr. exists i, c. split; [|done].
    unfold C, getitem. by rewrite HX.
  - intros i c. apply Pr_getRandomClient.
Qed.

(** ** Witnesses *)

Lemma getClientFor_now_or_timeout_witness :
  Qeq (Pr (hands_client 7) (getClientFor rack 30 registered))
      (1 # Pos.of_nat (size (C registered rack))) ∧
  timed_out rack 0 (advance 30 (after_get rack 30 init)).
Proof.
  split.
  - assert (execution init [(Register rack 7, registered)]) as Hex.
    { split; [left|exact I]. }
    destruct (getClientFor_now_or_timeout _ rack 30 Hex) as [H _].
    apply H; compute_done.
  - destruct (getClientFor_now_or_timeout [] rack 30 I) as [_ H].
    destruct (H eq_refl) as (s1 & E & _ & _ & _ & Hto).
    assert (s1 = after_get rack 30 init) as ->.
    { unfold after_get. change (final init []) with init in E.
      rewrite E. reflexivity. }
    apply (Hto [] 30 []); [exact I|constructor| |exact I].
    vm_compute. lia.
Defined.

Lemma addConnectionFor_resolves_every_waiter_witness :
  ∃ s', _addConnectionFor rack 7 two_waiters = (None, s') ∧
    C s' rack = C two_waiters rack ∪ {[7]} ∧
    events s' = events two_waiters ++ [connected rack] ∧
    (∀ w, w ∈ W two_waiters rack →
          ∃ D' v, deferreds s' !! w = Some D' ∧ called D' = true ∧
                  current_result D' = Some (Success v) ∧ carries 7 v) ∧
    (∀ j, W s' j = W two_waiters j ∖ W two_waiters rack).
Proof.
  apply (addConnectionFor_resolves_every_waiter
           [(Get rack 30, after_get rack 30 init);
            (Get rack 30, two_waiters)] rack 7).
  split; [vm_compute; left|]. split; [vm_compute; left|exact I].
Defined.

Lemma getRandomClient_identity_then_session_witness :
  Qeq (Pr (is_client 1) (getRandomClient one_and_two))
      (1 # (Pos.of_nat (size (connections one_and_two))
            * Pos.of_nat (size (C one_and_two (Some "a"))))).
Proof.
  apply (getRandomClient_identity_then_session one_and_two).
  - compute_done.
  - intros j Hj.
    destruct (decide (j = Some "b")) as [->|Hb]; [compute_done|].
    unfold C, getitem.
    replace (connections one_and_two !! j) with (@None (gset conn));
      [set_solver|].
    symmetry. unfold one_and_two. rewrite !addConnectionFor_connections.
    unfold add. rewrite !lookup_insert_ne by done. done.
Defined.

Lemma removeConnectionFor_twice_witness :
  C (_removeConnectionFor rack 7 init) rack = C init rack.
Proof.
  apply (removeConnectionFor_twice rack 7 init). compute_done.
Defined.

Lemma waiter_removed_exactly_once_witness :
  removals 0 rack init
    [(Get rack 30, after_get rack 30 init);
     (Advance 30, advance 30 (after_get rack 30 init))] = 1.
Proof.
  assert (execution init
            [(Get rack 30, after_get rack 30 init);
             (Advance 30, advance 30 (after_get rack 30 init))]) as Hex.
  { split; [vm_compute; left|]. split; [left|exact I]. }
  destruct (waiter_removed_exactly_once _ 0 rack Hex) as (_ & _ & H & _).
  apply H.
  - exists (after_get rack 30 init). split; [right; left|compute_done].
  - eexists. split; vm_compute; reflexivity.
Defined.

Lemma register_failure_removes_connection_witness :
  (_register fresh_server None failing_calls init).1.1
    = inl CannotRegisterRackController ∧
  ident (_register fresh_server None failing_calls init).1.2
    = Some "rack" ∧
  7 ∉ C (_register fresh_server None failing_calls init).2 (Some "rack").
Proof.
  destruct (register_failure_removes_connection fresh_server None
              failing_calls init CannotRegisterRackController
              (_register fresh_server None failing_calls init).1.2
              (_register fresh_server None failing_calls init).2)
    as (_ & _ & _ & Hid & Hout).
  { vm_compute. reflexivity. }
  split; [vm_compute; reflexivity|]. split.
  - apply Hid; reflexivity.
  - apply Hout. intros j. unfold C. simpl. rewrite getitem_empty.
    apply not_elem_of_empty.
Defined.

End RegistryFacts.

(** * Theorems: the life of an advertising process *)

Module AdvertisingLaws.
Import Advertising AdvertisingFacts.
#[local] Set Warnings "-clear-no-such-hyp".

(** ** [promote] and [demote] *)

Lemma filter_all {A} (P : A → Prop) `{∀ x, Decision (P x)} (l : list A) :
  (∀ x, x ∈ l → P x) → filter P l = l.
Proof.
  induction l as [|x l IH]; intros Hall; [done|].
  rewrite filter_cons, decide_True by (apply Hall; by left).
  f_equal. apply IH. intros y Hy. apply Hall. by right.
Qed.

Lemma filter_none {A} (P : A → Prop) `{∀ x, Decision (P x)} (l : list A) :
  (∀ x, x ∈ l → ¬ P x) → filter P l = [].
Proof.
  intros Hnone. apply elem_of_nil_inv.
  intros x [HP Hx]%list_elem_of_filter. by eapply Hnone.
Qed.

Lemma objects_get_single {A} (P : A → Prop) `{∀ x, Decision (P x)}
    rows dne x :
  objects_get P rows dne = inr x → filter P rows = [x].
Proof.
  unfold objects_get. destruct (filter P rows) as [|y [|z l]]; try done.
  by intros [= <-].
Qed.

Lemma objects_get_of_single {A} (P : A → Prop) `{∀ x, Decision (P x)}
    rows dne x :
  filter P rows = [x] → objects_get P rows dne = inr x.
Proof. unfold objects_get. by intros ->. Qed.

(** What a successful [promote] has done. *)
Lemma promote_inr h db adv db1 :
  promote h db = inr (adv, db1) →
  ∃ region_obj,
    filter (λ r, system_id r = maas_id h) (regions db) = [region_obj] ∧
    region_id adv = maas_id h ∧
    ((filter (λ p, proc_region p = maas_id h ∧ proc_pid p = getpid h)
        (processes db) = [] ∧
      process_id adv = process_seq db ∧
      db1 = insert_process (new_process h (process_seq db) (maas_id h)) db)
     ∨ (∃ p, filter (λ p, proc_region p = maas_id h ∧ proc_pid p = getpid h)
               (processes db) = [p] ∧
             process_id adv = proc_id p ∧ db1 = db)).
Proof.
  unfold promote, get_running_controller. intros H. tx_inv.
  match goal with H : objects_get _ (regions db) _ = inr ?r |- _ =>
    pose proof (objects_get_single _ _ _ _ H) as Hone;
    apply objects_get_inr in H as [Hsys _]; rename r into region_obj end.
  rewrite Hsys in *. exists region_obj. split; [done|].
  destruct (filter _ (processes db)) as [|p [|p' l]] eqn:E; tx_inv.
  - split; [done|]. left. done.
  - split; [done|]. right. by exists p.
Qed.

(** The row that a successful [promote] leaves or finds. *)
Lemma promote_row h db adv db1 :
  promote h db = inr (adv, db1) →
  region_id adv = maas_id h ∧
  regions db1 = regions db ∧
  ∃ p, filter (λ p, proc_region p = maas_id h ∧ proc_pid p = getpid h)
         (processes db1) = [p] ∧
       proc_id p = process_id adv.
Proof.
  intros (region_obj & Hreg & Hrid & Hcase)%promote_inr.
  split; [done|].
  destruct Hcase as [(Hnone & Hpk & ->)|(p & Hone & Hpk & ->)].
  - split; [done|].
    exists (new_process h (process_seq db) (maas_id h)). simpl.
    rewrite filter_app, Hnone, app_nil_l.
    by rewrite filter_cons_True by done.
  - split; [done|]. by exists p.
Qed.

(** X1. When [promote] returns, exactly one process row carries this
    host's region and pid, it has the returned [process_id], and the
    returned [region_id] is the host's; a second [promote] returns the
    same object and writes nothing. *)
Theorem promote_twice h db adv db1 :
  promote h db = inr (adv, db1) →
  promote h db1 = inr (adv, db1) ∧
  region_id adv = maas_id h ∧
  ∃ p, filter (λ p, proc_region p = maas_id h ∧ proc_pid p = getpid h)
         (processes db1) = [p] ∧
       proc_id p = process_id adv.
Proof.
  intros (region_obj & Hreg & Hrid & Hcase)%promote_inr.
  assert (system_id region_obj = maas_id h) as Hsys.
  { assert (region_obj ∈ filter (λ r, system_id r = maas_id h) (regions db))
      as Hin by (rewrite Hreg; by left).
    by apply list_elem_of_filter in Hin as [? _]. }
  assert (∃ p, filter (λ p, proc_region p = maas_id h ∧ proc_pid p = getpid h)
                 (processes db1) = [p] ∧ proc_id p = process_id adv ∧
               regions db1 = regions db) as (p & Hp & Hid & Hregs).
  { destruct Hcase as [(Hnone & Hpk & ->)|(p & Hone & Hpk & ->)].
    - exists (new_process h (process_seq db) (maas_id h)). simpl.
      rewrite filter_app, Hnone, app_nil_l.
      by rewrite filter_cons_True by done.
    - by exists p. }
  split; [|split; [done|by exists p]].
  unfold promote, get_running_controller.
  rewrite (tx_bind_ok _ _ db1 region_obj db1).
  2:{ rewrite (tx_bind_ok _ _ db1 (regions db1) db1 eq_refl).
      unfold tx_lift.
      by rewrite Hregs, (objects_get_of_single _ _ _ _ Hreg). }
  rewrite (tx_bind_ok _ _ db1 (processes db1) db1 eq_refl).
  rewrite Hsys, Hp. unfold tx_ret. destruct adv as [rid pid].
  simpl in *. by rewrite Hrid, Hid.
Qed.


(** What [demote] does after a [promote] that returned. *)
Lemma demote_after_promote h db adv db1 :
  promote h db = inr (adv, db1) →
  ∃ db2,
    demote adv h db1 = inr (tt, db2) ∧
    (∀ p, p ∈ processes db2 →
          ¬ (proc_region p = maas_id h ∧ proc_pid p = getpid h)) ∧
    (∀ e, e ∈ endpoints db2 → ep_process e ≠ process_id adv) ∧
    regions db2 = regions db ∧
    ((∀ p, p ∈ processes db →
           proc_id p < process_seq db ∧
           ¬ (proc_region p = maas_id h ∧ proc_pid p = getpid h)) →
     processes db2 = processes db).
Proof.
  intros Hpromote.
  destruct (promote_row _ _ _ _ Hpromote) as (Hrid & _ & p & Hp & Hid).
  apply promote_inr in Hpromote as (region_obj & Hreg & _ & Hcase).
  assert (system_id region_obj = maas_id h) as Hsys.
  { assert (region_obj ∈ filter (λ r, system_id r = maas_id h) (regions db))
      as Hin by (rewrite Hreg; by left).
    by apply list_elem_of_filter in Hin as [? _]. }
  assert (regions db1 = regions db) as Hregs.
  { by destruct Hcase as [(_ & _ & ->)|(_ & _ & _ & ->)]. }
  exists (delete_processes (λ q, proc_id q = proc_id p) db1).
  split; [|split_and!].
  - unfold demote.
    rewrite (tx_bind_ok _ _ db1 (regions db1) db1 eq_refl).
    rewrite Hrid, Hregs, Hreg. simpl.
    rewrite (tx_bind_ok _ _ db1 tt
               (delete_processes (λ q, proc_id q = proc_id p) db1)); [done|].
    rewrite (tx_bind_ok _ _ db1 (processes db1) db1 eq_refl).
    rewrite (tx_bind_ok _ _ db1 p db1); [done|].
    unfold tx_lift. rewrite Hsys.
    by rewrite (objects_get_of_single _ _ _ p).
  - simpl. intros q [Hne Hq]%list_elem_of_filter Hkey.
    assert (q ∈ filter (λ p, proc_region p = maas_id h
                             ∧ proc_pid p = getpid h) (processes db1))
      as Hin by (by apply list_elem_of_filter).
    rewrite Hp in Hin. apply list_elem_of_singleton in Hin as ->. done.
  - simpl. intros e [Hne _]%list_elem_of_filter Heq. apply Hne.
    rewrite Heq, <- Hid. apply list_elem_of_fmap_2.
    apply list_elem_of_filter. split; [done|].
    assert (p ∈ filter (λ p, proc_region p = maas_id h
                             ∧ proc_pid p = getpid h) (processes db1))
      as Hin by (rewrite Hp; by left).
    by apply list_elem_of_filter in Hin as [_ ?].
  - done.
  - intros Hfresh.
    destruct Hcase as [(Hnone & Hpk & ->)|(p' & Hone & _ & ->)].
    + simpl in *. rewrite filter_app, Hnone in Hp. simpl in Hp.
      rewrite filter_cons, decide_True in Hp by done.
      injection Hp as <-. simpl.
      rewrite filter_app, filter_cons, decide_False by (simpl; tauto).
      rewrite filter_nil, app_nil_r.
      apply filter_all. intros q Hq. apply Hfresh in Hq as [Hlt _]. lia.
    + exfalso.
      assert (p' ∈ filter (λ p, proc_region p = maas_id h
                                ∧ proc_pid p = getpid h) (processes db))
        as Hin by (rewrite Hone; by left).
      apply list_elem_of_filter in Hin as [Hkey Hin].
      by apply Hfresh in Hin as [_ ?].
Qed.

(** X3. [demote] undoes [promote]: after a [promote] that returned,
    [demote] of the returned object returns, and then no process row
    carries this host's region and pid, no endpoint belongs to the
    promoted process, and the region controllers are as before; if
    [promote] had to create the row, under a fresh primary key, the
    process table is back to what it was. *)
Theorem demote_undoes_promote h db adv db1 :
  promote h db = inr (adv, db1) →
  ∃ db2,
    demote adv h db1 = inr (tt, db2) ∧
    (∀ p, p ∈ processes db2 →
          ¬ (proc_region p = maas_id h ∧ proc_pid p = getpid h)) ∧
    (∀ e, e ∈ endpoints db2 → ep_process e ≠ process_id adv) ∧
    regions db2 = regions db ∧
    ((∀ p, p ∈ processes db →
           proc_id p < process_seq db ∧
           ¬ (proc_region p = maas_id h ∧ proc_pid p = getpid h)) →
     processes db2 = processes db).
Proof. apply demote_after_promote. Qed.

(** What a [demote] that returned leaves for the next one. *)
Lemma demote_after_demote self h db db1 :
  demote self h db = inr (tt, db1) →
  (∃ r, r ∈ regions db ∧ system_id r = region_id self) →
  (∀ p, p ∈ processes db1 →
        ¬ (proc_region p = region_id self ∧ proc_pid p = getpid h)) ∧
  demote self h db1 = inl RegionControllerProcess_DoesNotExist.
Proof.
  intros H (r0 & Hin0 & Hsys0). unfold demote in H. tx_inv.
  destruct (filter (λ r, system_id r = region_id self) (regions db))
    as [|r rest] eqn:Hf.
  { exfalso. by eapply (filter_nil_not_elem_of
                          (λ r, system_id r = region_id self)). }
  assert (system_id r = region_id self) as Hsys.
  { assert (r ∈ filter (λ r, system_id r = region_id self) (regions db))
      as Hin by (rewrite Hf; by left).
    by apply list_elem_of_filter in Hin as [? _]. }
  match goal with H : tx_for _ _ _ = inr _ |- _ => simpl in H end.
  tx_inv.
  match goal with H : objects_get _ (processes db) _ = inr ?q |- _ =>
    pose proof (objects_get_single _ _ _ _ H) as Hone; rename q into p;
    clear H end.
  rewrite Hsys in Hone.
  remember (delete_processes (λ q, proc_id q = proc_id p) db) as db2
    eqn:Hdb2.
  assert (∀ q, q ∈ processes db2 →
               ¬ (proc_region q = region_id self ∧ proc_pid q = getpid h))
    as Hgone.
  { rewrite Hdb2. intros q [Hne Hq]%list_elem_of_filter Hkey.
    assert (q ∈ filter (λ p, proc_region p = region_id self
                             ∧ proc_pid p = getpid h) (processes db))
      as Hin by (by apply list_elem_of_filter).
    rewrite Hone in Hin. apply list_elem_of_singleton in Hin as ->. done. }
  assert (regions db2 = regions db) as Hregs by (by rewrite Hdb2).
  destruct rest as [|r2 rest].
  - match goal with H : tx_for [] _ _ = inr _ |- _ => simpl in H end.
    match goal with H : tx_ret _ _ = inr _ |- _ =>
      apply tx_ret_inr in H as [_ <-] end.
    split; [done|].
    eapply (demote_absent_raises self h _ r []); [by rewrite Hregs|].
    by rewrite Hsys.
  - exfalso.
    assert (system_id r2 = region_id self) as Hsys2.
    { assert (r2 ∈ filter (λ r, system_id r = region_id self) (regions db))
        as Hin by (rewrite Hf; right; by left).
      by apply list_elem_of_filter in Hin as [? _]. }
    match goal with H : tx_for (_ :: _) _ _ = inr _ |- _ => simpl in H end.
    tx_inv.
    match goal with H : objects_get _ (processes db2) _ = inr _ |- _ =>
      apply objects_get_inr in H as [Hkey Hin] end.
    rewrite Hsys2 in Hkey. by eapply Hgone.
Qed.

(** X4. [demote] is not idempotent: when it has returned for a region
    controller that has a row, the row of this region and pid is gone, and
    any further [demote] raises [RegionControllerProcess.DoesNotExist]. *)
Theorem demote_again_raises self h db db1 :
  demote self h db = inr (tt, db1) →
  (∃ r, r ∈ regions db ∧ system_id r = region_id self) →
  (∀ p, p ∈ processes db1 →
        ¬ (proc_region p = region_id self ∧ proc_pid p = getpid h)) ∧
  demote self h db1 = inl RegionControllerProcess_DoesNotExist.
Proof. apply demote_after_demote. Qed.

(** ** [update]: what a tick leaves in the tables *)

Lemma services_only_refl db : services_only db db.
Proof. done. Qed.

Lemma services_only_trans db1 db2 db3 :
  services_only db1 db2 → services_only db2 db3 → services_only db1 db3.
Proof. unfold services_only. intros (?&?&?&?&?) (?&?&?&?&?). naive_solver congruence. Qed.

Lemma create_services_for_only node db u db' :
  create_services_for node db = inr (u, db') → services_only db db'.
Proof. unfold create_services_for. intros H. by tx_inv. Qed.

Lemma update_service_for_only node name st info db u db' :
  update_service_for node name st info db = inr (u, db') →
  services_only db db'.
Proof. unfold update_service_for. intros H. by tx_inv. Qed.

Lemma mark_dead_only node db u db' :
  mark_dead node db = inr (u, db') → services_only db db'.
Proof.
  unfold mark_dead. intros H. tx_inv.
  match goal with H : create_services_for _ _ = inr _ |- _ =>
    apply create_services_for_only in H end.
  eapply services_only_trans; [eassumption|]. done.
Qed.

Lemma mark_loop_only ps others db u db' :
  tx_for others (λ other_region : RegionController,
    if decide (length (filter (λ p, proc_region p = system_id other_region)
                         ps) = 0)
    then mark_dead (system_id other_region)
    else tx_ret tt) db = inr (u, db') →
  services_only db db'.
Proof.
  revert db. induction others as [|o others IH]; intros db H; simpl in H.
  - by tx_inv.
  - tx_inv.
    match goal with H : tx_for _ _ _ = inr _ |- _ => apply IH in H end.
    eapply services_only_trans; [|eassumption].
    destruct (decide (length _ = 0)); [by eapply mark_dead_only|by tx_inv].
Qed.

(** The steps of a successful [update]. *)
Lemma update_steps self h addresses db interval db' :
  update self h addresses db = inr (interval, db') →
  ∃ region_obj process db1 db3 r db4,
    filter (λ r, system_id r = region_id self) (regions db) = [region_obj] ∧
    getRegionProcess self h
      (save_region h region_obj
         (bool_decide (hostname region_obj ≠ gethostname h)) db)
      = inr (process, db1) ∧
    tx_for (filter (λ p, proc_region p = region_id self
                         ∧ proc_id p ≠ process_id self)
              (processes (delete_processes (stale h) db1)))
           (reap h) (delete_processes (stale h) db1) = inr (tt, db3) ∧
    (if decide (size addresses = 0)
     then r = (INTERVAL_NO_ENDPOINTS, endpoint_ids_of (proc_id process) db3)
          ∧ db4 = db3
     else ∃ ids,
       advertise_endpoints (proc_id process) (elements addresses)
         (endpoint_ids_of (proc_id process) db3) db3 = inr (ids, db4) ∧
       r = (INTERVAL_WITH_ENDPOINTS, ids)) ∧
    interval = r.1 ∧
    services_only (delete_endpoints (λ e, ep_id e ∈ r.2) db4) db'.
Proof.
  unfold update. intros H. tx_inv.
  repeat match goal with u : unit |- _ => destruct u end.
  match goal with H : objects_get _ (regions db) _ = inr ?r |- _ =>
    pose proof (objects_get_single _ _ _ _ H) as Hone;
    apply objects_get_inr in H as [Hsys _]; rename r into region_obj end.
  rewrite Hsys in *.
  match goal with H : getRegionProcess _ _ _ = inr (?p, ?d) |- _ =>
    rename H into Hget; rename p into process; rename d into db1 end.
  match goal with H : tx_for (filter _ (processes _)) _ _ = inr (_, ?d) |- _ =>
    rename H into Hreap; rename d into db3 end.
  match goal with H : tx_for (filter _ (regions ?d)) _ _ = inr _ |- _ =>
    rename H into Hmark; apply mark_loop_only in Hmark end.
  match goal with H : create_services_for _ _ = inr (_, ?d') |- _ =>
    rename H into Hcreate; apply create_services_for_only in Hcreate end.
  match goal with H : _ db3 = inr (?v, ?d) |- _ =>
    rename H into Hep; rename d into db4; rename v into r end.
  match goal with H : (if decide (0 < _)%Z then _ else _) _ = inr _ |- _ =>
    rename H into Hgrade end.
  exists region_obj, process, db1, db3, r, db4.
  split_and!; try done.
  - destruct (decide (size addresses = 0)); tx_inv; [done|].
    eexists. split; [eassumption|done].
  - eapply services_only_trans; [exact Hcreate|].
    eapply services_only_trans; [|exact Hmark].
    destruct (decide (0 < _)%Z); by eapply update_service_for_only.
Qed.

(** The row of this process is gone and another row holds this host's
    region and pid: the INSERT of [getRegionProcess] raises. *)
Lemma getRegionProcess_key_in_use self h db q :
  NoDup (system_id <$> regions db) →
  (∀ p, p ∈ processes db → proc_id p ≠ process_id self) →
  (∃ r, r ∈ regions db ∧ system_id r = maas_id h) →
  q ∈ processes db → proc_region q = maas_id h → proc_pid q = getpid h →
  getRegionProcess self h db = inl IntegrityError.
Proof.
  intros Hr Hmiss (r & Hin & Hid) Hq Hqr Hqp. unfold getRegionProcess.
  rewrite (tx_bind_ok _ _ db (processes db) db eq_refl).
  unfold objects_get.
  replace (filter (λ p, proc_id p = process_id self) (processes db))
    with (@nil RegionControllerProcess).
  2:{ symmetry. apply elem_of_nil_inv.
      intros p [? ?]%list_elem_of_filter. by eapply Hmiss. }
  destruct (objects_get_unique system_id (regions db) (maas_id h)
              RegionController_DoesNotExist r Hr Hin Hid) as (r' & Er).
  pose proof (objects_get_inr _ _ _ _ Er) as [Hsys _].
  unfold get_running_controller.
  rewrite (tx_bind_ok _ _ db r' db).
  2:{ rewrite (tx_bind_ok _ _ db (regions db) db eq_refl).
      unfold tx_lift. by rewrite Er. }
  unfold tx_bind at 1. unfold force_insert, tx_bind, tx_read.
  rewrite decide_True; [done|].
  apply Exists_exists. exists q. split; [done|]. right. simpl.
  by rewrite Hsys.
Qed.

(** [update] on such a table raises the same [IntegrityError]: the tick
    fails until the other row is gone. *)
Lemma update_key_in_use self h addresses db q :
  NoDup (system_id <$> regions db) →
  (∃ r, r ∈ regions db ∧ system_id r = region_id self) →
  (∀ p, p ∈ processes db → proc_id p ≠ process_id self) →
  (∃ r, r ∈ regions db ∧ system_id r = maas_id h) →
  q ∈ processes db → proc_region q = maas_id h → proc_pid q = getpid h →
  update self h addresses db = inl IntegrityError.
Proof.
  intros Hr (r & Hin & Hid) Hmiss (r' & Hin' & Hid') Hq Hqr Hqp.
  unfold update.
  rewrite (tx_bind_ok _ _ db (regions db) db eq_refl).
  destruct (objects_get_unique system_id (regions db) (region_id self)
              RegionController_DoesNotExist r Hr Hin Hid) as (region_obj & Er).
  rewrite (tx_bind_ok _ _ db region_obj db) by (unfold tx_lift; by rewrite Er).
  rewrite (tx_bind_ok _ _ db tt _ eq_refl).
  set (dbA := save_region h region_obj _ db).
  assert (system_id <$> regions dbA = system_id <$> regions db) as Hsys.
  { unfold dbA. simpl. rewrite <- list_fmap_compose.
    apply list_fmap_ext. intros i x _. simpl. by case_decide. }
  unfold tx_bind at 1.
  rewrite (getRegionProcess_key_in_use self h dbA q); try done.
  - by rewrite Hsys.
  - assert (maas_id h ∈ system_id <$> regions dbA) as Hm.
    { rewrite Hsys, <- Hid'. by apply list_elem_of_fmap_2. }
    apply list_elem_of_fmap in Hm as (r2 & ? & ?). by exists r2.
Qed.

(** [getRegionProcess], row by row. *)
Lemma getRegionProcess_rows self h db process db1 :
  getRegionProcess self h db = inr (process, db1) →
  proc_id process = process_id self ∧ process ∈ processes db1 ∧
  proc_updated process = now h ∧
  regions db1 = regions db ∧ endpoints db1 = endpoints db ∧
  endpoint_seq db1 = endpoint_seq db ∧
  (∀ p, proc_id p ≠ process_id self →
        (p ∈ processes db1 ↔ p ∈ processes db)) ∧
  (∀ p, p ∈ processes db1 → proc_id p = process_id self → p = process) ∧
  ((proc_id <$> processes db1 = proc_id <$> processes db ∧
    ∃ p0, p0 ∈ processes db ∧ proc_id p0 = process_id self ∧
          proc_region p0 = proc_region process ∧
          proc_pid p0 = proc_pid process ∧
          proc_created p0 = proc_created process)
   ∨ ((process_id self ∉ proc_id <$> processes db) ∧
      processes db1 = processes db ++ [process] ∧
      process = new_process h (process_id self) (maas_id h) ∧
      maas_id h ∈ system_id <$> regions db)).
Proof.
  unfold getRegionProcess. intros H. tx_inv.
  destruct (objects_get _ (processes db) _) as [e|p0] eqn:E.
  - destruct e; tx_inv; try discriminate.
    match goal with
    | H : get_running_controller _ _ = inr _ |- _ =>
        unfold get_running_controller in H; tx_inv
    end.
    match goal with
    | H : objects_get _ (regions _) _ = inr _ |- _ =>
        apply objects_get_inr in H as [Hm Hr]
    end.
    rewrite Hm. simpl.
    assert (∀ p, p ∈ processes db → proc_id p ≠ process_id self) as Hnone.
    { intros p Hp.
      eapply (objects_get_dne (λ p, proc_id p = process_id self));
        [|exact E|exact Hp]; done. }
    split_and!; try done.
    + apply elem_of_app. right. by left.
    + intros p Hne. rewrite elem_of_app, list_elem_of_singleton.
      split; [intros [?| ->]; [done|by destruct Hne]|by left].
    + intros p [Hp| ->%list_elem_of_singleton]%elem_of_app Hid; [|done].
      by apply Hnone in Hp.
    + right. split_and!; try done.
      * intros (p & Hid & Hp)%list_elem_of_fmap. by eapply Hnone.
      * rewrite <- Hm. by apply list_elem_of_fmap_2.
  - tx_inv. pose proof (objects_get_single _ _ _ _ E) as Hone.
    apply objects_get_inr in E as [Hid Hin].
    assert (∀ p, p ∈ processes db → proc_id p = process_id self → p = p0)
      as Huniq.
    { intros p Hp Hp'.
      assert (p ∈ filter (λ p, proc_id p = process_id self) (processes db))
        as Hf by (by apply list_elem_of_filter).
      rewrite Hone in Hf. by apply list_elem_of_singleton in Hf. }
    simpl. split_and!; try done.
    + apply list_elem_of_fmap. exists p0. split; [|done].
      by rewrite decide_True.
    + intros p Hne. rewrite list_elem_of_fmap. split.
      * intros (q & -> & Hq). case_decide as Hd; [|done].
        simpl in Hne. congruence.
      * intros Hp. exists p. split; [|done].
        rewrite decide_False; [done|congruence].
    + intros p (q & -> & Hq)%list_elem_of_fmap Hpid.
      case_decide as Hd; simpl in Hpid.
      * by rewrite (Huniq q Hq) by congruence.
      * congruence.
    + left. split.
      * rewrite <- list_fmap_compose. apply list_fmap_ext.
        intros i q _. simpl. by case_decide.
      * exists p0. done.
Qed.

Lemma delete_processes_fk (P : RegionControllerProcess → Prop)
    `{∀ x, Decision (P x)} db :
  (∀ e, e ∈ endpoints db → ep_process e ∈ proc_id <$> processes db) →
  ∀ e, e ∈ endpoints (delete_processes P db) →
       ep_process e ∈ proc_id <$> processes (delete_processes P db).
Proof.
  intros Hfk e. simpl. intros [Hgone He]%list_elem_of_filter.
  apply Hfk in He as (q & Hid & Hq)%list_elem_of_fmap.
  apply list_elem_of_fmap. exists q. split; [done|].
  apply list_elem_of_filter. split; [|done].
  intros HP. apply Hgone. rewrite Hid. apply list_elem_of_fmap_2.
  by apply list_elem_of_filter.
Qed.

(** The sibling loop of [update], row by row. *)
Lemma reap_siblings_exact h sibs db db' :
  tx_for sibs (reap h) db = inr (tt, db') →
  regions db' = regions db ∧ endpoint_seq db' = endpoint_seq db ∧
  (∀ p, p ∈ processes db' ↔
        p ∈ processes db ∧
        ¬ ∃ s, s ∈ sibs ∧ proc_id s = proc_id p ∧
               is_pid_running h (proc_pid s) = false) ∧
  endpoints db' `sublist_of` endpoints db ∧
  (∀ e, e ∈ endpoints db → ep_process e ∉ proc_id <$> sibs →
        e ∈ endpoints db') ∧
  ((∀ e, e ∈ endpoints db → ep_process e ∈ proc_id <$> processes db) →
   ∀ e, e ∈ endpoints db' → ep_process e ∈ proc_id <$> processes db') ∧
  processes db' `sublist_of` processes db.
Proof.
  revert db. induction sibs as [|s sibs IH]; intros db H; simpl in H.
  - apply tx_ret_inr in H as [_ <-]. split_and!; try done.
    + intros p. split; [|tauto]. intros Hp. split; [done|].
      intros (s & Hs & _). by apply elem_of_nil in Hs.
  - tx_inv.
    match goal with H : tx_for _ _ _ = inr (?u, _) |- _ =>
      destruct u;
      apply IH in H as (Hr & Hseq & Hrows & Hsub & Hkeep & Hfk & Hsubp)
    end.
    match goal with H : reap _ _ _ = inr _ |- _ =>
      unfold reap in H;
      destruct (is_pid_running h (proc_pid s)) eqn:Hrun; tx_inv end.
    + split_and!; try done.
      * intros p. rewrite Hrows. split.
        -- intros [Hp Hn]. split; [done|]. intros (s' & Hs' & Hid & Hdead).
           apply elem_of_cons in Hs' as [->|Hs']; [congruence|].
           apply Hn. by exists s'.
        -- intros [Hp Hn]. split; [done|]. intros (s' & Hs' & Hid & Hdead).
           apply Hn. exists s'. split; [by right|done].
      * intros e He Hn. apply Hkeep; [done|].
        intros Hin. apply Hn. rewrite fmap_cons. by right.
    + split_and!; try done.
      * intros p. rewrite Hrows. simpl. rewrite list_elem_of_filter. split.
        -- intros [[Hne Hp] Hn]. split; [done|].
           intros (s' & Hs' & Hid & Hdead).
           apply elem_of_cons in Hs' as [->|Hs']; [congruence|].
           apply Hn. by exists s'.
        -- intros [Hp Hn]. split; [split; [|done]|].
           ++ intros Hid. apply Hn. exists s. split; [by left|done].
           ++ intros (s' & Hs' & Hid & Hdead). apply Hn.
              exists s'. split; [by right|done].
      * etrans; [exact Hsub|]. simpl. apply sublist_filter.
      * intros e He Hn. apply Hkeep.
        -- simpl. apply list_elem_of_filter. split; [|done].
           intros (q & Hid & [Hq _]%list_elem_of_filter)%list_elem_of_fmap.
           apply Hn. rewrite fmap_cons. apply elem_of_cons. left. congruence.
        -- intros Hin. apply Hn. rewrite fmap_cons. by right.
      * intros Hfk0. apply Hfk. by apply delete_processes_fk.
      * etrans; [exact Hsubp|]. simpl. apply sublist_filter.
Qed.

Lemma endpoints_ok_insert db process addr port :
  endpoints_ok db →
  (∀ e, e ∈ endpoints db →
        ¬ (ep_process e = process ∧ ep_address e = addr ∧ ep_port e = port)) →
  endpoints_ok
    (insert_endpoint {| ep_id := endpoint_seq db; ep_process := process;
                        ep_address := addr; ep_port := port |} db).
Proof.
  intros [Hi Hk Hs] Hnew. split; simpl.
  - rewrite fmap_app. apply NoDup_app. split_and!; [done| |].
    + intros i (e & -> & He)%list_elem_of_fmap Hi'.
      apply list_elem_of_singleton in Hi'. simpl in Hi'.
      apply Hs in He. lia.
    + apply NoDup_singleton.
  - rewrite fmap_app. apply NoDup_app. split_and!; [done| |].
    + intros k (e & -> & He)%list_elem_of_fmap Hk'.
      apply list_elem_of_singleton in Hk'. unfold endpoint_key in Hk'.
      simpl in Hk'. injection Hk' as ? ? ?. by eapply Hnew.
    + apply NoDup_singleton.
  - intros e [He|He]%elem_of_app.
    + apply Hs in He. lia.
    + apply list_elem_of_singleton in He as ->. simpl. lia.
Qed.

(** The endpoint loop of [update], endpoint by endpoint. *)
Lemma advertise_endpoints_inr process addrs prev db ids db' :
  advertise_endpoints process addrs prev db = inr (ids, db') →
  endpoints_ok db →
  (∀ i, i ∈ prev → i < endpoint_seq db) →
  endpoints_ok db' ∧
  (∃ new, endpoints db' = endpoints db ++ new ∧
          Forall (λ e, ep_process e = process
                       ∧ (ep_address e, ep_port e) ∈ addrs) new) ∧
  (∀ a p, (a, p) ∈ addrs →
          ∃ e, e ∈ endpoints db' ∧ ep_process e = process ∧
               ep_address e = a ∧ ep_port e = p ∧ ep_id e ∉ ids) ∧
  ids ⊆ prev ∧
  (∀ i, i ∈ prev →
        i ∈ ids ∨ ∃ e, e ∈ endpoints db ∧ ep_id e = i ∧
                       ep_process e = process ∧
                       (ep_address e, ep_port e) ∈ addrs).
Proof.
  revert prev db.
  induction addrs as [|[addr port] rest IH]; intros prev db H Hok Hlt;
    simpl in H.
  - tx_inv. split_and!; try done.
    + exists []. by rewrite app_nil_r.
    + intros a p Hin. by apply elem_of_nil in Hin.
    + intros i Hi. by left.
  - tx_inv.
    destruct (filter _ (endpoints db)) as [|e [|e' l]] eqn:E; tx_inv.
    + assert (∀ e, e ∈ endpoints db →
                   ¬ (ep_process e = process ∧ ep_address e = addr
                      ∧ ep_port e = port)) as Hnone.
      { intros e He HP.
        by eapply (filter_nil_not_elem_of
                     (λ e, ep_process e = process ∧ ep_address e = addr
                           ∧ ep_port e = port)). }
      match goal with H : advertise_endpoints _ _ _ _ = inr _ |- _ =>
        apply IH in H as (Hok' & (new & Hnew & Hall) & Hc & Hsub & Hprev)
      end.
      2:{ by apply endpoints_ok_insert. }
      2:{ intros i Hi. apply Hlt in Hi. simpl. lia. }
      simpl in Hnew. split_and!; try done.
      * eexists. rewrite Hnew, <- app_assoc. split; [reflexivity|].
        apply Forall_app. split.
        -- apply Forall_singleton. simpl. split; [done|by left].
        -- eapply Forall_impl; [exact Hall|]. simpl.
           intros e [? ?]. split; [done|by right].
      * intros a p [Heq|Hin]%elem_of_cons; [|by apply Hc].
        injection Heq as -> ->. eexists. split_and!.
        -- rewrite Hnew. apply elem_of_app. left. apply elem_of_app.
           right. by left.
        -- done.
        -- done.
        -- done.
        -- simpl. intros Hi. apply Hsub, Hlt in Hi. lia.
      * intros i Hi. destruct (Hprev i Hi) as [?|(e & He & Hid & Hp & Ha)];
          [by left|].
        simpl in He. apply elem_of_app in He as [He|He].
        -- right. exists e. split_and!; try done. by right.
        -- apply list_elem_of_singleton in He as ->. simpl in Hid.
           apply Hlt in Hi. lia.
    + case_decide as Hin; tx_inv.
      assert (e ∈ endpoints db ∧ ep_process e = process ∧
              ep_address e = addr ∧ ep_port e = port) as (He & Hp & Ha & Hpt).
      { assert (e ∈ filter (λ e, ep_process e = process ∧ ep_address e = addr
                                 ∧ ep_port e = port) (endpoints db))
          as Hf by (rewrite E; by left).
        apply list_elem_of_filter in Hf. tauto. }
      match goal with H : advertise_endpoints _ _ _ _ = inr _ |- _ =>
        apply IH in H as (Hok' & (new & Hnew & Hall) & Hc & Hsub & Hprev)
      end; [|done|].
      2:{ intros i Hi. apply Hlt. set_solver. }
      split_and!; try done.
      * exists new. split; [done|].
        eapply Forall_impl; [exact Hall|]. simpl.
        intros e' [? ?]. split; [done|by right].
      * intros a p [Heq|Hin']%elem_of_cons; [|by apply Hc].
        injection Heq as -> ->. exists e. split_and!; try done.
        -- rewrite Hnew. apply elem_of_app. by left.
        -- intros Hi. apply Hsub in Hi. set_solver.
      * set_solver.
      * intros i Hi. destruct (decide (i = ep_id e)) as [->|Hne].
        -- right. exists e. split_and!; try done. rewrite Ha, Hpt. by left.
        -- destruct (Hprev i) as [?|(e' & He' & Hid & Hp' & Ha')];
             [set_solver|by left|].
           right. exists e'. split_and!; try done. by right.
Qed.

Lemma NoDup_fmap_eq {A B} (f : A → B) (l : list A) x y :
  NoDup (f <$> l) → x ∈ l → y ∈ l → f x = f y → x = y.
Proof.
  intros Hnd Hx Hy Hf.
  destruct (list_elem_of_lookup_1 _ _ Hx) as (i & Hi).
  destruct (list_elem_of_lookup_1 _ _ Hy) as (j & Hj).
  assert (i = j) as ->; [|congruence].
  eapply (NoDup_lookup _ _ _ _ Hnd).
  - rewrite list_lookup_fmap, Hi. reflexivity.
  - rewrite list_lookup_fmap, Hj. simpl. by rewrite Hf.
Qed.

Lemma advertise_endpoints_appends process addrs prev db ids db' :
  advertise_endpoints process addrs prev db = inr (ids, db') →
  ∃ new, endpoints db' = endpoints db ++ new.
Proof.
  revert db prev. induction addrs as [|[a p] rest IH]; intros db prev H;
    simpl in H.
  - tx_inv. exists []. by rewrite app_nil_r.
  - tx_inv. destruct (filter _ (endpoints db)) as [|e [|e' l]]; tx_inv.
    + match goal with H : advertise_endpoints _ _ _ _ = inr _ |- _ =>
        apply IH in H as (new & Hnew) end.
      simpl in Hnew. eexists. by rewrite Hnew, <- app_assoc.
    + case_decide; tx_inv.
      match goal with H : advertise_endpoints _ _ _ _ = inr _ |- _ =>
        apply IH in H as (new & Hnew) end.
      by exists new.
Qed.

(** The tables after a successful [update], in terms of the tables
    before: [process] is this process's row as [getRegionProcess] left it
    in [db1], and [removed] are the endpoint ids deleted at the end. *)
Lemma update_anatomy self h addresses db interval db' :
  update self h addresses db = inr (interval, db') →
  ∃ process db1 db3 removed new,
    getRegionProcess self h
      (set_regions (fmap (saved_region self h)) db) = inr (process, db1) ∧
    regions db' = saved_region self h <$> regions db ∧
    (∀ p, p ∈ processes db' ↔
          p ∈ processes db1 ∧ ¬ stale h p ∧
          ¬ ∃ s, s ∈ processes db1 ∧ ¬ stale h s ∧
                 proc_region s = region_id self ∧
                 proc_id s ≠ process_id self ∧ proc_id s = proc_id p ∧
                 is_pid_running h (proc_pid s) = false) ∧
    processes db' `sublist_of` processes db1 ∧
    processes db3 = processes db' ∧
    endpoints db3 `sublist_of` endpoints db ∧
    endpoint_seq db3 = endpoint_seq db ∧
    ((∀ e, e ∈ endpoints db → ep_process e ∈ proc_id <$> processes db1) →
     ∀ e, e ∈ endpoints db3 → ep_process e ∈ proc_id <$> processes db3) ∧
    endpoints db' = filter (λ e, ep_id e ∉ removed) (endpoints db3 ++ new) ∧
    (if decide (size addresses = 0)
     then interval = INTERVAL_NO_ENDPOINTS ∧ new = [] ∧
          removed = endpoint_ids_of (process_id self) db3 ∧
          endpoint_seq db' = endpoint_seq db3
     else interval = INTERVAL_WITH_ENDPOINTS ∧
          ∃ db4,
            advertise_endpoints (process_id self) (elements addresses)
              (endpoint_ids_of (process_id self) db3) db3
              = inr (removed, db4) ∧
            endpoints db4 = endpoints db3 ++ new ∧
            endpoint_seq db' = endpoint_seq db4).
Proof.
  intros (region_obj & process & db1 & db3 & r & db4 & Hone & Hget & Hreap
          & Hep & -> & Honly)%update_steps.
  assert (region_obj ∈ regions db ∧ system_id region_obj = region_id self)
    as [Hin Hsys].
  { assert (region_obj ∈ filter (λ r, system_id r = region_id self)
                           (regions db)) as Hf by (rewrite Hone; by left).
    apply list_elem_of_filter in Hf. tauto. }
  assert (save_region h region_obj
            (bool_decide (hostname region_obj ≠ gethostname h)) db
          = set_regions (fmap (saved_region self h)) db) as Hsave.
  { unfold save_region, set_regions. f_equal. apply list_fmap_ext.
    intros i x Hx%list_elem_of_lookup_2. unfold saved_region.
    rewrite Hsys.
    destruct (decide (system_id x = region_id self)) as [Hd|Hd]; [|done].
    assert (x = region_obj) as ->.
    { assert (x ∈ filter (λ r, system_id r = region_id self) (regions db))
        as Hf by (by apply list_elem_of_filter).
      rewrite Hone in Hf. by apply list_elem_of_singleton in Hf. }
    f_equal. case_bool_decide as Hh; [done|].
    by destruct (decide (hostname region_obj = gethostname h)). }
  rewrite Hsave in Hget.
  pose proof (getRegionProcess_rows _ _ _ _ _ Hget)
    as (Hpid & _ & _ & Hr1 & He1 & Hs1 & _).
  rewrite Hpid in Hep.
  apply reap_siblings_exact in Hreap
    as (Hr3 & Hs3 & Hrows3 & Hsub3 & _ & Hfk3 & Hsubp3).
  destruct Honly as (Hr' & Hp' & He' & _ & Hs').
  simpl in Hr', Hp', He', Hs', Hr3, Hs3.
  assert (processes db4 = processes db3 ∧ regions db4 = regions db3 ∧
          ∃ new, endpoints db4 = endpoints db3 ++ new ∧
                 (size addresses = 0 → new = []))
    as (Hp4 & Hr4 & new & He4 & Hn).
  { destruct (decide (size addresses = 0)) as [Hz|Hz].
    - destruct Hep as [_ ->]. split_and!; try done. exists [].
      by rewrite app_nil_r.
    - destruct Hep as (ids & Hadv & _).
      split; [by eapply (advertise_endpoints_keeps processes)|].
      split; [by eapply (advertise_endpoints_keeps regions)|].
      apply advertise_endpoints_appends in Hadv as (new & Hnew).
      exists new. done. }
  exists process, db1, db3, r.2, new.
  split_and!; try done.
  - by rewrite Hr', Hr4, Hr3, Hr1.
  - intros p. rewrite Hp', Hp4, Hrows3. simpl.
    rewrite list_elem_of_filter. unfold stale. split.
    + intros [[Hfresh Hp] Hn']. split_and!; try done.
      intros (s & Hs & Hfs & Hreg & Hne & Hid & Hdead). apply Hn'.
      exists s. split; [|done]. apply list_elem_of_filter.
      split; [done|]. by apply list_elem_of_filter.
    + intros (Hp & Hfresh & Hn'). split; [done|].
      intros (s & [[Hreg Hne] [Hfs Hs]%list_elem_of_filter]%list_elem_of_filter
              & Hid & Hdead).
      apply Hn'. by exists s.
  - rewrite Hp', Hp4. etrans; [exact Hsubp3|]. simpl. apply sublist_filter.
  - by rewrite Hp', Hp4.
  - etrans; [exact Hsub3|]. simpl. rewrite He1. simpl. apply sublist_filter.
  - by rewrite Hs3, Hs1.
  - intros Hfk. apply Hfk3. apply delete_processes_fk.
    intros e He. apply Hfk. by rewrite He1 in He.
  - by rewrite He', He4.
  - destruct (decide (size addresses = 0)) as [Hz|Hz].
    + destruct Hep as [-> ->]. simpl. split_and!; try done. by apply Hn.
    + destruct Hep as (ids & Hadv & ->). simpl. split; [done|].
      exists db4. done.
Qed.

Lemma elem_of_endpoint_ids_of i process db :
  i ∈ endpoint_ids_of process db ↔
  ∃ e, e ∈ endpoints db ∧ ep_process e = process ∧ ep_id e = i.
Proof.
  unfold endpoint_ids_of. rewrite elem_of_list_to_set, list_elem_of_fmap.
  split.
  - intros (e & -> & [? ?]%list_elem_of_filter). by exists e.
  - intros (e & He & Hp & <-). exists e. split; [done|].
    by apply list_elem_of_filter.
Qed.

(** The endpoints after a successful [update]. *)
Lemma update_endpoints_exact self h addresses db interval db' :
  update self h addresses db = inr (interval, db') →
  endpoints_ok db →
  interval = (if decide (addresses = ∅) then 2 else 60) ∧
  (∀ a p, (∃ e, e ∈ endpoints db' ∧ ep_process e = process_id self ∧
                ep_address e = a ∧ ep_port e = p)
          ↔ (a, p) ∈ addresses) ∧
  (∀ e, e ∈ endpoints db' → ep_process e ≠ process_id self →
        e ∈ endpoints db).
Proof.
  intros E Hok.
  destruct (update_anatomy _ _ _ _ _ _ E)
    as (process & db1 & db3 & removed & new & _ & _ & _ & _ & _ & Hsub3
        & Hseq3 & _ & Hends & Hcase).
  pose proof (endpoints_ok_sublist _ _ Hok Hsub3 Hseq3) as Hok3.
  assert (∀ i, i ∈ endpoint_ids_of (process_id self) db3 →
               i < endpoint_seq db3) as Hlt.
  { intros i (e & He & _ & <-)%elem_of_endpoint_ids_of.
    by apply (ok_seq _ Hok3). }
  destruct (decide (size addresses = 0)) as [Hz|Hz].
  - destruct Hcase as (-> & -> & -> & _).
    apply size_empty_inv in Hz. apply leibniz_equiv in Hz. subst addresses.
    rewrite decide_True by done. split; [done|].
    rewrite app_nil_r in Hends. rewrite Hends. split.
    + intros a p. split; [|set_solver].
      intros (e & [Hn He]%list_elem_of_filter & Hpe & _). exfalso.
      apply Hn. apply elem_of_endpoint_ids_of. by exists e.
    + intros e [_ He]%list_elem_of_filter _. by eapply elem_of_sublist.
  - destruct Hcase as (-> & db4 & Hadv & He4 & _).
    rewrite decide_False.
    2:{ intros ->. by rewrite size_empty in Hz. }
    split; [done|].
    apply advertise_endpoints_inr in Hadv
      as (_ & (new' & Hnew' & Hall) & Hc & Hsubset & Hprev); [|done..].
    rewrite He4 in Hnew'. apply app_inv_head in Hnew' as <-.
    rewrite Hends. split.
    + intros a p. split.
      * intros (e & [Hn He]%list_elem_of_filter & Hpe & <- & <-).
        apply elem_of_elements.
        apply elem_of_app in He as [He|He].
        -- destruct (Hprev (ep_id e)) as [?|(e' & He' & Hid & _ & Hk)];
             [apply elem_of_endpoint_ids_of; by exists e|done|].
           by rewrite <- (NoDup_fmap_eq ep_id _ e' e (ok_ids _ Hok3)).
        -- rewrite Forall_forall in Hall. by apply Hall in He as [_ ?].
      * intros Hin%elem_of_elements.
        destruct (Hc a p Hin) as (e & He & Hpe & Ha & Hpt & Hn).
        exists e. split; [|done]. apply list_elem_of_filter.
        split; [done|]. by rewrite <- He4.
    + intros e [_ He]%list_elem_of_filter Hne.
      apply elem_of_app in He as [He|He]; [by eapply elem_of_sublist|].
      rewrite Forall_forall in Hall. by apply Hall in He as [? _].
Qed.

(** The row of this process after a successful [update]. *)
Lemma update_own_row self h addresses db interval db' :
  update self h addresses db = inr (interval, db') →
  ∃ process,
    process ∈ processes db' ∧ proc_id process = process_id self ∧
    proc_updated process = now h ∧
    ((∃ p0, p0 ∈ processes db ∧ proc_id p0 = process_id self ∧
            proc_region p0 = proc_region process ∧
            proc_pid p0 = proc_pid process ∧
            proc_created p0 = proc_created process)
     ∨ ((∀ p, p ∈ processes db → proc_id p ≠ process_id self) ∧
        process = new_process h (process_id self) (maas_id h))).
Proof.
  intros E.
  destruct (update_anatomy _ _ _ _ _ _ E)
    as (process & db1 & db3 & removed & new & Hget & _ & Hrows & _).
  apply getRegionProcess_rows in Hget
    as (Hid & Hin & Hnow & _ & _ & _ & _ & _ & Hcase).
  exists process. split_and!; try done.
  - apply Hrows. unfold stale, TTL. split_and!; [done|lia|].
    intros (s & _ & _ & _ & Hne & Hids & _). congruence.
  - destruct Hcase as [(_ & p0 & Hp0)|(Hnone & _ & -> & _)];
      [left; by exists p0|right].
    split; [|done]. intros p Hp Hpid. apply Hnone. simpl.
    rewrite <- Hpid. by apply list_elem_of_fmap_2.
Qed.

(** X5. On tables that respect their keys, with the region controller of
    this process present, and the row of this process in the table -- or,
    for it to be put back, the region controller of this host present and
    no other row holding this host's region and pid -- [update] returns 2
    (seconds) when it is given no address and 60 otherwise, and afterwards
    the endpoints of this process are exactly the addresses it was given:
    one for each (address, port), none for anything else.  It creates no
    endpoint for another process. *)
Theorem update_advertises_addresses self h addresses db :
  endpoints_ok db →
  NoDup (system_id <$> regions db) →
  NoDup (proc_id <$> processes db) →
  (∃ r, r ∈ regions db ∧ system_id r = region_id self) →
  ((∃ p, p ∈ processes db ∧ proc_id p = process_id self)
   ∨ ((∃ r, r ∈ regions db ∧ system_id r = maas_id h) ∧
      ∀ p, p ∈ processes db →
           ¬ (proc_region p = maas_id h ∧ proc_pid p = getpid h))) →
  ∃ db',
    update self h addresses db
      = inr (if decide (addresses = ∅) then 2 else 60, db') ∧
    (∀ a p, (∃ e, e ∈ endpoints db' ∧ ep_process e = process_id self ∧
                  ep_address e = a ∧ ep_port e = p)
            ↔ (a, p) ∈ addresses) ∧
    (∀ e, e ∈ endpoints db' → ep_process e ≠ process_id self →
          e ∈ endpoints db).
Proof.
  intros Hok Hr Hp Hreg Hown.
  destruct (update_succeeds self h addresses db Hok Hr Hp Hreg Hown)
    as (interval & db' & E).
  exists db'.
  destruct (update_endpoints_exact _ _ _ _ _ _ E Hok) as (<- & Hex & Hoth).
  done.
Qed.

(** X6. Which rows of other processes survive a tick: a row other than
    this process's own is still there after [update] exactly when it was
    refreshed less than 90 seconds ago and, if it belongs to this
    process's region, its pid is running on this host. *)
Theorem update_survivors self h addresses db interval db' p :
  update self h addresses db = inr (interval, db') →
  NoDup (proc_id <$> processes db) →
  p ∈ processes db → proc_id p ≠ process_id self →
  (p ∈ processes db' ↔
     (now h - 90 < proc_updated p)%Z ∧
     (proc_region p = region_id self →
      is_pid_running h (proc_pid p) = true)).
Proof.
  intros E Hnd Hp Hne.
  destruct (update_anatomy _ _ _ _ _ _ E)
    as (process & db1 & db3 & removed & new & Hget & _ & Hrows & _).
  apply getRegionProcess_rows in Hget as (_ & _ & _ & _ & _ & _ & Hsame & _).
  simpl in Hsame. rewrite Hrows. unfold stale, TTL. split.
  - intros (_ & Hfresh & Hn). split; [lia|]. intros Hreg.
    destruct (is_pid_running h (proc_pid p)) eqn:Hrun; [done|].
    exfalso. apply Hn. exists p.
    split_and!; try done; [by apply Hsame|lia..].
  - intros [Hfresh Hrun]. split_and!.
    + by apply Hsame.
    + lia.
    + intros (s & Hs & _ & Hreg & Hnes & Hid & Hdead).
      apply Hsame in Hs; [|done].
      assert (s = p) as -> by (by eapply (NoDup_fmap_eq proc_id)).
      rewrite Hrun in Hdead; done.
Qed.

(** X7. [update] neither adds nor removes a region controller: when it
    returns, the rows of the other region controllers are as they were,
    and the row of this process's one carries this host's name and the
    present time. *)
Theorem update_saves_region self h addresses db interval db' :
  update self h addresses db = inr (interval, db') →
  regions db' =
    (λ r, if decide (system_id r = region_id self)
          then {| system_id := system_id r; hostname := gethostname h;
                  region_updated := now h |}
          else r) <$> regions db.
Proof.
  intros E.
  destruct (update_anatomy _ _ _ _ _ _ E)
    as (process & db1 & db3 & removed & new & _ & Hregs & _).
  exact Hregs.
Qed.

(** X8. [update] restores the row of this process when it is missing
    (a peer has collected it, or [demote] has run): on tables that respect
    their keys, with the region controller of this process and the one of
    this host present, and no row left that holds this host's region and
    pid, [update] returns and the row is back under the same primary key,
    for this host's region and pid, created and refreshed now. *)
Theorem update_restores_own_row self h addresses db :
  endpoints_ok db →
  NoDup (system_id <$> regions db) →
  NoDup (proc_id <$> processes db) →
  (∃ r, r ∈ regions db ∧ system_id r = region_id self) →
  (∃ r, r ∈ regions db ∧ system_id r = maas_id h) →
  (∀ p, p ∈ processes db → proc_id p ≠ process_id self) →
  (∀ p, p ∈ processes db →
        ¬ (proc_region p = maas_id h ∧ proc_pid p = getpid h)) →
  ∃ interval db',
    update self h addresses db = inr (interval, db') ∧
    {| proc_id := process_id self; proc_region := maas_id h;
       proc_pid := getpid h; proc_created := now h;
       proc_updated := now h |} ∈ processes db'.
Proof.
  intros Hok Hr Hp Hreg Hhost Hmiss Hfree.
  destruct (update_succeeds self h addresses db Hok Hr Hp Hreg)
    as (interval & db' & E); [by right|].
  exists interval, db'. split; [exact E|].
  destruct (update_own_row _ _ _ _ _ _ E)
    as (process & Hin & _ & _ & [(p0 & Hp0 & Hid0 & _)|(_ & ->)]);
    [by apply Hmiss in Hp0|exact Hin].
Qed.

(** ** The tables stay in order *)

Lemma getRegionProcess_seq self h db process db1 :
  getRegionProcess self h db = inr (process, db1) →
  (∀ p, p ∈ processes db → proc_id p < process_seq db) →
  ∀ p, p ∈ processes db1 → proc_id p < process_seq db1.
Proof.
  unfold getRegionProcess. intros H Hseq. tx_inv.
  destruct (objects_get _ (processes db) _) as [e|p0] eqn:E.
  - destruct e; tx_inv; try discriminate.
    match goal with
    | H : get_running_controller _ _ = inr _ |- _ =>
        unfold get_running_controller in H; tx_inv
    end.
    simpl. intros p [Hp| ->%list_elem_of_singleton]%elem_of_app.
    + apply Hseq in Hp. lia.
    + simpl. lia.
  - tx_inv. simpl. intros p (q & -> & Hq)%list_elem_of_fmap.
    apply Hseq in Hq. by case_decide.
Qed.

Lemma reap_keeps_process_seq h sibs :
  keeps process_seq (tx_for sibs (reap h)).
Proof.
  apply keeps_for. intros s _ db b db' H. unfold reap in H.
  destruct (is_pid_running h (proc_pid s)); by tx_inv.
Qed.

Lemma update_process_seq self h addresses db interval db' :
  update self h addresses db = inr (interval, db') →
  (∀ p, p ∈ processes db → proc_id p < process_seq db) →
  ∀ p, p ∈ processes db' → proc_id p < process_seq db'.
Proof.
  intros E Hseq p Hp.
  destruct (update_anatomy _ _ _ _ _ _ E)
    as (process & db1 & db3' & removed & new & Hget & _ & _ & Hsub & _).
  pose proof (getRegionProcess_seq _ _ _ _ _ Hget Hseq) as Hseq1.
  assert (process_seq db' = process_seq db1) as ->.
  { apply update_steps in E
      as (region_obj & process' & db1' & db3 & r & db4 & Hone & Hget'
          & Hreap & Hep & _ & Honly).
    destruct Honly as (_ & _ & _ & -> & _). simpl.
    assert (process_seq db4 = process_seq db3) as ->.
    { destruct (decide (size addresses = 0)).
      - by destruct Hep as [_ ->].
      - destruct Hep as (ids & Hadv & _).
        by eapply (advertise_endpoints_keeps process_seq). }
    apply reap_keeps_process_seq in Hreap. simpl in Hreap. rewrite Hreap.
    assert (system_id region_obj = region_id self) as Hsys.
    { assert (region_obj ∈ filter (λ r, system_id r = region_id self)
                             (regions db)) as Hf by (rewrite Hone; by left).
      by apply list_elem_of_filter in Hf as [? _]. }
    assert (save_region h region_obj
              (bool_decide (hostname region_obj ≠ gethostname h)) db
            = set_regions (fmap (saved_region self h)) db) as Hsave.
    { unfold save_region, set_regions. f_equal. apply list_fmap_ext.
      intros i x Hx%list_elem_of_lookup_2. unfold saved_region.
      rewrite Hsys.
      destruct (decide (system_id x = region_id self)) as [Hd|Hd]; [|done].
      assert (x = region_obj) as ->.
      { assert (x ∈ filter (λ r, system_id r = region_id self) (regions db))
          as Hf by (by apply list_elem_of_filter).
        rewrite Hone in Hf. by apply list_elem_of_singleton in Hf. }
      f_equal. case_bool_decide as Hh; [done|].
      by destruct (decide (hostname region_obj = gethostname h)). }
    rewrite Hsave in Hget'. congruence. }
  apply Hseq1. by eapply elem_of_sublist.
Qed.

(** One tick keeps the tables in order and leaves the row of this
    process in place. *)
Lemma update_keeps_tables self h addresses db interval db' :
  tables_ok db →
  update self h addresses db = inr (interval, db') →
  tables_ok db' ∧
  system_id <$> regions db' = system_id <$> regions db ∧
  (∃ p, p ∈ processes db' ∧ proc_id p = process_id self) ∧
  interval = (if decide (addresses = ∅) then 2 else 60).
Proof.
  intros [Hok Hr Hp Hseq Hpfk Hefk] E.
  pose proof (update_process_seq _ _ _ _ _ _ E Hseq) as Hseq'.
  destruct (update_anatomy _ _ _ _ _ _ E)
    as (process & db1 & db3 & removed & new & Hget & Hregs & Hrows & Hsubp
        & Hp3 & Hsub3 & Hseq3 & Hfk3 & Hends & Hcase).
  apply getRegionProcess_rows in Hget
    as (Hid & Hin & Hnow & _ & _ & _ & Hsame & Huniq & Hids).
  simpl in Hsame, Hids.
  assert (system_id <$> regions db' = system_id <$> regions db) as Hsys.
  { rewrite Hregs, <- list_fmap_compose. apply list_fmap_ext.
    intros i x _. unfold saved_region. simpl.
    by destruct (decide (system_id x = region_id self)). }
  assert (process ∈ processes db') as Hown.
  { apply Hrows. unfold stale, TTL. split_and!; [done|lia|].
    intros (s & _ & _ & _ & Hne & Hids' & _). congruence. }
  pose proof (endpoints_ok_sublist _ _ Hok Hsub3 Hseq3) as Hok3.
  assert (∀ i, i ∈ endpoint_ids_of (process_id self) db3 →
               i < endpoint_seq db3) as Hlt.
  { intros i (e & He & _ & <-)%elem_of_endpoint_ids_of.
    by apply (ok_seq _ Hok3). }
  assert (NoDup (proc_id <$> processes db1) ∧
          ∀ i, i ∈ proc_id <$> processes db → i ∈ proc_id <$> processes db1)
    as [Hnd1 Hsup1].
  { destruct Hids as [[-> _]|(Hnew & -> & _)]; [done|].
    rewrite fmap_app. split; [|set_solver].
    apply NoDup_app. split_and!; [done| |apply NoDup_singleton].
    intros i Hi ->%list_elem_of_singleton. simpl in Hnew.
    by rewrite Hid in Hi. }
  assert (endpoints_ok db' ∧
          Forall (λ e, ep_process e = process_id self) new ∧
          interval = (if decide (addresses = ∅) then 2 else 60))
    as (Hok' & Hnew & Hint).
  { destruct (decide (size addresses = 0)) as [Hz|Hz].
    - destruct Hcase as (-> & -> & -> & Hs').
      apply size_empty_inv in Hz. apply leibniz_equiv in Hz.
      subst addresses. rewrite decide_True by done. split_and!; try done.
      apply (endpoints_ok_sublist db3); [done| |done].
      rewrite Hends, app_nil_r. apply sublist_filter.
    - destruct Hcase as (-> & db4 & Hadv & He4 & Hs').
      rewrite decide_False.
      2:{ intros ->. by rewrite size_empty in Hz. }
      apply advertise_endpoints_inr in Hadv
        as (Hok4 & (new' & Hnew' & Hall) & _); [|done..].
      rewrite He4 in Hnew'. apply app_inv_head in Hnew' as <-.
      split_and!; try done.
      + apply (endpoints_ok_sublist db4); [done| |done].
        rewrite Hends, He4. apply sublist_filter.
      + eapply Forall_impl; [exact Hall|]. simpl. tauto. }
  split_and!; try done.
  - split; try done.
    + by rewrite Hsys.
    + eapply sublist_NoDup; [exact Hnd1|]. by apply fmap_sublist.
    + intros p Hp'.
      assert (p ∈ processes db1) as Hp1 by (by eapply elem_of_sublist).
      destruct (decide (proc_id p = process_id self)) as [Heq|Hne].
      * rewrite (Huniq p Hp1 Heq).
        destruct Hids as [(_ & p0 & Hp0 & _ & <- & _)|(_ & _ & -> & Hm)].
        -- rewrite Hsys. by apply Hpfk.
        -- rewrite Hregs. exact Hm.
      * rewrite Hsys. apply Hpfk. by apply Hsame.
    + intros e. rewrite Hends.
      intros [_ [He|He]%elem_of_app]%list_elem_of_filter.
      * rewrite <- Hp3. apply Hfk3; [|done].
        intros e' He'. by apply Hsup1, Hefk.
      * rewrite Forall_forall in Hnew. rewrite (Hnew e He), <- Hid.
        by apply list_elem_of_fmap_2.
  - by exists process.
Qed.

Lemma ticks_never_fail_aux self ts db :
  tables_ok db →
  (∃ r, r ∈ regions db ∧ system_id r = region_id self) →
  (∃ p, p ∈ processes db ∧ proc_id p = process_id self) →
  ∃ db',
    ticks self ts db
      = inr ((λ t, if decide (t.2 = ∅) then 2 else 60) <$> ts, db') ∧
    tables_ok db'.
Proof.
  revert db. induction ts as [|[h addresses] ts IH]; intros db Hok Hreg Hown.
  - by exists db.
  - destruct (update_succeeds self h addresses db)
      as (interval & db1 & E);
      [apply Hok..|done|by left|].
    destruct (update_keeps_tables _ _ _ _ _ _ Hok E)
      as (Hok1 & Hsys & Hown1 & ->).
    destruct (IH db1 Hok1) as (db' & E' & Hok'); [|done|].
    { destruct Hreg as (r & Hr & Hid).
      assert (region_id self ∈ system_id <$> regions db1) as Hin.
      { rewrite Hsys, <- Hid. by apply list_elem_of_fmap_2. }
      apply list_elem_of_fmap in Hin as (r1 & ? & ?). by exists r1. }
    exists db'. split; [|done]. simpl.
    rewrite (tx_bind_ok _ _ db _ db1 E).
    by rewrite (tx_bind_ok _ _ db1 _ db' E').
Qed.

(** X9. Once the tables are in order, with the region controller and the
    row of this process in place, no advertising tick fails, whatever the
    times, hosts and addresses of the ticks: every [update] returns, 2 when
    it is given no address and 60 otherwise, and the tables are in order
    again after the last one. *)
Theorem ticks_never_fail self ts db :
  tables_ok db →
  (∃ r, r ∈ regions db ∧ system_id r = region_id self) →
  (∃ p, p ∈ processes db ∧ proc_id p = process_id self) →
  ∃ db',
    ticks self ts db
      = inr ((λ t, if decide (t.2 = ∅) then 2 else 60) <$> ts, db') ∧
    tables_ok db'.
Proof. apply ticks_never_fail_aux. Qed.

(** [promote] keeps the tables in order. *)
Lemma promote_keeps_tables h db adv db1 :
  tables_ok db → promote h db = inr (adv, db1) → tables_ok db1.
Proof.
  intros [Hok Hr Hp Hseq Hpfk Hefk] Hpromote.
  apply promote_inr in Hpromote as (region_obj & Hreg & _ & Hcase).
  destruct Hcase as [(_ & _ & ->)|(_ & _ & _ & ->)]; [|done].
  assert (maas_id h ∈ system_id <$> regions db) as Hin.
  { assert (region_obj ∈ filter (λ r, system_id r = maas_id h) (regions db))
      as Hf by (rewrite Hreg; by left).
    apply list_elem_of_filter in Hf as [<- ?].
    by apply list_elem_of_fmap_2. }
  split; simpl.
  - by destruct Hok.
  - done.
  - rewrite fmap_app. apply NoDup_app.
    split_and!; [done| |apply NoDup_singleton].
    intros i (p & -> & Hp')%list_elem_of_fmap Heq%list_elem_of_singleton.
    apply Hseq in Hp'. simpl in Heq. lia.
  - intros p [Hp'| ->%list_elem_of_singleton]%elem_of_app.
    + apply Hseq in Hp'. lia.
    + simpl. lia.
  - intros p [Hp'| ->%list_elem_of_singleton]%elem_of_app; [by apply Hpfk|].
    done.
  - intros e He. rewrite fmap_app. apply elem_of_app. left. by apply Hefk.
Qed.

Lemma NoDup_all_eq {A} (l : list A) x :
  NoDup l → x ∈ l → (∀ y, y ∈ l → y = x) → l = [x].
Proof.
  intros Hnd Hx Hall. destruct l as [|y l]; [by apply elem_of_nil in Hx|].
  rewrite (Hall y) by (by left). f_equal.
  apply NoDup_cons in Hnd as [Hy Hnd].
  apply elem_of_nil_inv. intros z Hz.
  assert (z = y) as -> by (rewrite (Hall y) by (by left); apply Hall;
                           by right).
  done.
Qed.

Lemma update_keeps_sole_row self h0 h addresses db interval db' :
  tables_ok db →
  update self h addresses db = inr (interval, db') →
  sole_row self h0 db → sole_row self h0 db'.
Proof.
  intros Hok E (p & Hp & Hid).
  destruct (update_keeps_tables _ _ _ _ _ _ Hok E) as (Hok' & _).
  assert (p ∈ processes db ∧ proc_region p = region_id self
          ∧ proc_pid p = getpid h0) as (Hin & Hreg & Hpid).
  { assert (p ∈ filter (λ p, proc_region p = region_id self
                             ∧ proc_pid p = getpid h0) (processes db))
      as Hf by (rewrite Hp; by left).
    apply list_elem_of_filter in Hf. tauto. }
  destruct (update_own_row _ _ _ _ _ _ E)
    as (process & Hin' & Hid' & _ & Hcase).
  destruct Hcase as [(p0 & Hp0 & Hid0 & Hreg0 & Hpid0 & _)|[Hnone _]];
    [|by apply Hnone in Hin].
  assert (p0 = p) as ->.
  { eapply (NoDup_fmap_eq proc_id); [apply Hok|done..|congruence]. }
  exists process. split; [|done].
  apply NoDup_all_eq.
  - apply NoDup_filter. eapply NoDup_fmap_1. apply Hok'.
  - apply list_elem_of_filter. split; [split; congruence|done].
  - intros q [[Hqr Hqp] Hq]%list_elem_of_filter.
    destruct (decide (proc_id q = process_id self)) as [Heq|Hne].
    + eapply (NoDup_fmap_eq proc_id); [apply Hok'|done..|congruence].
    + exfalso.
      destruct (update_anatomy _ _ _ _ _ _ E)
        as (process' & db1 & db3 & removed & new & Hget & _ & Hrows & _).
      apply getRegionProcess_rows in Hget
        as (_ & _ & _ & _ & _ & _ & Hsame & _).
      apply Hrows in Hq as (Hq & _). apply Hsame in Hq; [|done].
      simpl in Hq.
      assert (q ∈ filter (λ p, proc_region p = region_id self
                               ∧ proc_pid p = getpid h0) (processes db))
        as Hf by (by apply list_elem_of_filter).
      rewrite Hp in Hf. apply list_elem_of_singleton in Hf as ->. done.
Qed.

Lemma ticks_keep_sole_row self h0 ts db intervals db' :
  tables_ok db →
  ticks self ts db = inr (intervals, db') →
  sole_row self h0 db →
  sole_row self h0 db' ∧ tables_ok db' ∧
  system_id <$> regions db' = system_id <$> regions db.
Proof.
  revert db intervals. induction ts as [|[h addresses] ts IH];
    intros db intervals Hok H Hsole; simpl in H.
  - by tx_inv.
  - tx_inv.
    match goal with H : update _ _ _ _ = inr _ |- _ => rename H into E end.
    match goal with H : ticks _ _ _ = inr _ |- _ => rename H into E' end.
    destruct (update_keeps_tables _ _ _ _ _ _ Hok E) as (Hok1 & Hsys & _).
    pose proof (update_keeps_sole_row _ h0 _ _ _ _ _ Hok E Hsole) as Hsole1.
    destruct (IH _ _ Hok1 E' Hsole1) as (? & ? & Hsys').
    split_and!; try done. congruence.
Qed.

(** X10. The whole life of an advertising process: on tables in order,
    when [promote] has returned, every tick after it returns (2 for a tick
    without addresses, 60 otherwise), and so does a [demote] after the last
    tick, which leaves no row under the id of the process. *)
Theorem promoted_process_never_fails h db adv db1 ts :
  tables_ok db →
  promote h db = inr (adv, db1) →
  ∃ db2 db3,
    ticks adv ts db1
      = inr ((λ t, if decide (t.2 = ∅) then 2 else 60) <$> ts, db2) ∧
    demote adv h db2 = inr (tt, db3) ∧
    (∀ p, p ∈ processes db3 → proc_id p ≠ process_id adv).
Proof.
  intros Hok Hpromote.
  pose proof (promote_keeps_tables _ _ _ _ Hok Hpromote) as Hok1.
  destruct (promote_inr _ _ _ _ Hpromote) as (region_obj & Hreg & Hrid & Hc).
  assert (regions db1 = regions db) as Hregs.
  { by destruct Hc as [(_ & _ & ->)|(_ & _ & _ & ->)]. }
  assert (sole_row adv h db1) as Hsole.
  { unfold sole_row. rewrite Hrid.
    destruct Hc as [(Hnone & Hpk & ->)|(p & Hone & Hpk & ->)].
    - exists (new_process h (process_seq db) (maas_id h)). simpl.
      rewrite filter_app, Hnone, app_nil_l.
      by rewrite filter_cons_True by done.
    - by exists p. }
  assert (system_id region_obj = region_id adv ∧ region_obj ∈ regions db1)
    as [Hsys Hin].
  { assert (region_obj ∈ filter (λ r, system_id r = maas_id h) (regions db))
      as Hf by (rewrite Hreg; by left).
    apply list_elem_of_filter in Hf as [? ?]. split; congruence. }
  destruct (ticks_never_fail_aux adv ts db1) as (db2 & E & _);
    [done|by exists region_obj| |].
  { destruct Hsole as (p & Hp & Hid). exists p. split; [|done].
    assert (p ∈ filter (λ p, proc_region p = region_id adv
                             ∧ proc_pid p = getpid h) (processes db1))
      as Hf by (rewrite Hp; by left).
    by apply list_elem_of_filter in Hf as [_ ?]. }
  destruct (ticks_keep_sole_row _ h _ _ _ _ Hok1 E Hsole)
    as ((p & Hp & Hid) & Hok2 & Hsys2).
  assert (∃ r, filter (λ r, system_id r = region_id adv) (regions db2) = [r])
    as (r & Hr).
  { destruct (filter_by_key system_id (regions db2) (region_id adv))
      as [Hnil|(r & _ & _ & Hr)]; [apply Hok2| |by exists r].
    exfalso.
    assert (region_id adv ∈ system_id <$> regions db2) as Hm.
    { rewrite Hsys2, <- Hsys. by apply list_elem_of_fmap_2. }
    apply list_elem_of_fmap in Hm as (r & Hid' & Hr).
    by apply (filter_nil_not_elem_of (λ r, system_id r = region_id adv)
                _ r Hnil). }
  assert (system_id r = region_id adv) as Hsysr.
  { assert (r ∈ filter (λ r, system_id r = region_id adv) (regions db2))
      as Hf by (rewrite Hr; by left).
    by apply list_elem_of_filter in Hf as [? _]. }
  exists db2, (delete_processes (λ q, proc_id q = proc_id p) db2).
  split_and!; [exact E| |].
  - unfold demote.
    rewrite (tx_bind_ok _ _ db2 (regions db2) db2 eq_refl).
    rewrite Hr. simpl.
    rewrite (tx_bind_ok _ _ db2 tt
               (delete_processes (λ q, proc_id q = proc_id p) db2)); [done|].
    rewrite (tx_bind_ok _ _ db2 (processes db2) db2 eq_refl).
    rewrite (tx_bind_ok _ _ db2 p db2); [done|].
    unfold tx_lift. rewrite Hsysr.
    by rewrite (objects_get_of_single _ _ _ p).
  - simpl. intros q [Hne _]%list_elem_of_filter. congruence.
Qed.

(** ** [dump] *)

Lemma bind_partition {A B K} `{EqDecision K} (key : B → K) (f : A → K)
    (ks : list B) (l : list A) :
  NoDup (key <$> ks) → (∀ x, x ∈ l → f x ∈ key <$> ks) →
  (ks ≫= λ k, filter (λ x, f x = key k) l) ≡ₚ l.
Proof.
  revert l. induction ks as [|k ks IH]; intros l Hnd Hin.
  - destruct l as [|x l]; [done|].
    specialize (Hin x ltac:(by left)). by apply elem_of_nil in Hin.
  - rewrite fmap_cons in Hnd. apply NoDup_cons in Hnd as [Hk Hnd].
    rewrite bind_cons.
    etrans; [|apply (filter_app_complement (λ x, f x = key k) l)].
    apply Permutation_app; [done|].
    etrans; [|apply (IH (filter (λ x, ¬ f x = key k) l)); [done|]].
    + apply reflexive_eq. apply Forall_bind_ext. apply Forall_forall.
      intros k' Hk'. rewrite list_filter_filter. apply list_filter_iff.
      intros x. split; [|tauto]. intros Hx. split; [done|].
      intros Heq. apply Hk. rewrite <- Heq, Hx. by apply list_elem_of_fmap_2.
    + intros x [Hne Hx]%list_elem_of_filter.
      specialize (Hin x Hx). rewrite fmap_cons in Hin.
      apply elem_of_cons in Hin as [?|?]; done.
Qed.

Lemma bind_bind {A B C} (f : A → list B) (g : B → list C) (l : list A) :
  (l ≫= λ x, f x ≫= g) = (l ≫= f) ≫= g.
Proof.
  induction l as [|x l IH]; [done|].
  by rewrite !bind_cons, bind_app, IH.
Qed.

Lemma bind_fmap_out {A B C} (f : A → list B) (g : B → C) (l : list A) :
  (l ≫= λ x, g <$> f x) = g <$> (l ≫= f).
Proof.
  induction l as [|x l IH]; [done|].
  by rewrite !bind_cons, fmap_app, IH.
Qed.

(** X11. On tables in order [dump] lists every endpoint exactly once: its
    (address, port) pairs are those of the endpoint table, up to order. *)
Theorem dump_lists_every_endpoint db :
  tables_ok db →
  (λ x, (x.1.2, x.2)) <$> dump db
    ≡ₚ (λ e, (ep_address e, ep_port e)) <$> endpoints db.
Proof.
  intros [Hok Hr Hp _ Hpfk Hefk]. unfold dump.
  rewrite <- bind_fmap_out.
  erewrite (Forall_bind_ext _ _ (regions db)).
  2:{ apply Forall_forall. intros r _. rewrite <- bind_fmap_out.
      apply Forall_bind_ext. apply Forall_forall. intros p _.
      rewrite <- list_fmap_compose. reflexivity. }
  simpl.
  rewrite (bind_bind
             (λ r, filter (λ p, proc_region p = system_id r) (processes db))
             (λ p, (λ e, (ep_address e, ep_port e))
                     <$> filter (λ e, ep_process e = proc_id p)
                           (endpoints db))).
  rewrite (bind_partition system_id proc_region) by done.
  rewrite bind_fmap_out.
  by rewrite (bind_partition proc_id ep_process) by done.
Qed.

(** X12. What a tick advertises shows in [dump]: for a process on its own
    region's host whose row is in the table, for this region and pid --
    or can be put back, no other row holding this region and pid --
    [update] returns and [dump] then lists every address it was given
    under the name made of this host's name and pid. *)
Theorem update_shows_in_dump self h addresses db :
  endpoints_ok db →
  NoDup (system_id <$> regions db) →
  NoDup (proc_id <$> processes db) →
  (∃ r, r ∈ regions db ∧ system_id r = region_id self) →
  maas_id h = region_id self →
  (∀ p, p ∈ processes db → proc_id p = process_id self →
        proc_region p = region_id self ∧ proc_pid p = getpid h) →
  ((∃ p, p ∈ processes db ∧ proc_id p = process_id self)
   ∨ ∀ p, p ∈ processes db →
          ¬ (proc_region p = region_id self ∧ proc_pid p = getpid h)) →
  ∃ interval db',
    update self h addresses db = inr (interval, db') ∧
    ∀ a p, (a, p) ∈ addresses →
           ((gethostname h ++ ":pid=" ++ pretty (getpid h))%string, a, p)
             ∈ dump db'.
Proof.
  intros Hok Hr Hp (r & Hin & Hsys) Hmaas Hrow Hown.
  destruct (update_succeeds self h addresses db Hok Hr Hp)
    as (interval & db' & E); [by exists r| |].
  { destruct Hown as [?|Hfree]; [by left|right]. rewrite Hmaas.
    split; [by exists r|exact Hfree]. }
  exists interval, db'. split; [exact E|].
  intros a p Hap.
  destruct (update_endpoints_exact _ _ _ _ _ _ E Hok) as (_ & Hex & _).
  apply Hex in Hap as (e & He & Hpe & <- & <-).
  destruct (update_own_row _ _ _ _ _ _ E)
    as (process & Hpin & Hpid & _ & Hcase).
  assert (proc_region process = region_id self ∧ proc_pid process = getpid h)
    as [Hreg Hpp].
  { destruct Hcase as [(p0 & Hp0 & Hid0 & <- & <- & _)|(_ & ->)].
    - by apply Hrow.
    - done. }
  destruct (update_anatomy _ _ _ _ _ _ E)
    as (_ & _ & _ & _ & _ & _ & Hregs & _).
  unfold dump. apply list_elem_of_bind.
  exists {| system_id := system_id r; hostname := gethostname h;
            region_updated := now h |}.
  split.
  - simpl. apply list_elem_of_bind. exists process. split.
    + apply list_elem_of_fmap. exists e. split.
      * by rewrite Hpp.
      * apply list_elem_of_filter. split; [congruence|done].
    + apply list_elem_of_filter. split; [congruence|done].
  - rewrite Hregs. apply list_elem_of_fmap. exists r. split; [|done].
    unfold saved_region. by rewrite decide_True.
Qed.

(** ** Witnesses *)

Lemma db0_tables_ok : tables_ok db0.
Proof.
  split.
  - exact db0_endpoints_ok.
  - compute_done.
  - compute_done.
  - intros p Hp.
    repeat (apply elem_of_cons in Hp as [->|Hp]; [simpl; lia|]).
    by apply elem_of_nil in Hp.
  - intros p Hp.
    repeat (apply elem_of_cons in Hp as [->|Hp]; [compute_done|]).
    by apply elem_of_nil in Hp.
  - intros e He.
    repeat (apply elem_of_cons in He as [->|He]; [compute_done|]).
    by apply elem_of_nil in He.
Defined.

Lemma promote_twice_witness :
  promote host0 db0 = inr (self0, db0) ∧
  region_id self0 = maas_id host0 ∧
  ∃ p, filter (λ p, proc_region p = maas_id host0
                    ∧ proc_pid p = getpid host0)
         (processes db0) = [p] ∧
       proc_id p = process_id self0.
Proof.
  apply (promote_twice host0 db0 self0 db0). vm_compute. reflexivity.
Defined.


Lemma demote_undoes_promote_witness :
  ∃ db2,
    demote self0 host0 db0 = inr (tt, db2) ∧
    (∀ p, p ∈ processes db2 →
          ¬ (proc_region p = maas_id host0 ∧ proc_pid p = getpid host0)) ∧
    (∀ e, e ∈ endpoints db2 → ep_process e ≠ process_id self0) ∧
    regions db2 = regions db0 ∧
    ((∀ p, p ∈ processes db0 →
           proc_id p < process_seq db0 ∧
           ¬ (proc_region p = maas_id host0 ∧ proc_pid p = getpid host0)) →
     processes db2 = processes db0).
Proof.
  apply (demote_undoes_promote host0 db0 self0 db0). vm_compute. reflexivity.
Defined.

Lemma demote_again_raises_witness :
  (∀ p, p ∈ processes db0_demoted →
        ¬ (proc_region p = region_id self0 ∧ proc_pid p = getpid host0)) ∧
  demote self0 host0 db0_demoted = inl RegionControllerProcess_DoesNotExist.
Proof.
  apply (demote_again_raises self0 host0 db0 db0_demoted).
  - vm_compute. reflexivity.
  - eexists. split; [by left|reflexivity].
Defined.

Lemma update_advertises_addresses_witness :
  ∃ db',
    update self0 host0 {[ ("a", 80); ("c", 80) ]} db0
      = inr (if decide (({[ ("a", 80); ("c", 80) ]} : gset (string * nat))
                        = ∅) then 2 else 60, db') ∧
    (∀ a p, (∃ e, e ∈ endpoints db' ∧ ep_process e = process_id self0 ∧
                  ep_address e = a ∧ ep_port e = p)
            ↔ (a, p) ∈ ({[ ("a", 80); ("c", 80) ]} : gset (string * nat))) ∧
    (∀ e, e ∈ endpoints db' → ep_process e ≠ process_id self0 →
          e ∈ endpoints db0).
Proof.
  apply (update_advertises_addresses self0 host0
           {[ ("a", 80); ("c", 80) ]} db0).
  - exact db0_endpoints_ok.
  - compute_done.
  - compute_done.
  - eexists. split; [by left|reflexivity].
  - left. eexists. split; [by right; right; left|reflexivity].
Defined.

Lemma update_survivors_witness :
  new_process {| now := 990; gethostname := "maas"; getpid := 8;
                 is_pid_running := λ _, true; maas_id := "r1" |} 2 "r1"
    ∈ processes db0_after ↔
  (now host0 - 90 < 990)%Z ∧
  ("r1" = region_id self0 → is_pid_running host0 8 = true).
Proof.
  apply (update_survivors self0 host0 {[ ("a", 80); ("c", 80) ]} db0 60
           db0_after).
  - vm_compute. reflexivity.
  - compute_done.
  - right. by left.
  - simpl. lia.
Defined.

Lemma update_saves_region_witness :
  regions db0_after =
    (λ r, if decide (system_id r = region_id self0)
          then {| system_id := system_id r; hostname := gethostname host0;
                  region_updated := now host0 |}
          else r) <$> regions db0.
Proof.
  apply (update_saves_region self0 host0 {[ ("a", 80); ("c", 80) ]} db0 60).
  vm_compute. reflexivity.
Defined.

Lemma update_restores_own_row_witness :
  ∃ interval db',
    update self0 host0 ∅ db0_demoted = inr (interval, db') ∧
    {| proc_id := process_id self0; proc_region := maas_id host0;
       proc_pid := getpid host0; proc_created := now host0;
       proc_updated := now host0 |} ∈ processes db'.
Proof.
  apply (update_restores_own_row self0 host0 ∅ db0_demoted).
  - split; [compute_done..|].
    intros e He.
    repeat (apply elem_of_cons in He as [->|He]; [simpl; lia|]).
    by apply elem_of_nil in He.
  - compute_done.
  - compute_done.
  - eexists. split; [by left|reflexivity].
  - eexists. split; [by left|reflexivity].
  - intros p Hp.
    repeat (apply elem_of_cons in Hp as [->|Hp]; [simpl; lia|]).
    by apply elem_of_nil in Hp.
  - intros p Hp [Hreg Hpid].
    repeat (apply elem_of_cons in Hp as [->|Hp]; [done|]).
    by apply elem_of_nil in Hp.
Defined.

Lemma ticks_never_fail_witness :
  ∃ db',
    ticks self0 [(host0, {[ ("a", 80) ]}); (host0, ∅)] db0
      = inr ((λ t : Host * gset (string * nat),
                if decide (t.2 = ∅) then 2 else 60)
               <$> [(host0, {[ ("a", 80) ]}); (host0, ∅)], db') ∧
    tables_ok db'.
Proof.
  apply (ticks_never_fail self0 [(host0, {[ ("a", 80) ]}); (host0, ∅)] db0).
  - exact db0_tables_ok.
  - eexists. split; [by left|reflexivity].
  - eexists. split; [by right; right; left|reflexivity].
Defined.

Lemma promoted_process_never_fails_witness :
  ∃ db2 db3,
    ticks self0 [(host0, {[ ("a", 80) ]})] db0
      = inr ((λ t : Host * gset (string * nat),
                if decide (t.2 = ∅) then 2 else 60)
               <$> [(host0, {[ ("a", 80) ]})], db2) ∧
    demote self0 host0 db2 = inr (tt, db3) ∧
    (∀ p, p ∈ processes db3 → proc_id p ≠ process_id self0).
Proof.
  apply (promoted_process_never_fails host0 db0 self0 db0
           [(host0, {[ ("a", 80) ]})]).
  - exact db0_tables_ok.
  - vm_compute. reflexivity.
Defined.

Lemma dump_lists_every_endpoint_witness :
  (λ x : string * string * nat, (x.1.2, x.2)) <$> dump db0
    ≡ₚ (λ e, (ep_address e, ep_port e)) <$> endpoints db0.
Proof.
  apply (dump_lists_every_endpoint db0). exact db0_tables_ok.
Defined.

Lemma update_shows_in_dump_witness :
  ∃ interval db',
    update self0 host0 {[ ("a", 80); ("c", 80) ]} db0
      = inr (interval, db') ∧
    ∀ a p, (a, p) ∈ ({[ ("a", 80); ("c", 80) ]} : gset (string * nat)) →
           ((gethostname host0 ++ ":pid=" ++ pretty (getpid host0))%string,
            a, p) ∈ dump db'.
Proof.
  apply (update_shows_in_dump self0 host0 {[ ("a", 80); ("c", 80) ]} db0).
  - exact db0_endpoints_ok.
  - compute_done.
  - compute_done.
  - eexists. split; [by left|reflexivity].
  - reflexivity.
  - intros p Hp Hid.
    repeat (apply elem_of_cons in Hp as [->|Hp]; [try done|]).
    by apply elem_of_nil in Hp.
  - left. eexists. split; [by right; right; left|reflexivity].
Defined.

End AdvertisingLaws.

(** * Theorems: further laws of the registry *)

Module RegistryLaws.
Import Dist Registry Runs DistFacts RegistryFacts.
#[local] Set Warnings "-clear-no-such-hyp".

Lemma filter_all_true {A} (P : A → Prop) `{∀ x, Decision (P x)}
    (l : list A) :
  (∀ x, x ∈ l → P x) → filter P l = l.
Proof.
  induction l as [|x l IH]; intros Hall; [done|].
  rewrite filter_cons, decide_True by (apply Hall; by left).
  f_equal. apply IH. intros y Hy. apply Hall. by right.
Qed.

(** ** The connection sets along a run *)

Lemma cancel_connections d s :
  connections (Deferred_cancel d s) = connections s.
Proof.
  unfold Deferred_cancel. destruct (deferreds s !! d) as [D|]; [|done].
  destruct (called D); [done|].
  by rewrite startRunCallbacks_connections.
Qed.

Lemma cancel_events d s : events (Deferred_cancel d s) = events s.
Proof.
  unfold Deferred_cancel. destruct (deferreds s !! d) as [D|]; [|done].
  destruct (called D); [done|].
  unfold _startRunCallbacks. simpl. rewrite lookup_insert_eq. simpl.
  match goal with |- context [run_callbacks ?cbs ?r ?s1] =>
    pose proof (run_callbacks_frame cbs r s1) as Hf;
    destruct (run_callbacks cbs r s1) as [r' s2] end.
  simpl in *. by destruct Hf as (_ & -> & _).
Qed.

Lemma runUntilCurrent_connections fuel s :
  connections (runUntilCurrent fuel s) = connections s.
Proof.
  revert s. induction fuel as [|fuel IH]; intros s; [done|]. simpl.
  destruct (list_find _ (delayed s)) as [[i [t d]]|]; [|done].
  by rewrite IH, cancel_connections.
Qed.

Lemma cancel_waiters_connections s :
  connections (cancel_waiters s) = connections s.
Proof.
  unfold cancel_waiters.
  generalize ((map_to_list (waiters s)).*1). intros ids.
  revert s. induction ids as [|i ids IH]; intros s; [done|]. simpl.
  rewrite IH.
  generalize (elements (getitem (waiters s) i)). intros ws.
  revert s. induction ws as [|w ws IHw]; intros s; [done|]. simpl.
  by rewrite IHw, cancel_connections.
Qed.

Lemma matched_connections_C ids s ms :
  ms ∈ support (matched_connections ids s) →
  (∀ j, C ms.2 j = C s j) ∧
  (∀ c, c ∈ ms.1 → ∃ i, i ∈ ids ∧ c ∈ C s i).
Proof.
  revert s ms. induction ids as [|i ids IH]; intros s ms Hin; simpl in Hin.
  - dret_inv Hin. subst. split; [done|]. intros c Hc.
    by apply elem_of_nil in Hc.
  - assert (∀ j, C (with_connections (touch i) s) j = C s j) as Ht.
    { intros j. unfold C. simpl. apply getitem_touch. }
    case_decide.
    + apply elem_of_support_dbind in Hin as (c & Hc & Hin).
      rewrite support_random_choice in Hc. apply elem_of_elements in Hc.
      apply elem_of_support_dbind in Hin as (ms' & Hin' & Hin).
      dret_inv Hin. subst. simpl.
      apply IH in Hin' as [HC Hm]. split.
      * intros j. by rewrite HC.
      * intros c' [->|Hc']%elem_of_cons.
        -- exists i. split; [by left|]. by rewrite <- Ht.
        -- destruct (Hm c' Hc') as (i' & ? & Hi'). exists i'.
           split; [by right|]. by rewrite <- Ht.
    + apply IH in Hin as [HC Hm]. split.
      * intros j. by rewrite HC.
      * intros c' Hc'. destruct (Hm c' Hc') as (i' & ? & Hi'). exists i'.
        split; [by right|]. by rewrite <- Ht.
Qed.

Lemma getConnectionFromIdentifiers_C ids timeout s h s' :
  (h, s') ∈ support (_getConnectionFromIdentifiers ids timeout s) →
  ∀ j, C s' j = C s j.
Proof.
  intros Hin. unfold _getConnectionFromIdentifiers in Hin.
  apply elem_of_support_dbind in Hin as ([matched s1] & Hms & Hin).
  apply matched_connections_C in Hms as [HC _]. simpl in *.
  case_decide.
  - dret_inv Hin. by injection Hin as -> ->.
  - unfold deferWithTimeout in Hin.
    unfold Deferred_addCallbacks at 2 in Hin. cbn in Hin.
    rewrite lookup_insert_eq in Hin. cbn in Hin.
    unfold Deferred_addCallbacks in Hin. cbn in Hin.
    rewrite lookup_insert_eq in Hin. cbn in Hin.
    dret_inv Hin. injection Hin as -> ->.
    match goal with |- ∀ j, C (foldl _ ?s0 _) j = _ =>
      destruct (foldl_add_waiters ids (next_deferred s1) s0)
        as (Hc & _) end.
    intros j. unfold C. rewrite Hc. apply HC.
Qed.

(** The connection sets after one operation. *)
Lemma step_connections o s s' :
  s' ∈ outcomes o s →
  ∀ j, C s' j =
       match o with
       | Register i c => if decide (i = j) then C s j ∪ {[c]} else C s j
       | Unregister i c => if decide (i = j) then C s j ∖ {[c]} else C s j
       | _ => C s j
       end.
Proof.
  intros Hin j. destruct o as [i t|ids t|i c|i c|dt|d|]; simpl in Hin.
  - apply list_elem_of_fmap in Hin as ([h s1] & -> & Hin). simpl.
    destruct (decide (C s i = ∅)) as [HC|HC].
    + destruct (getClientFor_pending i t s HC) as (s2 & E & Hc & _).
      rewrite E in Hin. dret_inv Hin. injection Hin as -> ->.
      unfold C. rewrite Hc. apply getitem_touch.
    + by apply getClientFor_immediate in Hin as [-> _].
  - apply list_elem_of_fmap in Hin as ([h s1] & -> & Hin).
    by eapply getConnectionFromIdentifiers_C.
  - apply list_elem_of_singleton in Hin as ->. unfold C.
    rewrite addConnectionFor_connections. apply getitem_add.
  - apply list_elem_of_singleton in Hin as ->. unfold C. simpl.
    apply getitem_discard.
  - apply list_elem_of_singleton in Hin as ->. unfold C, advance.
    by rewrite runUntilCurrent_connections.
  - apply list_elem_of_singleton in Hin as ->. unfold C.
    by rewrite cancel_connections.
  - apply list_elem_of_singleton in Hin as ->. unfold C.
    by rewrite cancel_waiters_connections.
Qed.

(** X13. The connection sets follow the registrations alone: after any
    run of the registry the connections of an identity are those that
    [_addConnectionFor] has added and [_removeConnectionFor] has not taken
    out since; asking for clients, the passing of time, cancellations and
    stopping the service do not change them. *)
Theorem sessions_follow_registrations s run :
  execution s run →
  ∀ j, C (final s run) j = registered_after run (C s) j.
Proof.
  assert (∀ run s X, execution s run → (∀ j, C s j = X j) →
                     ∀ j, C (final s run) j = registered_after run X j)
    as Hgen.
  { clear. induction run as [|[o s1] run IH]; intros s X Hex HX j.
    - apply HX.
    - destruct Hex as [Hs1 Hex]. rewrite final_cons.
      pose proof (step_connections o s s1 Hs1) as Hstep.
      destruct o; simpl; apply IH; try done;
        intros k; rewrite Hstep, ?HX; done. }
  intros Hex. by apply Hgen.
Qed.

(** ** [stopService]: the waiters *)

Lemma resolved_trans L x cbs r s s' :
  wf s → trans L s s' → is_Some (deferreds s !! x) →
  resolved x cbs r s → resolved x cbs r s'.
Proof.
  intros Hwf Ht [D0 HD0] [(D & HD & Hc & Hr) Hout]. split.
  - destruct (t_called _ _ _ Ht x D HD Hc) as (D' & ? & ? & ?).
    exists D'. split_and!; congruence.
  - intros j Hin. apply (Hout j). eapply (t_readd _ _ _ Ht); [|done].
    by apply (wf_heap _ Hwf) in HD as [? _].
Qed.

(** Cancelling the members [ws] of one waiter set. *)
Lemma cancel_all_spec L i ws s :
  wf s → NoDup ws → (∀ w, w ∈ ws → w ∈ W s i) →
  let s' := foldl (λ s w, Deferred_cancel w s) s ws in
  trans L s s' ∧
  (∀ j x, x ∈ W s' j ↔ x ∈ W s j ∧ x ∉ ws) ∧
  (∀ w D, w ∈ ws → deferreds s !! w = Some D →
          resolved w (callbacks D) (Failure CancelledError) s').
Proof.
  revert s. induction ws as [|w ws IH]; intros s Hwf Hnd Hin; simpl.
  - split_and!.
    + by apply trans_refl.
    + intros j x. split; [|by intros [? _]]. intros ?. split; [done|].
      apply not_elem_of_nil.
    + intros w D Hw. by apply elem_of_nil in Hw.
  - apply NoDup_cons in Hnd as [Hnw Hnd].
    assert (w ∈ W s i) as Hwi by (apply Hin; by left).
    destruct (wf_members _ Hwf i w Hwi) as (D & HD & Hc & Hcov).
    destruct (cancel_pending w s D Hwf HD Hc)
      as (Hc1 & He1 & Hn1 & Hk1 & Hh1 & Hw1 & Hl1).
    pose proof (trans_cancel L w s Hwf) as Ht1.
    destruct (IH (Deferred_cancel w s)) as (Ht' & Hw' & Hr'); try done.
    { apply Ht1. }
    { intros w' Hw'. apply Hw1. split; [apply Hin; by right|].
      intros ->. done. }
    split_and!.
    + by eapply trans_trans.
    + intros j x. rewrite Hw', Hw1. rewrite not_elem_of_cons. tauto.
    + intros w' D' [->|Hw'']%elem_of_cons HD'.
      * assert (D' = D) as -> by congruence.
        eapply resolved_trans; [apply Ht1|exact Ht'| |].
        -- rewrite Hh1, lookup_insert_eq. by eexists.
        -- split.
           ++ eexists. rewrite Hh1, lookup_insert_eq. done.
           ++ intros j [_ ?]%Hw1. done.
      * apply Hr'; [done|]. rewrite Hh1, lookup_insert_ne; [done|].
        intros ->. done.
Qed.

(** The loop over the waiter sets of the identities [ids]. *)
Lemma cancel_sets_spec L ids s :
  wf s →
  let s' := foldl (λ s ident,
                     foldl (λ s waiter, Deferred_cancel waiter s) s
                       (elements (getitem (waiters s) ident))) s ids in
  trans L s s' ∧
  (∀ j x, x ∈ W s' j → x ∈ W s j) ∧
  (∀ j, j ∈ ids → W s' j = ∅) ∧
  (∀ j w D, j ∈ ids → w ∈ W s j → deferreds s !! w = Some D →
            resolved w (callbacks D) (Failure CancelledError) s').
Proof.
  revert s. induction ids as [|i ids IH]; intros s Hwf; simpl.
  - split_and!; [by apply trans_refl|done| |].
    + intros j Hj. by apply elem_of_nil in Hj.
    + intros j w D Hj. by apply elem_of_nil in Hj.
  - destruct (cancel_all_spec L i (elements (getitem (waiters s) i)) s)
      as (Ht1 & Hw1 & Hr1); [done|apply NoDup_elements| |].
    { intros w. by rewrite elem_of_elements. }
    set (s1 := foldl (λ s w, Deferred_cancel w s) s
                 (elements (getitem (waiters s) i))) in *.
    destruct (IH s1) as (Ht' & Hsub' & Hemp' & Hr'); [apply Ht1|].
    assert (∀ j x, x ∈ W s1 j → x ∈ W s j) as Hsub1.
    { intros j x Hx. by apply Hw1 in Hx as [? _]. }
    assert (W s1 i = ∅) as Hi1.
    { apply leibniz_equiv. apply elem_of_equiv_empty. intros x Hx.
      apply Hw1 in Hx as [Hx Hn]. apply Hn. by apply elem_of_elements. }
    split_and!.
    + by eapply trans_trans.
    + intros j x Hx. by apply Hsub1, Hsub'.
    + intros j [->|Hj]%elem_of_cons; [|by apply Hemp'].
      apply leibniz_equiv. apply elem_of_equiv_empty. intros x Hx.
      apply Hsub' in Hx. rewrite Hi1 in Hx. set_solver.
    + intros j w D Hj Hw HD.
      destruct (decide (w ∈ W s i)) as [Hwi|Hwi].
      * eapply resolved_trans; [apply Ht1|exact Ht'| |].
        -- destruct (Hr1 w D) as [(D' & ? & _) _];
             [by apply elem_of_elements|done|by eexists].
        -- apply Hr1; [by apply elem_of_elements|done].
      * apply elem_of_cons in Hj as [->|Hj]; [done|].
        destruct (wf_members _ Hwf j w Hw) as (D0 & HD0 & Hc0 & _).
        assert (D0 = D) as -> by congruence.
        destruct (t_pending _ _ _ Ht1 w D HD Hc0)
          as [(Hh & Hmem & _)|(r & [_ Hout] & _)].
        -- rewrite <- Hh in HD. apply (Hr' j); [done| |done].
           by apply Hmem.
        -- exfalso. apply (Hout j). apply Hw1. split; [done|].
           by rewrite elem_of_elements.
Qed.

(** X14. [stopService] leaves no waiter behind: after its loop over the
    waiters of a registry in any reachable state, every waiter set is
    empty, every Deferred that was waiting has fired with what its chain
    makes of a [CancelledError] (the waiters of [getClientFor] have failed
    with [NoConnectionsAvailable]), and connections and events are as they
    were. *)
Theorem stop_cancels_every_waiter run :
  execution init run →
  let s := final init run in
  let s' := cancel_waiters s in
  (∀ j, W s' j = ∅) ∧
  (∀ j d, d ∈ W s j →
     ∃ D, deferreds s !! d = Some D ∧
          resolved d (callbacks D) (Failure CancelledError) s') ∧
  (∀ i d, d ∈ W s i → deferreds s !! d = Some (get_waiter i d) →
          timed_out i d s') ∧
  (∀ j, C s' j = C s j).
Proof.
  intros Hex s s'.
  pose proof (execution_wf init run wf_init Hex) as Hwf. fold s in Hwf.
  destruct (cancel_sets_spec (λ _ _, False) (map_to_list (waiters s)).*1 s
              Hwf) as (Ht & Hsub & Hemp & Hres).
  fold (cancel_waiters s) in Ht, Hsub, Hemp, Hres. fold s' in Ht, Hsub, Hemp, Hres.
  assert (∀ j d, d ∈ W s j → j ∈ (map_to_list (waiters s)).*1) as Hkey.
  { intros j d Hd. unfold W, getitem in Hd.
    destruct (waiters s !! j) as [X|] eqn:E; [|set_solver].
    apply list_elem_of_fmap. exists (j, X). split; [done|].
    by apply elem_of_map_to_list. }
  assert (∀ j d, d ∈ W s j →
            ∃ D, deferreds s !! d = Some D ∧
                 resolved d (callbacks D) (Failure CancelledError) s')
    as Hall.
  { intros j d Hd.
    destruct (wf_members _ Hwf j d Hd) as (D & HD & _).
    exists D. split; [done|]. eapply Hres; [by eapply Hkey|done..]. }
  split_and!.
  - intros j. apply leibniz_equiv. apply elem_of_equiv_empty. intros x Hx.
    pose proof (Hsub j x Hx) as Hx0.
    rewrite (Hemp j) in Hx; [set_solver|]. by eapply Hkey.
  - exact Hall.
  - intros i d Hd HD. destruct (Hall i d Hd) as (D & HD' & Hr).
    assert (D = get_waiter i d) as -> by congruence. exact Hr.
  - intros j. unfold C, s'. by rewrite cancel_waiters_connections.
Qed.

(** ** [getRandomClient] and the empty sets of the dictionary *)

Lemma sumQ_indicator {A B} (f : A → B) (P : B → Prop)
    `{∀ x, Decision (P x)} (g : B → Q) (l : list A) :
  (∀ x, (g x == if decide (P x) then 1 else 0)%Q) →
  (sumQ (g <$> (f <$> l))
   == inject_Z (Z.of_nat (length (filter (λ x, P (f x)) l))))%Q.
Proof.
  intros Hg. induction l as [|x l IH]; [done|].
  rewrite !fmap_cons. unfold sumQ in *. rewrite foldr_cons.
  rewrite IH, (Hg (f x)), filter_cons.
  destruct (decide (P (f x))).
  - rewrite length_cons, Nat2Z.inj_succ. unfold Z.succ.
    rewrite inject_Z_plus. ring.
  - ring.
Qed.

Lemma Pr_assertion_pick (connection : gset conn) :
  (Pr is_assertion
      (if decide (0 < size connection)%nat then
         dbind (random_choice (elements connection)) (λ c,
         dret (inr (VClient (VConn c))))
       else dret (inl (AssertionError "Connection set empty.")))
   == if decide (connection = ∅) then 1 else 0)%Q.
Proof.
  destruct (decide (0 < size connection)) as [Hsz|Hsz].
  - rewrite (Pr_dbind_det _ _ _ (λ c, inr (VClient (VConn c)))) by done.
    rewrite decide_False.
    2:{ intros ->. rewrite size_empty in Hsz. lia. }
    simpl. generalize (random_choice (elements connection)). intros d.
    induction d as [|[p a] d IH]; [done|]. by rewrite Pr_cons.
  - rewrite Pr_dret. simpl. rewrite decide_True; [done|].
    assert (size connection = 0) as Hz by lia.
    apply size_empty_inv in Hz. by apply leibniz_equiv.
Qed.

Lemma Pr_assertion s :
  connections s ≠ ∅ →
  (Pr is_assertion (getRandomClient s)
   == Z.of_nat (length (idle s)) # Pos.of_nat (size (connections s)))%Q.
Proof.
  intros Hne. unfold getRandomClient.
  assert (length (map_to_list (connections s)).*2 = size (connections s))
    as Hlen by (by rewrite length_fmap, length_map_to_list).
  rewrite decide_False.
  2:{ rewrite Hlen. intros Hz. by apply map_size_empty_inv in Hz. }
  rewrite Pr_dbind_random_choice, Hlen.
  rewrite (sumQ_indicator snd (λ X, X = ∅))
    by (intros X; apply Pr_assertion_pick).
  fold (idle s).
  unfold Qeq, Qmult, inject_Z. simpl. lia.
Qed.

(** X15. [getRandomClient] on a dictionary that holds identities fails
    its assertion with probability (identities without a connection) /
    (identities): an identity stays in the dictionary when its last
    connection has gone, and drawing it raises [AssertionError], not
    [NoConnectionsAvailable]. *)
Theorem getRandomClient_assertion_probability s :
  connections s ≠ ∅ →
  (Pr is_assertion (getRandomClient s)
   == Z.of_nat (length (idle s)) # Pos.of_nat (size (connections s)))%Q.
Proof. apply Pr_assertion. Qed.

(** X16. Asking for a client leaves its mark: on a registry in which no
    identity has a connection, once [getClientFor] has been called for
    some identity (and has handed back a waiter), [getRandomClient] fails
    its assertion with probability 1; it no longer raises
    [NoConnectionsAvailable], because [self.connections[ident]] has put
    the identity into the dictionary. *)
Theorem getRandomClient_after_getClientFor s i timeout h s' :
  (∀ j, C s j = ∅) →
  (h, s') ∈ support (getClientFor i timeout s) →
  is_Some (connections s' !! i) ∧
  (Pr is_assertion (getRandomClient s') == 1)%Q.
Proof.
  intros Hnone Hin.
  destruct (getClientFor_pending i timeout s (Hnone i)) as (s2 & E & Hc & _).
  rewrite E in Hin. dret_inv Hin. injection Hin as -> ->. rename s2 into s'.
  assert (is_Some (connections s' !! i)) as Hi.
  { rewrite Hc. unfold touch. destruct (connections s !! i) eqn:Ei.
    - rewrite Ei. by eexists.
    - rewrite lookup_insert_eq. by eexists. }
  split; [done|].
  assert (connections s' ≠ ∅) as Hne.
  { intros He. rewrite He, lookup_empty in Hi. by destruct Hi. }
  rewrite Pr_assertion by done.
  assert (idle s' = map_to_list (connections s')) as ->.
  { unfold idle. apply filter_all_true. intros [j X] Hj. simpl.
    apply elem_of_map_to_list in Hj.
    assert (C s' j = X) as <- by (unfold C, getitem; by rewrite Hj).
    unfold C. rewrite Hc, getitem_touch. apply Hnone. }
  rewrite length_map_to_list.
  assert (0 < size (connections s')) as Hpos.
  { destruct (decide (size (connections s') = 0)) as [Hz|]; [|lia].
    by apply map_size_empty_inv in Hz. }
  unfold Qeq. simpl.
  destruct (size (connections s')) as [|n]; [lia|].
  rewrite <- Pos.of_nat_succ, Zpos_P_of_succ_nat. lia.
Qed.

(** ** [getAllClients] *)

Lemma all_clients_support (m : gmap identity (gset conn))
    (l : list (identity * gset conn)) clients :
  (∀ i X, (i, X) ∈ l → getitem m i = X) →
  clients ∈ support (all_clients l.*2) →
  Forall2 (λ v iX, ∃ c, c ∈ getitem m iX.1 ∧ v = VClient (VConn c))
    clients (filter (λ iX, iX.2 ≠ ∅) l).
Proof.
  revert clients. induction l as [|[i X] l IH]; intros clients Hm Hin.
  - simpl in Hin. dret_inv Hin. subst. constructor.
  - rewrite fmap_cons in Hin. simpl in Hin. rewrite filter_cons. simpl.
    assert (∀ i X, (i, X) ∈ l → getitem m i = X) as Hm'.
    { intros j Y Hj. apply Hm. by right. }
    destruct (decide (0 < size X)) as [Hsz|Hsz].
    + rewrite decide_True.
      2:{ intros ->. rewrite size_empty in Hsz. lia. }
      apply elem_of_support_dbind in Hin as (c & Hc & Hin).
      rewrite support_random_choice in Hc. apply elem_of_elements in Hc.
      apply elem_of_support_dbind in Hin as (rest & Hrest & Hin).
      dret_inv Hin. subst. constructor; [|by apply IH].
      exists c. split; [|done]. simpl. rewrite (Hm i X); [done|by left].
    + rewrite decide_False; [by apply IH|].
      intros Hne. apply Hsz.
      destruct (decide (size X = 0)) as [Hz|]; [|lia].
      apply size_empty_inv in Hz. by apply leibniz_equiv in Hz.
Qed.

Lemma all_clients_returns (sets : list (gset conn)) :
  support (all_clients sets) ≠ [].
Proof.
  induction sets as [|X sets IH]; [done|]. simpl.
  destruct (decide (0 < size X)) as [Hsz|Hsz]; [|done].
  destruct (support (all_clients sets)) as [|l ls] eqn:E; [done|].
  destruct (elements X) as [|c cs] eqn:EX.
  { apply elements_empty_inv in EX. apply leibniz_equiv in EX. subst X.
    rewrite size_empty in Hsz. lia. }
  intros Hnil.
  assert ((VClient (VConn c) :: l) ∈
            support (dbind (random_choice (c :: cs)) (λ c,
                     dbind (all_clients sets) (λ clients,
                     dret (VClient (VConn c) :: clients))))) as Hin.
  { apply elem_of_support_dbind. exists c. split.
    - rewrite support_random_choice. by left.
    - apply elem_of_support_dbind. exists l. split; [rewrite E; by left|].
      rewrite support_dret. by left. }
  rewrite Hnil in Hin. by apply elem_of_nil in Hin.
Qed.

(** X17. [getAllClients] always returns, and what it returns holds, in
    the order of the dictionary, exactly one client for every identity that
    has a connection, wrapped around one of that identity's connections;
    an identity whose set is empty is passed over (no assertion here). *)
Theorem getAllClients_one_per_identity s :
  support (getAllClients s) ≠ [] ∧
  ∀ clients, clients ∈ support (getAllClients s) →
    Forall2 (λ v (iX : identity * gset conn),
               ∃ c, c ∈ C s iX.1 ∧ v = VClient (VConn c))
      clients (filter (λ iX, iX.2 ≠ ∅) (map_to_list (connections s))).
Proof.
  split; [apply all_clients_returns|].
  intros clients Hin. apply (all_clients_support (connections s)); [|done].
  intros i X HiX%elem_of_map_to_list. unfold getitem. by rewrite HiX.
Qed.

(** ** A waiter for several identifiers *)

Lemma matched_connections_none ids s :
  (∀ i, i ∈ ids → C s i = ∅) →
  ∃ s1, matched_connections ids s = dret ([], s1) ∧
    waiters s1 = waiters s ∧ deferreds s1 = deferreds s ∧
    delayed s1 = delayed s ∧ next_deferred s1 = next_deferred s ∧
    clock s1 = clock s ∧ events s1 = events s ∧ ∀ j, C s1 j = C s j.
Proof.
  revert s. induction ids as [|i ids IH]; intros s Hnone.
  - by exists s.
  - simpl.
    assert (∀ j, C (with_connections (touch i) s) j = C s j) as Ht.
    { intros j. unfold C. simpl. apply getitem_touch. }
    rewrite decide_False.
    2:{ rewrite getitem_touch. fold (C s i).
        rewrite (Hnone i) by (by left). rewrite elements_empty. simpl. lia. }
    destruct (IH (with_connections (touch i) s))
      as (s1 & E & ? & ? & ? & ? & ? & ? & HC).
    { intros j Hj. rewrite Ht. apply Hnone. by right. }
    exists s1. split_and!; try done. intros j. by rewrite HC.
Qed.

(** X18. A caller waiting for any of several identifiers is served by the
    first registration under one of them: when none of the identifiers has
    a connection, [_getConnectionFromIdentifiers] hands back a waiter that
    sits in the waiter set of each identifier, and the registration of a
    connection under any one of them fires it with the list of that one
    connection and takes it out of every waiter set. *)
Theorem getany_served_by_first_register run ids timeout i c :
  execution init run →
  let s := final init run in
  (∀ j, j ∈ ids → C s j = ∅) →
  i ∈ ids →
  let d := next_deferred s in
  ∃ s1 s2,
    _getConnectionFromIdentifiers ids timeout s = dret (Pending d, s1) ∧
    (∀ j, j ∈ ids → d ∈ W s1 j) ∧
    _addConnectionFor i c s1 = (None, s2) ∧
    (∃ D, deferreds s2 !! d = Some D ∧ called D = true ∧
          current_result D = Some (Success (VList [VConn c]))) ∧
    (∀ j, d ∉ W s2 j).
Proof.
  intros Hex s Hnone Hi d.
  pose proof (execution_wf init run wf_init Hex) as Hwf. fold s in Hwf.
  destruct (matched_connections_none ids s Hnone)
    as (s0 & E0 & Hw0 & Hd0 & Hl0 & Hn0 & Hk0 & He0 & HC0).
  assert (∃ s1, _getConnectionFromIdentifiers ids timeout s
                  = dret (Pending d, s1) ∧
                deferreds s1 !! d = Some (getany_waiter ids d) ∧
                ∀ j, W s1 j = if decide (j ∈ ids) then W s j ∪ {[d]}
                              else W s j) as (s1 & E1 & Hd1 & HW1).
  { unfold _getConnectionFromIdentifiers. rewrite E0.
    unfold dbind, dret. simpl.
    unfold deferWithTimeout.
    unfold Deferred_addCallbacks at 2. cbn.
    rewrite lookup_insert_eq. cbn.
    unfold Deferred_addCallbacks. cbn.
    rewrite lookup_insert_eq. cbn.
    match goal with |- context [foldl ?f ?sa ids] =>
      destruct (foldl_add_waiters ids (next_deferred s0) sa)
        as (_ & _ & Hh & _ & _ & _ & HW);
      exists (foldl f sa ids) end.
    split_and!.
    - unfold d. rewrite <- Hn0. reflexivity.
    - rewrite Hh. cbn. rewrite !insert_insert_eq. unfold d.
      rewrite <- Hn0. by rewrite lookup_insert_eq.
    - intros j. rewrite HW. unfold d. rewrite <- Hn0.
      change (W (with_deferreds _ _) j) with (W s0 j).
      unfold W. by rewrite Hw0. }
  assert (wf s1) as Hwf1.
  { eapply (t_wf (λ _ _, False) s s1).
    eapply trans_getConnectionFromIdentifiers; [done|].
    rewrite E1. rewrite support_dret. by left. }
  destruct (addConnectionFor_spec i c s1 Hwf1)
    as (s2 & E2 & _ & _ & _ & _ & _ & _ & Hres).
  exists s1, s2. split_and!; try done.
  - intros j Hj. rewrite HW1, decide_True by done. set_solver.
  - destruct (Hres d (getany_waiter ids d)) as [(D & HD & Hc & Hr) _];
      [|done|by exists D].
    rewrite HW1, decide_True by done. set_solver.
  - destruct (Hres d (getany_waiter ids d)) as [_ Hout]; [|done|done].
    rewrite HW1, decide_True by done. set_solver.
Qed.

(** ** [connectionLost] *)

(** X19. A registration and the loss of the connection cancel out: on a
    registry in any reachable state, when the calls of [_register] return,
    [_register] returns the rack controller's system_id and the connection
    is in that identity's set; [connectionLost] afterwards, whatever the
    database does, leaves every connection set as it was before the
    registration (for a connection that was not registered yet), and the
    events fired in between are [connected] and then [disconnected] for
    that identity. *)
Theorem register_then_connectionLost
    run this nodegroup_uuid c rack_controller c' unregisterConnection :
  execution init run →
  let s := final init run in
  calls_return nodegroup_uuid c rack_controller →
  self this ∉ C s (Some rack_controller) →
  ∃ this' s1,
    _register this nodegroup_uuid c s
      = (inr (Some rack_controller), this', s1) ∧
    self this ∈ C s1 (Some rack_controller) ∧
    let s2 := (connectionLost this' c' unregisterConnection s1).2 in
    (∀ j, C s2 j = C s j) ∧
    events s2 = events s ++ [connected (Some rack_controller);
                             disconnected (Some rack_controller)].
Proof.
  intros Hex s (Hloop & Hreg & Hup & Hremote) Hfresh.
  pose proof (execution_wf init run wf_init Hex) as Hwf. fold s in Hwf.
  destruct (addConnectionFor_spec (Some rack_controller) (self this) s Hwf)
    as (s1 & E & _ & Hc & He & _).
  assert (∃ remote,
    _register this nodegroup_uuid c s
      = (inr (Some rack_controller),
         {| self := self this; ident := Some rack_controller;
            hostIsRemote := remote |}, s1)) as (remote & Er).
  { unfold _register, register_body. rewrite Hloop, Hreg.
    assert (match nodegroup_uuid with
            | Some _ => handle_upgrade c
            | None => None
            end = None) as -> by (by destruct Hup as [->| ->];
                                  [|destruct nodegroup_uuid]).
    unfold initResponder. cbn [self ident hostIsRemote]. rewrite E.
    destruct (host_is_address c) eqn:Hh.
    - destruct Hremote as (-> & -> & ->); [done|]. by eexists.
    - by eexists. }
  eexists _, s1. split; [exact Er|].
  assert (∀ j, C s1 j = if decide (Some rack_controller = j)
                        then C s j ∪ {[self this]} else C s j) as HC1.
  { intros j. unfold C. rewrite Hc. apply getitem_add. }
  split; [rewrite HC1, decide_True by done; set_solver|].
  cbv zeta. split.
  - intros j. unfold connectionLost. cbn [snd].
    unfold _removeConnectionFor, C.
    cbn [connections fire with_connections ident self].
    rewrite getitem_discard.
    fold (C s1 j). rewrite HC1.
    repeat case_decide; try done. subst j.
    fold (C s (Some rack_controller)). set_solver.
  - unfold connectionLost. cbn [snd]. unfold _removeConnectionFor.
    cbn [events fire with_connections ident]. rewrite He, <- app_assoc.
    done.
Qed.

(** ** Witnesses *)

Lemma sessions_follow_registrations_witness :
  C (final init come_and_go) rack = registered_after come_and_go (C init) rack.
Proof.
  apply (sessions_follow_registrations init come_and_go).
  split; [left|]. split; [left|exact I].
Defined.

Lemma stop_cancels_every_waiter_witness :
  W (cancel_waiters (final init [(Get rack 30, after_get rack 30 init)])) rack
    = ∅.
Proof.
  apply (stop_cancels_every_waiter [(Get rack 30, after_get rack 30 init)]).
  split; [vm_compute; left|exact I].
Defined.

Lemma getRandomClient_assertion_probability_witness :
  Qeq (Pr is_assertion (getRandomClient (final init come_and_go)))
      (Z.of_nat (length (idle (final init come_and_go)))
         # Pos.of_nat (size (connections (final init come_and_go)))).
Proof.
  apply (getRandomClient_assertion_probability (final init come_and_go)).
  compute_done.
Defined.

Lemma getRandomClient_after_getClientFor_witness :
  is_Some (connections (after_get rack 30 init) !! rack) ∧
  Qeq (Pr is_assertion (getRandomClient (after_get rack 30 init))) 1.
Proof.
  apply (getRandomClient_after_getClientFor init rack 30 (Pending 0)
           (after_get rack 30 init)).
  - intros j. reflexivity.
  - vm_compute. left.
Defined.

Lemma getany_served_by_first_register_witness :
  ∃ s1 s2,
    _getConnectionFromIdentifiers [rack; Some "b"] 30 (final init [])
      = dret (Pending (next_deferred (final init [])), s1) ∧
    (∀ j, j ∈ [rack; Some "b"] → next_deferred (final init []) ∈ W s1 j) ∧
    _addConnectionFor rack 7 s1 = (None, s2) ∧
    (∃ D, deferreds s2 !! next_deferred (final init []) = Some D ∧
          called D = true ∧
          current_result D = Some (Success (VList [VConn 7]))) ∧
    (∀ j, next_deferred (final init []) ∉ W s2 j).
Proof.
  apply (getany_served_by_first_register [] [rack; Some "b"] 30 rack 7).
  - exact I.
  - intros j _. reflexivity.
  - by left.
Defined.

Lemma register_then_connectionLost_witness :
  ∃ this' s1,
    _register fresh_server None returning_calls (final init [])
      = (inr (Some "rack"), this', s1) ∧
    self fresh_server ∈ C s1 (Some "rack") ∧
    let s2 := (connectionLost this' failing_calls None s1).2 in
    (∀ j, C s2 j = C (final init []) j) ∧
    events s2 = events (final init [])
                  ++ [connected (Some "rack"); disconnected (Some "rack")].
Proof.
  apply (register_then_connectionLost [] fresh_server None returning_calls
           "rack" failing_calls None).
  - exact I.
  - split_and!; try done. by left.
  - unfold C. simpl. rewrite getitem_empty. apply not_elem_of_empty.
Defined.

End RegistryLaws.

(** * Theorems: listening *)

Module ListeningFacts.
Import Listening.
#[local] Set Warnings "-abstract-large-number".

Lemma bindFirst_loop_success index last es port rest :
  index + length es ≤ last →
  (length rest = 0 ∨ index + length es < last) →
  _bindFirst_loop index last ((inl <$> es) ++ inr port :: rest)
    = (inr (Some port), S (length es)).
Proof.
  revert index. induction es as [|e es IH]; intros index Hle Hlast; [done|].
  rewrite fmap_cons, <- app_comm_cons. cbn [_bindFirst_loop].
  rewrite length_cons in *. rewrite decide_False by lia.
  rewrite (IH (S index)) by lia. done.
Qed.

Lemma bindFirst_loop_failure index last es e :
  last = index + length es →
  _bindFirst_loop index last (inl <$> (es ++ [e])) = (inl e, S (length es)).
Proof.
  revert index. induction es as [|e' es IH]; intros index Hlast.
  - simpl in *. by rewrite decide_True by lia.
  - rewrite <- app_comm_cons, fmap_cons. cbn [_bindFirst_loop].
    rewrite length_cons in *. rewrite decide_False by lia.
    rewrite (IH (S index)) by lia. done.
Qed.

Lemma bindFirst_first_success_aux :
  _bindFirst [] = (inl (AssertionError "No endpoint options specified."), 0) ∧
  (∀ es port rest,
     _bindFirst ((inl <$> es) ++ inr port :: rest)
       = (inr (Some port), S (length es))) ∧
  (∀ es e,
     _bindFirst (inl <$> (es ++ [e])) = (inl e, S (length es))) ∧
  (∀ endpoints, (_bindFirst endpoints).1 ≠ inr None).
Proof.
  assert (∀ es port rest,
     _bindFirst ((inl <$> es) ++ inr port :: rest)
       = (inr (Some port), S (length es))) as Hs.
  { intros es port rest. unfold _bindFirst.
    rewrite decide_True by (rewrite length_app; simpl; lia).
    apply bindFirst_loop_success.
    - rewrite length_app, length_fmap. simpl. lia.
    - rewrite length_app, length_fmap. simpl.
      destruct rest; [by left|right; simpl; lia]. }
  assert (∀ es e,
     _bindFirst (inl <$> (es ++ [e])) = (inl e, S (length es))) as Hf.
  { intros es e. unfold _bindFirst.
    rewrite decide_True by (rewrite length_fmap, length_app; simpl; lia).
    apply bindFirst_loop_failure.
    rewrite length_fmap, length_app. simpl. lia. }
  split_and!; [done|exact Hs|exact Hf|].
  intros endpoints.
  assert ((∃ es port rest, endpoints = (inl <$> es) ++ inr port :: rest)
          ∨ ∃ es, endpoints = inl <$> es) as Hcases.
  { clear. induction endpoints as [|[e|port] endpoints IH].
    - right. by exists [].
    - destruct IH as [(es & port & rest & ->)|(es & ->)].
      + left. by exists (e :: es), port, rest.
      + right. by exists (e :: es).
    - left. by exists [], port, endpoints. }
  destruct Hcases as [(es & port & rest & ->)|(es & ->)].
  - by rewrite Hs.
  - destruct es as [|e es _] using rev_ind; [done|]. by rewrite Hf.
Qed.

(** X20. [_bindFirst] tries the endpoints in order and stops at the first
    that listens: it returns that port and has called [listen] on nothing
    after it; when every endpoint fails it raises the error of the last
    one, the earlier errors being dropped; without endpoints the
    assertion fails before anything is tried.  These are all the cases, so
    it never returns [None]. *)
Theorem bindFirst_first_success :
  _bindFirst [] = (inl (AssertionError "No endpoint options specified."), 0) ∧
  (∀ es port rest,
     _bindFirst ((inl <$> es) ++ inr port :: rest)
       = (inr (Some port), S (length es))) ∧
  (∀ es e,
     _bindFirst (inl <$> (es ++ [e])) = (inl e, S (length es))) ∧
  (∀ endpoints, (_bindFirst endpoints).1 ≠ inr None).
Proof. exact bindFirst_first_success_aux. Qed.

Lemma savePorts_one result this :
  _savePorts [result] this =
    match result with
    | inr port => {| ports := ports this ++ [port]; errors := errors this |}
    | inl e =>
        if decide (e = CancelledError) then this
        else {| ports := ports this;
                errors := errors this
                  ++ [(e, "RegionServer endpoint failed to listen.")] |}
    end.
Proof. destruct result as [[]|]; done. Qed.

Lemma startService_single options this :
  startService [options] this = _savePorts [(_bindFirst options).1] this.
Proof. done. Qed.

(** X21. [startService] with the endpoints of [__init__] binds the lowest
    port of 5250..5259 that can be bound: with the ports before [n]
    failing and [n] listening, [self.ports] gains the port of [n] and
    nothing is logged; when none of the ten listens, [self.ports] is as
    it was and the error of 5259 is logged, unless it is a
    [CancelledError]. *)
Theorem startService_binds_lowest_free_port listen this :
  (∀ before n after port,
     seq 5250 10 = before ++ n :: after →
     (∀ m, m ∈ before → ∃ e, listen m = inl e) →
     listen n = inr port →
     startService (default_endpoints listen) this
       = {| ports := ports this ++ [Some port]; errors := errors this |}) ∧
  (∀ e,
     (∀ m, m ∈ seq 5250 10 → ∃ e', listen m = inl e') →
     listen 5259 = inl e →
     startService (default_endpoints listen) this
       = if decide (e = CancelledError) then this
         else {| ports := ports this;
                 errors := errors this
                   ++ [(e, "RegionServer endpoint failed to listen.")] |}).
Proof.
  assert (∀ l : list nat, (∀ m, m ∈ l → ∃ e, listen m = inl e) →
               ∃ es : list exn,
                 @fmap list _ nat endpoint listen l
                   = @fmap list _ exn endpoint inl es) as Hfail.
  { induction l as [|m l IH]; intros Hall.
    - by exists [].
    - destruct (Hall m) as (e & He); [by left|].
      destruct IH as (es & Hes).
      { intros m' Hm'. apply Hall. by right. }
      exists (e :: es). by rewrite !fmap_cons, He, Hes. }
  split.
  - intros before n after port Hseq Hbefore Hn.
    unfold default_endpoints. rewrite startService_single, Hseq.
    rewrite fmap_app, fmap_cons, Hn.
    destruct (Hfail before Hbefore) as (es & ->).
    destruct bindFirst_first_success_aux as (_ & Hs & _).
    by rewrite Hs.
  - intros e Hall He.
    unfold default_endpoints. rewrite startService_single.
    assert (seq 5250 10 = seq 5250 9 ++ [5259]) as Hsplit
      by (vm_compute; reflexivity).
    destruct (Hfail (seq 5250 9)) as (es & Hes).
    { intros m Hm. apply Hall. rewrite Hsplit. apply elem_of_app. by left. }
    rewrite Hsplit, fmap_app, Hes.
    change (listen <$> [5259]) with [listen 5259]. rewrite He.
    change [inl e] with (@fmap list _ exn endpoint inl [e]).
    rewrite <- fmap_app.
    destruct bindFirst_first_success_aux as (_ & _ & Hf & _).
    rewrite Hf. cbn [fst]. rewrite savePorts_one. done.
Qed.

(** What [_savePorts] appends to [self.ports]: the results of the
    successes, in order. *)
Lemma savePorts_ports results this :
  ports (_savePorts results this)
    = ports this
        ++ omap (λ r : exn + option Port,
                   match r with inr port => Some port | inl _ => None end)
             results.
Proof.
  revert this. induction results as [|[e|port] results IH]; intros this.
  - simpl. by rewrite app_nil_r.
  - destruct e; cbn [_savePorts omap]; rewrite IH; done.
  - cbn [_savePorts]. rewrite IH. simpl. by rewrite <- app_assoc.
Qed.

Lemma first_inet_port_Some ps :
  (∀ p, p ∈ ps → p ≠ None) →
  ∃ r, first_inet_port ps = inr r ∧
       (∀ port, r = Some port →
                Some port ∈ ps ∧ addressFamily port ∈ [AF_INET; AF_INET6]) ∧
       (ps = [] → r = None).
Proof.
  induction ps as [|[port|] ps IH]; intros Hall.
  - by exists None.
  - cbn [first_inet_port].
    destruct (decide (addressFamily port ∈ [AF_INET; AF_INET6])) as [Hf|Hf].
    + exists (Some port). split_and!; [done| |done].
      intros ? [= <-]. split; [by left|done].
    + destruct IH as (r & -> & Hr & _).
      { intros p Hp. apply Hall. by right. }
      exists r. split_and!; [done| |done].
      intros port' Hr'. destruct (Hr _ Hr') as [? ?]. split; [by right|done].
  - exfalso. by apply (Hall None); [left|].
Qed.

(** X22. After [startService] on a service that holds no port yet,
    [getPort] does not raise, whatever the endpoints do: [self.ports]
    never holds a [None].  A port number it returns is that of the socket
    of an internet-family port that [_bindFirst] has returned for one of
    the lists of options, and it returns [None] when no list of options
    could be bound. *)
Theorem getPort_after_startService endpoints :
  ∃ r, getPort (startService endpoints {| ports := []; errors := [] |})
         = inr r ∧
       (∀ n, r = Some n →
             ∃ options port host,
               options ∈ endpoints ∧
               (_bindFirst options).1 = inr (Some port) ∧
               addressFamily port ∈ [AF_INET; AF_INET6] ∧
               socket port = Some (host, n)) ∧
       ((∀ options, options ∈ endpoints →
                    ∃ e, (_bindFirst options).1 = inl e) →
        r = None).
Proof.
  unfold getPort, startService.
  set (results := (λ endpoint_options, (_bindFirst endpoint_options).1)
                    <$> endpoints).
  set (this := _savePorts results _).
  assert (∀ p, p ∈ ports this →
               ∃ options, options ∈ endpoints ∧
                          (_bindFirst options).1 = inr p) as Hfrom.
  { intros p. unfold this. rewrite savePorts_ports. simpl.
    intros (r & Hr & Hp)%list_elem_of_omap.
    apply list_elem_of_fmap in Hr as (options & -> & Hin).
    exists options. split; [done|].
    destruct (_bindFirst options).1; [done|]. by injection Hp as ->. }
  destruct (first_inet_port_Some (ports this)) as (r & -> & Hr & Hnil).
  { intros p Hp ->. apply Hfrom in Hp as (options & _ & Hb).
    destruct bindFirst_first_success_aux as (_ & _ & _ & Hnone).
    by apply (Hnone options). }
  destruct r as [port|].
  - destruct (Hr port eq_refl) as [Hin Hfam].
    apply Hfrom in Hin as (options & Hin & Hb).
    destruct (socket port) as [[host n]|] eqn:Hsock.
    + exists (Some n). split_and!; [done| |].
      * intros ? [= <-]. by exists options, port, host.
      * intros Hall. destruct (Hall _ Hin) as (e & He). congruence.
    + exists None. done.
  - exists None. done.
Qed.

End ListeningFacts.

(** * Theorems: the advertising service at work *)

Module ServiceFacts.
Import Advertising Promotion Listening Service AdvertisingFacts AdvertisingLaws.

Lemma loopback_fold (net : Network) (port : nat) (l : list string)
    (acc : gset (string * nat)) (a : string) (p : nat) :
  (a, p) ∈ foldl (λ loopback_addresses addr,
                    if is_link_local net addr then loopback_addresses
                    else if is_loopback net addr
                    then loopback_addresses ∪ {[(addr, port)]}
                    else loopback_addresses) acc l
  ↔ (a, p) ∈ acc
    ∨ (a ∈ l ∧ is_link_local net a = false ∧ is_loopback net a = true
       ∧ p = port).
Proof.
  revert acc. induction l as [|addr l IH]; intros acc.
  - simpl. split; [by left|]. intros [?|[[]%elem_of_nil _]]; done.
  - cbn [foldl]. rewrite IH.
    destruct (is_link_local net addr) eqn:Hll;
      [|destruct (is_loopback net addr) eqn:Hlo].
    + split.
      * intros [?|(? & ? & ? & ?)]; [by left|right].
        split_and!; try done. by right.
      * intros [?|([->|?]%elem_of_cons & ? & ? & ?)]; [by left|congruence|].
        right. done.
    + rewrite elem_of_union, elem_of_singleton. split.
      * intros [[?|[= -> ->]]|(? & ? & ? & ?)].
        -- by left.
        -- right. split_and!; try done. by left.
        -- right. split_and!; try done. by right.
      * intros [?|([->|?]%elem_of_cons & ? & ? & ->)].
        -- by left; left.
        -- by left; right.
        -- right. done.
    + split.
      * intros [?|(? & ? & ? & ?)]; [by left|right].
        split_and!; try done. by right.
      * intros [?|([->|?]%elem_of_cons & ? & ? & ?)]; [by left|congruence|].
        right. done.
Qed.

(** [_getAddresses] of a serving region. *)
Lemma getAddresses_serving this net port :
  getPort this = inr (Some port) →
  ∃ addresses,
    _getAddresses (Some this) net = inr addresses ∧
    ∀ a p, (a, p) ∈ addresses ↔ reachable net a ∧ p = port.
Proof.
  intros Hport. unfold _getAddresses, reachable. rewrite Hport.
  destruct (decide (0 < size (get_all_interface_source_addresses net)))
    as [Hpos|Hzero].
  - eexists. split; [done|]. intros a p.
    rewrite decide_False.
    2:{ intros Hempty. rewrite Hempty, size_empty in Hpos. lia. }
    rewrite elem_of_map. split.
    + intros (addr & [= -> ->] & Hin). done.
    + intros [Hin ->]. by exists a.
  - eexists. split; [done|]. intros a p.
    rewrite decide_True.
    2:{ apply leibniz_equiv, size_empty_iff. lia. }
    rewrite loopback_fold. split.
    + intros [[]%elem_of_empty|(? & ? & ? & ?)]. done.
    + intros [(? & ? & ?) ?]. right. done.
Qed.

(** [_getAddresses] of a region that does not serve. *)
Lemma getAddresses_not_serving rpc net :
  rpc = None ∨ (∃ this, rpc = Some this ∧ getPort this = inr None) →
  _getAddresses rpc net = inr ∅.
Proof.
  intros [->|(this & -> & Hport)]; [done|].
  unfold _getAddresses. by rewrite Hport.
Qed.

(** X23. A tick of a serving region: on tables that respect their keys,
    with this process's region controller present and the row of this
    process in the table -- or, for it to be put back, the region
    controller of this host present and no other row holding this host's
    region and pid -- when the RPC service listens on [port], [_tryUpdate]
    logs nothing and leaves as this process's endpoints exactly the
    reachable addresses of the host, each with [port]: the source
    addresses of its interfaces or, when there is none, the loopback
    addresses that are not link-local.  The loop's interval becomes 60
    seconds when there is such an address and 2 seconds otherwise. *)
Theorem tryUpdate_advertises_listening_port
    loop_name self h this net db port :
  endpoints_ok db →
  NoDup (system_id <$> regions db) →
  NoDup (proc_id <$> processes db) →
  (∃ r, r ∈ regions db ∧ system_id r = region_id self) →
  ((∃ p, p ∈ processes db ∧ proc_id p = process_id self)
   ∨ ((∃ r, r ∈ regions db ∧ system_id r = maas_id h) ∧
      ∀ p, p ∈ processes db →
           ¬ (proc_region p = maas_id h ∧ proc_pid p = getpid h))) →
  getPort this = inr (Some port) →
  ∃ interval db',
    _tryUpdate loop_name (inr self) h (Some this) net db
      = (Some interval, [], db') ∧
    (∀ a p, (∃ e, e ∈ endpoints db' ∧ ep_process e = process_id self ∧
                  ep_address e = a ∧ ep_port e = p)
            ↔ reachable net a ∧ p = port) ∧
    ((∃ a, reachable net a) → interval = 60) ∧
    ((∀ a, ¬ reachable net a) → interval = 2).
Proof.
  intros Hok Hr Hp Hreg Hown Hport.
  destruct (getAddresses_serving this net port Hport)
    as (addresses & Haddr & Hmem).
  destruct (update_succeeds self h addresses db Hok Hr Hp Hreg Hown)
    as (interval & db' & E).
  destruct (update_endpoints_exact _ _ _ _ _ _ E Hok) as (Hint & Hex & _).
  exists interval, db'. unfold _tryUpdate. rewrite Haddr, E.
  split_and!; [done| | |].
  - intros a p. by rewrite Hex, Hmem.
  - intros (a & Ha). rewrite Hint. rewrite decide_False; [done|].
    intros Hempty. assert ((a, port) ∈ addresses) as Hin by (by apply Hmem).
    rewrite Hempty in Hin. by apply elem_of_empty in Hin.
  - intros Hnone. rewrite Hint. rewrite decide_True; [done|].
    apply leibniz_equiv, elem_of_equiv_empty. intros [a p] Hin.
    apply Hmem in Hin as [Ha _]. by apply (Hnone a).
Qed.

(** X24. A tick of a region that does not serve: on tables that respect
    their keys, with this process's region controller present and the row
    of this process in the table -- or, for it to be put back, the region
    controller of this host present and no other row holding this host's
    region and pid -- while there is no RPC service, or it has no internet
    port with a socket, [_tryUpdate] logs nothing, withdraws every
    endpoint of this process, those of earlier ticks included, and sets
    the loop's interval to 2 seconds. *)
Theorem tryUpdate_withdraws_when_not_listening loop_name self h rpc net db :
  endpoints_ok db →
  NoDup (system_id <$> regions db) →
  NoDup (proc_id <$> processes db) →
  (∃ r, r ∈ regions db ∧ system_id r = region_id self) →
  ((∃ p, p ∈ processes db ∧ proc_id p = process_id self)
   ∨ ((∃ r, r ∈ regions db ∧ system_id r = maas_id h) ∧
      ∀ p, p ∈ processes db →
           ¬ (proc_region p = maas_id h ∧ proc_pid p = getpid h))) →
  rpc = None ∨ (∃ this, rpc = Some this ∧ getPort this = inr None) →
  ∃ db',
    _tryUpdate loop_name (inr self) h rpc net db = (Some 2, [], db') ∧
    (∀ e, e ∈ endpoints db' → ep_process e ≠ process_id self) ∧
    (∀ e, e ∈ endpoints db' → e ∈ endpoints db).
Proof.
  intros Hok Hr Hp Hreg Hown Hrpc.
  pose proof (getAddresses_not_serving rpc net Hrpc) as Haddr.
  destruct (update_succeeds self h ∅ db Hok Hr Hp Hreg Hown)
    as (interval & db' & E).
  destruct (update_endpoints_exact _ _ _ _ _ _ E Hok) as (Hint & Hex & Hoth).
  exists db'. unfold _tryUpdate. rewrite Haddr, E.
  rewrite decide_True in Hint by done. subst interval.
  assert (∀ e, e ∈ endpoints db' → ep_process e ≠ process_id self) as Hnone.
  { intros e He Hproc.
    assert ((ep_address e, ep_port e) ∈ (∅ : gset (string * nat))) as Hin.
    { apply Hex. by exists e. }
    by apply elem_of_empty in Hin. }
  split_and!; [done|exact Hnone|].
  intros e He. apply Hoth; [done|]. by apply Hnone.
Qed.

(** X25. Stopping twice: after a [promote] that returned, [_tryDemote]
    removes the row of this process and logs nothing; a second
    [_tryDemote] does not raise either: the
    [RegionControllerProcess.DoesNotExist] of [demote] is logged once, with
    the message that names the loop, and the database stays as it is. *)
Theorem tryDemote_twice_logs_missing_row loop_name h db adv db1 :
  promote h db = inr (adv, db1) →
  ∃ db2,
    _tryDemote loop_name (Some (inr adv)) h db1 = ([], db2) ∧
    (∀ p, p ∈ processes db2 →
          ¬ (proc_region p = maas_id h ∧ proc_pid p = getpid h)) ∧
    _tryDemote loop_name (Some (inr adv)) h db2
      = ([(RegionControllerProcess_DoesNotExist,
           demote_failed_message loop_name)], db2).
Proof.
  intros Hpromote.
  destruct (demote_after_promote _ _ _ _ Hpromote)
    as (db2 & Hdemote & Hgone & _ & _ & _).
  destruct (promote_row _ _ _ _ Hpromote) as (Hrid & Hregs & p & Hp & Hid).
  apply promote_inr in Hpromote as Hinr.
  destruct Hinr as (region_obj & Hreg & _ & _).
  assert (∃ r, r ∈ regions db1 ∧ system_id r = region_id adv) as Hex.
  { exists region_obj. rewrite Hregs, Hrid.
    assert (region_obj ∈ filter (λ r, system_id r = maas_id h) (regions db))
      as Hin by (rewrite Hreg; by left).
    apply list_elem_of_filter in Hin as [? ?]. done. }
  destruct (demote_after_demote _ _ _ _ Hdemote Hex) as [_ Hagain].
  exists db2. unfold _tryDemote. rewrite Hdemote, Hagain.
  split_and!; [done|exact Hgone|done].
Qed.

(** The only failure [_tryPromote] ends with is the [CancelledError] it
    raises itself: its bare [except] catches every failure of [promote]. *)
Lemma tryPromote_raises_cancelled loop_name turns e :
  (_tryPromote loop_name turns).2 = Raised e → e = CancelledError.
Proof.
  induction turns as [|t turns IH]; [done|].
  cbn [_tryPromote]. destruct (running t); [|by intros [= <-]].
  destruct (attempt t) as [failure|adv]; [|done].
  destruct (_tryPromote loop_name turns) as [effects o].
  destruct failure; simpl in *; exact IH.
Qed.

(** X26. [startService] of the advertising service never fails and never
    logs, whatever [promote] does and whenever the service is stopped:
    the Deferred it returns does not fire with a failure, the errback that
    logs "Failure starting advertising service." is never given anything,
    the only failure [advertising] can hold is a [CancelledError], and the
    advertising loop runs, at 2 seconds, exactly when [advertising] holds
    an advertising object. *)
Theorem startService_never_fails loop_name turns :
  let fired := (Promotion.startService loop_name turns).1 in
  let service := (Promotion.startService loop_name turns).2 in
  (∀ e, fired ≠ Some (inl e)) ∧
  logged service = [] ∧
  (∀ e, advertising service = Some (inl e) → e = CancelledError) ∧
  (advertiser_running service = Some 2
   ↔ ∃ adv, advertising service = Some (inr adv)) ∧
  (advertiser_running service = None
   ∨ advertiser_running service = Some 2).
Proof.
  cbv zeta. unfold Promotion.startService.
  pose proof (tryPromote_raises_cancelled loop_name turns) as Hraise.
  destruct (_tryPromote loop_name turns).2 as [adv|e|]; simpl.
  - split_and!; try done; [|by right].
    split; [by exists adv|done].
  - rewrite (Hraise e eq_refl). simpl.
    split_and!; try done; [by intros ? [= <-]| |by left].
    split; [done|by intros (? & ?)].
  - split_and!; try done; [|by left].
    split; [done|by intros (? & ?)].
Qed.

(** ** Witnesses *)

Lemma tryUpdate_advertises_listening_port_witness :
  ∃ interval db',
    _tryUpdate "loop" (inr self0) host0 (Some rpc0) net0 db0
      = (Some interval, [], db') ∧
    (∀ a p, (∃ e, e ∈ endpoints db' ∧ ep_process e = process_id self0 ∧
                  ep_address e = a ∧ ep_port e = p)
            ↔ reachable net0 a ∧ p = 5250) ∧
    ((∃ a, reachable net0 a) → interval = 60) ∧
    ((∀ a, ¬ reachable net0 a) → interval = 2).
Proof.
  apply (tryUpdate_advertises_listening_port "loop" self0 host0 rpc0 net0
           db0 5250).
  - exact db0_endpoints_ok.
  - compute_done.
  - compute_done.
  - eexists. split; [by left|reflexivity].
  - left. eexists. split; [by right; right; left|reflexivity].
  - reflexivity.
Defined.

Lemma tryUpdate_withdraws_when_not_listening_witness :
  ∃ db',
    _tryUpdate "loop" (inr self0) host0 None net0 db0 = (Some 2, [], db') ∧
    (∀ e, e ∈ endpoints db' → ep_process e ≠ process_id self0) ∧
    (∀ e, e ∈ endpoints db' → e ∈ endpoints db0).
Proof.
  apply (tryUpdate_withdraws_when_not_listening "loop" self0 host0 None net0
           db0).
  - exact db0_endpoints_ok.
  - compute_done.
  - compute_done.
  - eexists. split; [by left|reflexivity].
  - left. eexists. split; [by right; right; left|reflexivity].
  - by left.
Defined.

Lemma tryDemote_twice_logs_missing_row_witness :
  ∃ db2,
    _tryDemote "loop" (Some (inr self0)) host0 db0 = ([], db2) ∧
    (∀ p, p ∈ processes db2 →
          ¬ (proc_region p = maas_id host0 ∧ proc_pid p = getpid host0)) ∧
    _tryDemote "loop" (Some (inr self0)) host0 db2
      = ([(RegionControllerProcess_DoesNotExist,
           demote_failed_message "loop")], db2).
Proof.
  apply (tryDemote_twice_logs_missing_row "loop" host0 db0 self0 db0).
  vm_compute. reflexivity.
Defined.

End ServiceFacts.

(** * Theorems: connection records *)

Module ConnectionsFacts.
Import Advertising Connections AdvertisingFacts AdvertisingLaws.
#[local] Set Warnings "-abstract-large-number".

(** [get_endpoint] looks a row up by (process, address, port). *)
Lemma get_endpoint_filter process a d :
  filter (λ e, ep_process e = proc_id process ∧ ep_address e = host a
               ∧ ep_port e = port a) (endpoints (tables d))
  = filter (λ e, endpoint_key e = (proc_id process, host a, port a))
      (endpoints (tables d)).
Proof.
  apply list_filter_iff. intros e. unfold endpoint_key. split.
  - by intros (-> & -> & ->).
  - by intros [= -> -> ->].
Qed.

Lemma get_endpoint_cases process a d :
  NoDup (endpoint_key <$> endpoints (tables d)) →
  (get_endpoint process a d
     = inl RegionControllerProcessEndpoint_DoesNotExist ∧
   ∀ e, e ∈ endpoints (tables d) →
        endpoint_key e ≠ (proc_id process, host a, port a))
  ∨ ∃ e, get_endpoint process a d = inr e ∧ e ∈ endpoints (tables d) ∧
         endpoint_key e = (proc_id process, host a, port a).
Proof.
  intros Hnd. unfold get_endpoint, objects_get.
  rewrite get_endpoint_filter.
  destruct (filter_by_key endpoint_key (endpoints (tables d))
              (proc_id process, host a, port a) Hnd)
    as [Hnil|(e & He & Hkey & ->)].
  - left. rewrite Hnil. split; [done|]. intros e He Hkey.
    by eapply (filter_nil_not_elem_of
                 (λ e, endpoint_key e = (proc_id process, host a, port a))).
  - right. by exists e.
Qed.

Lemma get_endpoint_inr process a d e :
  get_endpoint process a d = inr e →
  e ∈ endpoints (tables d) ∧
  endpoint_key e = (proc_id process, host a, port a).
Proof.
  intros [(? & ? & ?) ?]%objects_get_inr. split; [done|].
  unfold endpoint_key. congruence.
Qed.

(** What a successful [registerConnection] has done. *)
Lemma registerConnection_inr ipv4 process rack a d a' d1 :
  registerConnection ipv4 process rack a d = (a', inr d1) →
  ∃ e,
    get_endpoint process a' d = inr e ∧
    port a' = port a ∧
    host a' = default (host a) (ipv4 (host a)) ∧
    ((connections_of e rack d = [] ∧
      d1 = {| tables := tables d;
              rack_controllers := rack_controllers d;
              rpc_connections := rpc_connections d
                ++ [{| conn_id := connection_seq d;
                       conn_endpoint := ep_id e;
                       conn_rack_controller := rack |}];
              connection_seq := S (connection_seq d);
              saved := saved d |})
     ∨ ∃ c, connections_of e rack d = [c]
            ∧ d1 = save_connection (conn_id c) d).
Proof.
  unfold registerConnection. intros [= <- Hd].
  set (a' := match ipv4 (host a) with
             | Some dotted_quad => {| host := dotted_quad; port := port a |}
             | None => a
             end) in *.
  destruct (get_endpoint process a' d) as [|e] eqn:He; [done|].
  exists e. split_and!; [done|by subst a'; destruct (ipv4 (host a))| |].
  { subst a'. by destruct (ipv4 (host a)). }
  unfold connections_of.
  destruct (filter _ (rpc_connections d)) as [|c [|c' l]] eqn:Hf; [| |done].
  - left. by injection Hd as <-.
  - right. exists c. by injection Hd as <-.
Qed.

Lemma rack_controller_get (rs : list string) rack :
  NoDup rs → rack ∈ rs →
  objects_get (λ r, Some r = Some rack) rs RackController_DoesNotExist
    = inr rack.
Proof.
  intros Hnd Hin. unfold objects_get.
  replace (filter (λ r, Some r = Some rack) rs)
    with (filter (λ r, id r = rack) rs).
  2:{ apply list_filter_iff. intros r. simpl. split; congruence. }
  destruct (filter_by_key id rs rack) as [Hnil|(x & _ & Hx & ->)].
  - by rewrite list_fmap_id.
  - exfalso. by eapply (filter_nil_not_elem_of (λ r, id r = rack)).
  - simpl in Hx. by subst x.
Qed.

(** X27. [unregisterConnection] never raises on tables that respect
    their keys, and it only ever deletes connection rows: the rows of the
    rack controller named [ident] on the endpoint of this process at this
    address, provided both the endpoint and the rack controller exist.
    When either is gone it changes nothing. *)
Theorem unregisterConnection_deletes_only_its_rows process ident a d :
  NoDup (endpoint_key <$> endpoints (tables d)) →
  NoDup (rack_controllers d) →
  ∃ d',
    unregisterConnection process ident a d = inr d' ∧
    tables d' = tables d ∧
    rack_controllers d' = rack_controllers d ∧
    saved d' = saved d ∧
    (∀ c, c ∈ rpc_connections d'
          ↔ c ∈ rpc_connections d ∧
            ¬ (ident = Some (conn_rack_controller c) ∧
               conn_rack_controller c ∈ rack_controllers d ∧
               ∃ e, e ∈ endpoints (tables d) ∧
                    endpoint_key e = (proc_id process, host a, port a) ∧
                    conn_endpoint c = ep_id e)) ∧
    ((∀ e, e ∈ endpoints (tables d) →
           endpoint_key e ≠ (proc_id process, host a, port a))
     ∨ (∀ r, r ∈ rack_controllers d → ident ≠ Some r) →
     d' = d).
Proof.
  intros Hkeys Hracks. unfold unregisterConnection.
  destruct (get_endpoint_cases process a d Hkeys)
    as [[-> Hnone]|(e & -> & He & Hkey)].
  { rewrite decide_True by done. exists d. split_and!; try done.
    intros c. split; [|by intros [? _]].
    intros Hc. split; [done|]. intros (_ & _ & e & He & Hkey & _).
    by apply (Hnone e). }
  destruct ident as [rack|].
  2:{ unfold objects_get.
      replace (filter (λ r, Some r = None) (rack_controllers d))
        with (@nil string).
      2:{ symmetry. apply elem_of_nil_inv.
          intros r [? _]%list_elem_of_filter. done. }
      rewrite decide_True by done. exists d. split_and!; try done.
      intros c. split; [|by intros [? _]].
      intros Hc. split; [done|]. by intros (? & _). }
  destruct (decide (rack ∈ rack_controllers d)) as [Hin|Hnin].
  - rewrite (rack_controller_get _ _ Hracks Hin).
    eexists. split_and!; try done.
    + intros c. cbn [rpc_connections].
      rewrite list_elem_of_filter. split.
      * intros [Hne Hc]. split; [done|].
        intros ([= ->] & _ & e' & He' & Hkey' & Hid). apply Hne.
        split; [|done]. rewrite Hid. f_equal.
        apply (NoDup_fmap_eq endpoint_key (endpoints (tables d)));
          try done. congruence.
      * intros [Hc Hne]. split; [|done]. intros [Hid Hrack]. apply Hne.
        split_and!; [by rewrite Hrack|by rewrite Hrack|].
        by exists e.
    + intros [Hnone|Hnone]; [by apply Hnone in He|].
      by apply Hnone in Hin.
  - unfold objects_get.
    replace (filter (λ r, Some r = Some rack) (rack_controllers d))
      with (@nil string).
    2:{ symmetry. apply elem_of_nil_inv.
        intros r [[= ->] ?]%list_elem_of_filter. done. }
    rewrite decide_True by done. exists d. split_and!; try done.
    intros c. split; [|by intros [? _]].
    intros Hc. split; [done|]. intros ([= ->] & ? & _). done.
Qed.

(** X28. Registering and unregistering cancel out: when
    [registerConnection] has returned for a rack controller that has a
    row, the rack controller has exactly one connection row on the
    endpoint, and [unregisterConnection] at the address that
    [registerConnection] left in [host] returns and leaves it none; if the
    row was created by the registration, the connection table is back to
    what it was. *)
Theorem register_then_unregister ipv4 process rack a d a' d1 :
  NoDup (rack_controllers d) →
  rack ∈ rack_controllers d →
  registerConnection ipv4 process rack a d = (a', inr d1) →
  ∃ e d2,
    get_endpoint process a' d = inr e ∧
    (∃ c, connections_of e rack d1 = [c]) ∧
    unregisterConnection process (Some rack) a' d1 = inr d2 ∧
    connections_of e rack d2 = [] ∧
    (connections_of e rack d = [] → rpc_connections d2 = rpc_connections d).
Proof.
  intros Hracks Hin Hreg.
  apply registerConnection_inr in Hreg as (e & He & _ & _ & Hcase).
  assert (tables d1 = tables d ∧ rack_controllers d1 = rack_controllers d)
    as [Ht Hr].
  { by destruct Hcase as [[_ ->]|(c & _ & ->)]. }
  assert (get_endpoint process a' d1 = inr e) as He1.
  { unfold get_endpoint in *. by rewrite Ht. }
  exists e. eexists. split_and!; [done| | | |].
  - destruct Hcase as [[Hnone ->]|(c & Hone & ->)].
    + eexists. unfold connections_of in *. cbn [rpc_connections].
      rewrite filter_app, Hnone, app_nil_l.
      by rewrite filter_cons_True by done.
    + by exists c.
  - unfold unregisterConnection. rewrite He1, Hr.
    by rewrite (rack_controller_get _ _ Hracks Hin).
  - unfold connections_of. cbn [rpc_connections].
    apply elem_of_nil_inv.
    intros c [Hm [Hne _]%list_elem_of_filter]%list_elem_of_filter.
    done.
  - intros Hnone. cbn [rpc_connections].
    destruct Hcase as [[_ ->]|(c & Hone & _)]; [|congruence].
    cbn [rpc_connections]. rewrite filter_app.
    rewrite filter_cons_False, filter_nil, app_nil_r by (simpl; tauto).
    apply filter_all. intros c Hc Hm.
    assert (c ∈ connections_of e rack d) as Hcin
      by (by apply list_elem_of_filter).
    rewrite Hnone in Hcin. by apply elem_of_nil in Hcin.
Qed.

(** X29. Registering again adds no row: when [registerConnection] has
    returned, a second call, at the address the first left in [host],
    returns too, leaves the connection table as it is, and calls [save] on
    the one row of this rack controller on the endpoint.  The address
    conversion is taken to leave a dotted quad as it is. *)
Theorem registerConnection_twice ipv4 process rack a d a' d1 :
  (∀ s dotted_quad, ipv4 s = Some dotted_quad →
                    ipv4 dotted_quad = Some dotted_quad) →
  registerConnection ipv4 process rack a d = (a', inr d1) →
  ∃ e c,
    get_endpoint process a' d = inr e ∧
    connections_of e rack d1 = [c] ∧
    registerConnection ipv4 process rack a' d1
      = (a', inr (save_connection (conn_id c) d1)).
Proof.
  intros Hidem Hreg.
  assert (match ipv4 (host a') with
          | Some dotted_quad => {| host := dotted_quad; port := port a' |}
          | None => a'
          end = a') as Hfix.
  { unfold registerConnection in Hreg. injection Hreg as Ha' _.
    destruct (ipv4 (host a)) as [q|] eqn:Hq.
    - subst a'. simpl. by rewrite (Hidem _ _ Hq).
    - subst a'. by rewrite Hq. }
  apply registerConnection_inr in Hreg as (e & He & _ & _ & Hcase).
  assert (tables d1 = tables d) as Ht.
  { by destruct Hcase as [[_ ->]|(c & _ & ->)]. }
  assert (∃ c, connections_of e rack d1 = [c]) as (c & Hc).
  { destruct Hcase as [[Hnone ->]|(c & Hone & ->)].
    - eexists. unfold connections_of in *. cbn [rpc_connections].
      rewrite filter_app, Hnone, app_nil_l.
      by rewrite filter_cons_True by done.
    - by exists c. }
  exists e, c. split_and!; [done..|].
  unfold registerConnection. rewrite Hfix.
  assert (get_endpoint process a' d1 = inr e) as ->.
  { unfold get_endpoint in *. by rewrite Ht. }
  unfold connections_of in Hc. by rewrite Hc.
Qed.


(** ** Witnesses *)

Lemma unregisterConnection_deletes_only_its_rows_witness :
  ∃ d',
    unregisterConnection process0 (Some "rack1") a0_ipv4
      d0_registered = inr d' ∧
    tables d' = tables d0_registered ∧
    rack_controllers d' = rack_controllers d0_registered ∧
    saved d' = saved d0_registered ∧
    (∀ c, c ∈ rpc_connections d'
          ↔ c ∈ rpc_connections d0_registered ∧
            ¬ (Some "rack1" = Some (conn_rack_controller c) ∧
               conn_rack_controller c ∈ rack_controllers d0_registered ∧
               ∃ e, e ∈ endpoints (tables d0_registered) ∧
                    endpoint_key e = (proc_id process0, "10.0.0.1", 5250) ∧
                    conn_endpoint c = ep_id e)) ∧
    ((∀ e, e ∈ endpoints (tables d0_registered) →
           endpoint_key e ≠ (proc_id process0, "10.0.0.1", 5250))
     ∨ (∀ r, r ∈ rack_controllers d0_registered → Some "rack1" ≠ Some r) →
     d' = d0_registered).
Proof.
  apply (unregisterConnection_deletes_only_its_rows process0 (Some "rack1")
           a0_ipv4 d0_registered).
  - compute_done.
  - compute_done.
Defined.

Lemma register_then_unregister_witness :
  ∃ e d2,
    get_endpoint process0 a0_ipv4 d0 = inr e ∧
    (∃ c, connections_of e "rack1" d0_registered = [c]) ∧
    unregisterConnection process0 (Some "rack1") a0_ipv4
      d0_registered = inr d2 ∧
    connections_of e "rack1" d2 = [] ∧
    (connections_of e "rack1" d0 = [] →
     rpc_connections d2 = rpc_connections d0).
Proof.
  apply (register_then_unregister ipv4_0 process0 "rack1" a0 d0
           a0_ipv4 d0_registered).
  - compute_done.
  - compute_done.
  - vm_compute. reflexivity.
Defined.

Lemma registerConnection_twice_witness :
  ∃ e c,
    get_endpoint process0 a0_ipv4 d0 = inr e ∧
    connections_of e "rack1" d0_registered = [c] ∧
    registerConnection ipv4_0 process0 "rack1" a0_ipv4
      d0_registered
      = (a0_ipv4,
         inr (save_connection (conn_id c) d0_registered)).
Proof.
  apply (registerConnection_twice ipv4_0 process0 "rack1" a0 d0
           a0_ipv4 d0_registered).
  - intros s q. unfold ipv4_0. repeat case_decide; naive_solver.
  - vm_compute. reflexivity.
Defined.


End ConnectionsFacts.
